(** * Monte Carlo option pricing on CURAND: kernels, pricing engine, reference pricer

    A shallow embedding of the pricing engine (the device kernels,
    [PricingEngine::operator()] and [PricingEngine::operator[]]), of the
    test driver [Test::operator()] and of [genericoption.h].

    - The template parameter [Real] is read as the field of real numbers:
      every statement is about the exact-arithmetic meaning of the code.
      The one quotient a kernel can take of 0 by 0, the average of a path
      without time steps, is written out as the case it is.
    - [unsigned int] values are integers in [Z]; additions and
      multiplications wrap modulo 2^32.
    - Device arrays reached through raw pointers are total maps from offsets
      to values.
    - The lanes of a block and the blocks of a grid are run one after the
      other; the proofs show that the order does not matter wherever lanes
      share memory.
    - CURAND, the C library generator and the CUDA runtime are parameters. *)

From Stdlib Require Import String ZArith List Bool Lia.
From Stdlib Require Import Reals Lra.
From Stdlib Require Import Permutation.
Import ListNotations.

Local Open Scope Z_scope.

(** ** Scalars *)

(** The template parameter of the sources. *)
Abbreviation Real := R (only parsing).

(** [unsigned int] arithmetic. *)
Definition uint (x : Z) : Z := x mod 2 ^ 32.

(** [max(a, b)] on [Real]. *)
Definition rmax (a b : Real) : Real := Rmax a b.

(** The comparison [a > b], as a boolean. *)
Definition gtb (a b : Real) : bool := if Rgt_dec a b then true else false.

(** Conversion of an [unsigned int] to [Real]. *)
Definition to_real (n : Z) : Real := IZR n.

(** [static_cast<int>(x)]: truncation toward zero. *)
Definition static_cast_int (x : Real) : Z :=
  if Rle_dec 0 x then Int_part x else - Int_part (- x).

(** ** genericoption.h *)

Inductive CallPut := Call | Put.

Record genericOption := mkOption {
  spot : Real;
  strike : Real;
  r : Real;
  sigma : Real;
  tenor : Real;
  dt : Real;
  barrier : Real;
  golden : Real;
  valueAsian : Real;
  valuePlainVanilla : Real;
  valuePlainVanillaCPU : Real;
  valueKnockout : Real;
  valueKnockin : Real;
  valueLookback : Real;
  valueALK : Real;
  type : CallPut
}.

Definition is_put (o : genericOption) : bool :=
  match type o with Put => true | Call => false end.

(** ** Device memory *)

(** An array reached through a pointer: offset to value. *)
Definition mem := Z -> Real.

Definition upd (m : mem) (k : Z) (v : Real) : mem :=
  fun j => if j =? k then v else m j.

(** ** Grid-stride loop

    [for (unsigned int i = tid ; i < numSims ; i += step) body(i)].  The
    index wraps modulo 2^32, so the loop need not terminate; [None] is
    returned when the iteration budget is used up. *)

Fixpoint grid_stride {A : Type} (fuel : nat) (i step numSims : Z)
    (body : Z -> A -> A) (acc : A) : option A :=
  match fuel with
  | O => None
  | S fuel' =>
      if i <? numSims
      then grid_stride fuel' (uint (i + step)) step numSims body (body i acc)
      else Some acc
  end.

(** The indices a lane visits, in order. *)
Definition lane_paths (fuel : nat) (tid step numSims : Z) : option (list Z) :=
  grid_stride fuel tid step numSims (fun i acc => acc ++ [i]) [].

(** The budget every kernel below runs with: a loop that revisits no index
    finishes within [numSims] iterations. *)
Definition loop_budget (numSims : Z) : nat := S (Z.to_nat numSims).

(** ** Per-path payoffs: the bodies of the valuation kernels' outer loops *)

Section Payoffs.

Variable paths : mem.
Variable opt : genericOption.
Variable numSims : Z.

(** [for (t = 0 ; t < numTimesteps ; t++, path += numSims) avg += *path;] *)
Fixpoint asian_scan (n : nat) (path : Z) (avg : Real) : Real :=
  match n with
  | O => avg
  | S n' => asian_scan n' (path + numSims) (avg + paths path)%R
  end.

(** With [numTimesteps = 0] the quotient [avg * option->spot / numTimesteps]
    is 0 / 0, which is not a number; it stays so through the subtraction and
    the sign flip, and [max(0, .)] of it is 0. *)
Definition asian_payoff (numTimesteps : Z) (i : Z) : Real :=
  let avg := asian_scan (Z.to_nat numTimesteps) i 0%R in
  if numTimesteps =? 0 then 0%R
  else
    let avg := (avg * spot opt / to_real numTimesteps)%R in
    let payoff := (avg - strike opt)%R in
    let payoff := if is_put opt then (- payoff)%R else payoff in
    rmax 0%R payoff.

(** [for (...) finval = *path;] *)
Fixpoint final_scan (n : nat) (path : Z) (finval : Real) : Real :=
  match n with
  | O => finval
  | S n' => final_scan n' (path + numSims) (paths path)
  end.

Definition plainvanilla_payoff (numTimesteps : Z) (i : Z) : Real :=
  let finval := final_scan (Z.to_nat numTimesteps) i 0%R in
  let finval := (finval * spot opt)%R in
  let payoff := (finval - strike opt)%R in
  let payoff := if is_put opt then (- payoff)%R else payoff in
  rmax 0%R payoff.

(** [for (...) { finval = *path; if (valmin > finval) valmin = finval; }] *)
Fixpoint lookback_scan (n : nat) (path : Z) (finval valmin : Real)
    : Real * Real :=
  match n with
  | O => (finval, valmin)
  | S n' =>
      let finval := paths path in
      let valmin := if gtb valmin finval then finval else valmin in
      lookback_scan n' (path + numSims) finval valmin
  end.

Definition lookback_payoff (numTimesteps : Z) (i : Z) : Real :=
  let '(finval, valmin) :=
    lookback_scan (Z.to_nat numTimesteps) i 0%R 1%R in
  let finval := (finval * spot opt)%R in
  let payoff := (finval - valmin * spot opt)%R in
  rmax 0%R payoff.

(** [for (...) { finval = *path;
                 if (finval * option->spot > option->barrier) killer = 0; }] *)
Fixpoint knock_scan (n : nat) (path : Z) (finval killer : Real)
    : Real * Real :=
  match n with
  | O => (finval, killer)
  | S n' =>
      let finval := paths path in
      let killer :=
        if gtb (finval * spot opt)%R (barrier opt) then 0%R
        else killer in
      knock_scan n' (path + numSims) finval killer
  end.

(** The pair (knockout payoff, knockin payoff) of path [i]. *)
Definition knockoutin_payoff (numTimesteps : Z) (i : Z) : Real * Real :=
  let '(finval, killer) :=
    knock_scan (Z.to_nat numTimesteps) i 0%R 1%R in
  let finvalknockout := (finval * spot opt * killer)%R in
  let finvalknockin := (finval * spot opt * (1 - killer))%R in
  let payoffknockout := (finvalknockout - strike opt)%R in
  let payoffknockin := (finvalknockin - strike opt)%R in
  let payoffknockout :=
    if is_put opt then (- payoffknockout)%R else payoffknockout in
  let payoffknockin :=
    if is_put opt then (- payoffknockin)%R else payoffknockin in
  (rmax 0%R payoffknockout, rmax 0%R payoffknockin).

End Payoffs.

(** ** RNG and path generation *)

Section Device.

(** The CURAND generator: opaque state, seeding, and one standard-normal
    draw ([curand_normal] / [curand_normal_double]). *)
Variable curandState : Type.
Variable curand_init : Z -> Z -> Z -> curandState.
Variable curand_normal : curandState -> Real * curandState.

(** Launch configuration [<<<grid, block>>>]. *)
Variable gridDim : Z.
Variable blockDim : Z.

(** [0, 1, ..., n - 1] *)
Definition range (n : Z) : list Z := map Z.of_nat (seq 0 (Z.to_nat n)).

(** [blockIdx.x * blockDim.x + threadIdx.x] *)
Definition global_tid (bid ltid : Z) : Z := uint (uint (bid * blockDim) + ltid).

(** [gridDim.x * blockDim.x] *)
Definition stride : Z := uint (gridDim * blockDim).

(** All threads of the launch, block by block. *)
Definition threads : list Z :=
  flat_map (fun bid => map (global_tid bid) (range blockDim)) (range gridDim).

(** [initRNG]: [curand_init(seed, tid, 0, &rngStates[tid])] in every thread. *)
Definition initRNG (seed : Z) (rngStates : Z -> curandState)
    : Z -> curandState :=
  fold_left
    (fun states tid =>
       fun j => if j =? tid then curand_init seed tid 0 else states j)
    threads rngStates.

Definition getPathStep (drift diffusion : Real) (state : curandState)
    : Real * curandState :=
  let '(z, state') := curand_normal state in
  (exp (drift + diffusion * z), state')%R.

Section GeneratePaths.

Variable opt : genericOption.
Variable numSims : Z.
Variable numTimesteps : Z.

Definition drift : Real :=
  ((r opt - 0.5 * sigma opt * sigma opt) * dt opt)%R.
Definition diffusion : Real := (sigma opt * sqrt (dt opt))%R.

(** [for (t = 0 ; t < numTimesteps ; t++, output += numSims)
       { s *= getPathStep(...); *output = s; }] *)
Fixpoint simulate_path (n : nat) (output : Z) (s : Real)
    (localState : curandState) (paths : mem) : mem * curandState :=
  match n with
  | O => (paths, localState)
  | S n' =>
      let '(f, localState) := getPathStep drift diffusion localState in
      let s := (s * f)%R in
      simulate_path n' (output + numSims) s localState (upd paths output s)
  end.

(** The body of the outer loop: [output = paths + i; s = 1;] and the
    simulation of path [i] with the thread's generator. *)
Definition generatePaths_body (i : Z) (acc : mem * curandState)
    : mem * curandState :=
  let '(paths, localState) := acc in
  simulate_path (Z.to_nat numTimesteps) i 1%R localState paths.

(** One thread of [generatePaths]; the generator state is a local copy and
    is not written back. *)
Definition generatePaths_thread (rngStates : Z -> curandState)
    (paths : mem) (tid : Z) : option mem :=
  match
    grid_stride (loop_budget numSims) tid stride numSims
      generatePaths_body (paths, rngStates tid)
  with
  | Some (paths, _) => Some paths
  | None => None
  end.

(** The kernel: every thread of the launch has run. *)
Definition generatePaths (rngStates : Z -> curandState) (paths : mem)
    : option mem :=
  fold_left
    (fun acc tid =>
       match acc with
       | Some paths => generatePaths_thread rngStates paths tid
       | None => None
       end)
    threads (Some paths).

End GeneratePaths.

(** ** Block reduction *)

(** One lane between two barriers:
    [if (ltid < s) sdata[ltid] += sdata[ltid + s];] *)
Definition reduce_lane (s : Z) (sdata : mem) (ltid : Z) : mem :=
  if ltid <? s then upd sdata ltid (sdata ltid + sdata (ltid + s)%Z)%R
  else sdata.

(** All lanes, up to the next [__syncthreads()]. *)
Definition reduce_phase (s : Z) (sdata : mem) : mem :=
  fold_left (reduce_lane s) (range blockDim) sdata.

(** [for (s = ... ; s > 0 ; s >>= 1)]: the shift drops the low bit of [s]. *)
Fixpoint reduce_steps (s : positive) (sdata : mem) : mem :=
  let sdata := reduce_phase (Zpos s) sdata in
  match s with
  | xH => sdata
  | xO s' | xI s' => reduce_steps s' sdata
  end.

Definition reduce_loop (s : Z) (sdata : mem) : mem :=
  match s with
  | Zpos p => reduce_steps p sdata
  | _ => sdata
  end.

(** The shared buffer when [reduce_sum] returns; [ins] holds the argument
    [in] of every lane of the block. *)
Definition reduce_shared (ins : list Real) (sdata : mem) : mem :=
  let sdata :=
    fold_left (fun sd '(ltid, x) => upd sd ltid x)
      (combine (range blockDim) ins) sdata in
  reduce_loop (blockDim / 2) sdata.

Definition reduce_sum (ins : list Real) (sdata : mem) : Real :=
  reduce_shared ins sdata 0.

(** ** Valuation kernels *)

Fixpoint all_some {A : Type} (l : list (option A)) : option (list A) :=
  match l with
  | [] => Some []
  | Some a :: l' =>
      match all_some l' with
      | Some rest => Some (a :: rest)
      | None => None
      end
  | None :: _ => None
  end.

(** Blocks run one after the other; a block that does not finish stalls
    the launch. *)
Definition run_blocks {A : Type} (block : Z -> A -> option A) (a : A)
    : option A :=
  fold_left
    (fun acc bid =>
       match acc with
       | Some a => block bid a
       | None => None
       end)
    (range gridDim) (Some a).

(** [if (threadIdx.x == 0) values[bid] = sumPayoffs;] over the lanes. *)
Definition store_lane0 (values : mem) (bid : Z) (sumPayoffs : Real) : mem :=
  fold_left
    (fun values ltid => if ltid =? 0 then upd values bid sumPayoffs else values)
    (range blockDim) values.

Section Valuation.

Variable paths : mem.
Variable opt : genericOption.
Variable numSims : Z.
Variable numTimesteps : Z.

(** Contents of each block's shared buffer when the block starts. *)
Variable shared : Z -> mem.

(** The outer loop of a single-sum kernel in thread [tid]:
    [sumPayoffs += payoff] for every visited path. *)
Definition thread_sum (payoff : Z -> Real) (tid : Z) : option Real :=
  grid_stride (loop_budget numSims) tid stride numSims
    (fun i sumPayoffs => (sumPayoffs + payoff i)%R) 0%R.

(** The local sums of all lanes of block [bid]. *)
Definition lane_sums (payoff : Z -> Real) (bid : Z) : option (list Real) :=
  all_some
    (map (fun ltid => thread_sum payoff (global_tid bid ltid))
       (range blockDim)).

Definition single_sum_block (payoff : Z -> Real) (bid : Z) (values : mem)
    : option mem :=
  match lane_sums payoff bid with
  | Some ins => Some (store_lane0 values bid (reduce_sum ins (shared bid)))
  | None => None
  end.

Definition computeValueAsian (values : mem) : option mem :=
  run_blocks
    (single_sum_block (asian_payoff paths opt numSims numTimesteps)) values.

Definition computeValuePlainVanilla (values : mem) : option mem :=
  run_blocks
    (single_sum_block (plainvanilla_payoff paths opt numSims numTimesteps))
    values.

Definition computeValueLookback (values : mem) : option mem :=
  run_blocks
    (single_sum_block (lookback_payoff paths opt numSims numTimesteps))
    values.

(** The outer loop of [computeValueKnockoutin] in thread [tid]. *)
Definition knockoutin_thread_sums (tid : Z) : option (Real * Real) :=
  grid_stride (loop_budget numSims) tid stride numSims
    (fun i '(sumPayoffsknockout, sumPayoffsknockin) =>
       let '(payoffknockout, payoffknockin) :=
         knockoutin_payoff paths opt numSims numTimesteps i in
       (sumPayoffsknockout + payoffknockout,
        sumPayoffsknockin + payoffknockin)%R)
    (0%R, 0%R).

Definition knockoutin_block (bid : Z) (vs : mem * mem) : option (mem * mem) :=
  let '(valuesko, valueski) := vs in
  match
    all_some
      (map (fun ltid => knockoutin_thread_sums (global_tid bid ltid))
         (range blockDim))
  with
  | Some sums =>
      let sumPayoffsknockout := reduce_sum (map fst sums) (shared bid) in
      let sdata := reduce_shared (map fst sums) (shared bid) in
      let sumPayoffsknockin := reduce_sum (map snd sums) sdata in
      Some (store_lane0 valuesko bid sumPayoffsknockout,
            store_lane0 valueski bid sumPayoffsknockin)
  | None => None
  end.

Definition computeValueKnockoutin (valuesko valueski : mem)
    : option (mem * mem) :=
  run_blocks knockoutin_block (valuesko, valueski).

End Valuation.

End Device.

Arguments initRNG {curandState}.
Arguments getPathStep {curandState}.
Arguments simulate_path {curandState}.
Arguments generatePaths_body {curandState}.
Arguments generatePaths_thread {curandState}.
Arguments generatePaths {curandState}.

(** ** Host side *)

Definition set_valueAsian (v : Real) (o : genericOption) : genericOption :=
  mkOption (spot o) (strike o) (r o) (sigma o) (tenor o) (dt o) (barrier o)
    (golden o) v (valuePlainVanilla o) (valuePlainVanillaCPU o)
    (valueKnockout o) (valueKnockin o) (valueLookback o) (valueALK o) (type o).

Definition set_valuePlainVanilla (v : Real) (o : genericOption) : genericOption :=
  mkOption (spot o) (strike o) (r o) (sigma o) (tenor o) (dt o) (barrier o)
    (golden o) (valueAsian o) v (valuePlainVanillaCPU o)
    (valueKnockout o) (valueKnockin o) (valueLookback o) (valueALK o) (type o).

Definition set_valuePlainVanillaCPU (v : Real) (o : genericOption)
    : genericOption :=
  mkOption (spot o) (strike o) (r o) (sigma o) (tenor o) (dt o) (barrier o)
    (golden o) (valueAsian o) (valuePlainVanilla o) v
    (valueKnockout o) (valueKnockin o) (valueLookback o) (valueALK o) (type o).

Definition set_valueKnockout (v : Real) (o : genericOption) : genericOption :=
  mkOption (spot o) (strike o) (r o) (sigma o) (tenor o) (dt o) (barrier o)
    (golden o) (valueAsian o) (valuePlainVanilla o) (valuePlainVanillaCPU o)
    v (valueKnockin o) (valueLookback o) (valueALK o) (type o).

Definition set_valueKnockin (v : Real) (o : genericOption) : genericOption :=
  mkOption (spot o) (strike o) (r o) (sigma o) (tenor o) (dt o) (barrier o)
    (golden o) (valueAsian o) (valuePlainVanilla o) (valuePlainVanillaCPU o)
    (valueKnockout o) v (valueLookback o) (valueALK o) (type o).

Definition set_valueLookback (v : Real) (o : genericOption) : genericOption :=
  mkOption (spot o) (strike o) (r o) (sigma o) (tenor o) (dt o) (barrier o)
    (golden o) (valueAsian o) (valuePlainVanilla o) (valuePlainVanillaCPU o)
    (valueKnockout o) (valueKnockin o) v (valueALK o) (type o).

(** The device buffers of one pricing run, the kernels whose attributes are
    queried, and the host/device copies, in program order. *)
Inductive buffer := d_option | d_paths | d_rngStates | d_values | d_values2.

Inductive kernel :=
  | k_initRNG | k_generatePaths | k_computeValueAsian
  | k_computeValuePlainVanilla | k_computeValueKnockoutin
  | k_computeValueLookback.

Inductive transfer :=
  | copy_option | copy_plainvanilla | copy_asian
  | copy_knockout | copy_knockin | copy_lookback.

Record cudaDeviceProp := mkDeviceProp {
  major : Z;
  minor : Z;
  multiProcessorCount : Z
}.

(** What the CUDA runtime answers: a status per call ([cudaSuccess] is 0),
    together with the data the call returns. *)
Record cuda_runtime := mkRuntime {
  cudaGetDeviceProperties : Z -> Z * cudaDeviceProp;
  cudaSetDevice : Z -> Z;
  cudaFuncGetAttributes : kernel -> Z * Z;
  cudaMalloc : buffer -> Z;
  cudaMemcpy : transfer -> Z;
  cudaGetErrorString : Z -> string;
  real_is_double : bool
}.

Definition cudaSuccess : Z := 0.

Definition buffer_eqb (a b : buffer) : bool :=
  match a, b with
  | d_option, d_option | d_paths, d_paths | d_rngStates, d_rngStates
  | d_values, d_values | d_values2, d_values2 => true
  | _, _ => false
  end.

(** The caller's option (passed by reference), the device allocations that
    are still held, and the ones released so far. *)
Record host := mkHost {
  the_option : genericOption;
  live : list buffer;
  freed : list buffer
}.

(** A call returns, throws [std::runtime_error], or waits forever on a
    kernel that does not finish.  Every launch is followed by a blocking
    copy with no host effect in between, so the wait is placed at the
    launch. *)
Inductive outcome (A : Type) :=
  | Done (a : A)
  | Throw (msg : string)
  | Hang.
Arguments Done {A} a.
Arguments Throw {A} msg.
Arguments Hang {A}.

Definition M (A : Type) : Type := host -> outcome A * host.

Definition ret {A : Type} (a : A) : M A := fun h => (Done a, h).

Definition bind {A B : Type} (c : M A) (k : A -> M B) : M B :=
  fun h =>
    match c h with
    | (Done a, h') => k a h'
    | (Throw msg, h') => (Throw msg, h')
    | (Hang, h') => (Hang, h')
    end.

Definition throw {A : Type} (msg : string) : M A := fun h => (Throw msg, h).

Definition launch {A : Type} (result : option A) : M A :=
  fun h =>
    match result with
    | Some a => (Done a, h)
    | None => (Hang, h)
    end.

Definition modify_option (f : genericOption -> genericOption) : M unit :=
  fun h => (Done tt, mkHost (f (the_option h)) (live h) (freed h)).

Definition get_option : M genericOption := fun h => (Done (the_option h), h).

Declare Scope host_scope.
Delimit Scope host_scope with host.
Notation "x <- c ;; k" := (bind c (fun x => k))
  (at level 61, c at next level, right associativity) : host_scope.
Notation "c ;; k" := (bind c (fun _ => k))
  (at level 61, right associativity) : host_scope.

(** [while (grid.x > limit) grid.x >>= 1;] *)
Fixpoint shrink_grid_pos (g : positive) (limit : Z) : Z :=
  if Zpos g >? limit then
    match g with
    | xH => 0
    | xO g' | xI g' => shrink_grid_pos g' limit
    end
  else Zpos g.

Definition shrink_grid (g limit : Z) : Z :=
  match g with
  | Zpos p => shrink_grid_pos p limit
  | _ => g
  end.

Section PricingEngine.

Local Open Scope host_scope.

Variable curandState : Type.
Variable curand_init : Z -> Z -> Z -> curandState.
Variable curand_normal : curandState -> Real * curandState.

Variable rt : cuda_runtime.

(** Contents of freshly allocated device memory, and of the shared buffer
    of each block of each launch. *)
Variable raw_paths : mem.
Variable raw_rngStates : Z -> curandState.
Variable raw_values : mem.
Variable raw_values2 : mem.
Variable shared : kernel -> Z -> mem.

(** The members set by the constructor. *)
Variable m_numSims : Z.
Variable m_device : Z.
Variable m_threadBlockSize : Z.
Variable m_seed : Z.

(** [if (cudaResult != cudaSuccess) throw std::runtime_error(msg + ...)] *)
Definition check (cudaResult : Z) (msg : string) : M unit :=
  if cudaResult =? cudaSuccess then ret tt
  else throw (msg ++ cudaGetErrorString rt cudaResult)%string.

(** Attribute query for one kernel and the block-size test after it. *)
Definition check_kernel (block_x : Z) (k : kernel) (name : string) : M unit :=
  let '(cudaResult, maxThreadsPerBlock) := cudaFuncGetAttributes rt k in
  check cudaResult "Could not get function attributes: "%string ;;
  if block_x >? uint maxThreadsPerBlock
  then throw ("Block X dimension is too large for " ++ name ++ " kernel")%string
  else ret tt.

(** [cudaMalloc] followed by its status test; the pointer stays null when
    the allocation fails. *)
Definition device_malloc (b : buffer) (msg : string) : M (option buffer) :=
  let cudaResult := cudaMalloc rt b in
  (if cudaResult =? cudaSuccess
   then fun h => (Done tt, mkHost (the_option h) (b :: live h) (freed h))
   else ret tt) ;;
  check cudaResult msg ;;
  ret (Some b).

(** The allocations that are held are kept latest first, one entry per
    allocation; a pointer names the allocation it was given by
    [cudaMalloc], the latest of its kind when it is released. *)
Fixpoint remove_first (b : buffer) (held : list buffer) : list buffer :=
  match held with
  | [] => []
  | b' :: held' =>
      if buffer_eqb b b' then held' else b' :: remove_first b held'
  end.

(** [cudaFree(p)] releases the one allocation [p] points to. *)
Definition cudaFree (b : buffer) : M unit :=
  fun h =>
    (Done tt,
     mkHost (the_option h) (remove_first b (live h)) (freed h ++ [b])).

(** [if (p) { cudaFree(p); p = 0; }] *)
Definition release (p : option buffer) : M unit :=
  match p with
  | Some b => cudaFree b
  | None => ret tt
  end.

(** Copy of [grid.x] partial sums into the host vector [values]. *)
Definition copy_back (t : transfer) (d : mem) (grid_x : Z) : M (list Real) :=
  check (cudaMemcpy rt t) "Could not copy partial results to host: "%string ;;
  ret (map d (range grid_x)).

(** Host reduction, mean and discounting, written to one result field. *)
Definition finish (set : Real -> genericOption -> genericOption)
    (get : genericOption -> Real) (values : list Real) : M unit :=
  modify_option (fun o => set (fold_left Rplus values 0%R) o) ;;
  modify_option (fun o => set (get o / to_real m_numSims)%R o) ;;
  modify_option (fun o => set (get o * exp (- r o * tenor o))%R o).

(** [PricingEngine<Real>::operator()].  A block size of 0 divides by zero
    in the source; here the quotient is then 0 and no thread is launched. *)
Definition PricingEngine_call : M unit :=
  let '(cudaResult, deviceProperties) :=
    cudaGetDeviceProperties rt m_device in
  check cudaResult "Could not get device properties: "%string ;;
  let deviceVersion :=
    uint (major deviceProperties * 10 + minor deviceProperties) in
  (if real_is_double rt && (deviceVersion <? 13)
   then throw "Device does not have double precision support"%string
   else ret tt) ;;
  check (cudaSetDevice rt m_device) "Could not set CUDA device: "%string ;;
  let block_x := m_threadBlockSize in
  let grid_x := uint (m_numSims + m_threadBlockSize - 1) / m_threadBlockSize in
  let blocksPerSM := 10 in
  let numSMs := uint (multiProcessorCount deviceProperties) in
  let grid_x := shrink_grid grid_x (uint (2 * blocksPerSM * numSMs)) in
  check_kernel block_x k_initRNG "initRNG"%string ;;
  check_kernel block_x k_generatePaths "generatePaths"%string ;;
  check_kernel block_x k_computeValueAsian "computeValueAsian"%string ;;
  check_kernel block_x k_computeValuePlainVanilla "computeValuePlainVanilla"%string ;;
  check_kernel block_x k_computeValueKnockoutin "computeValueKnockoutin"%string ;;
  check_kernel block_x k_computeValueLookback "computeValueLookback"%string ;;
  p_option <- device_malloc d_option
    "Could not allocate memory on device for option data: "%string ;;
  check (cudaMemcpy rt copy_option) "Could not copy data to device: "%string ;;
  dev_option <- get_option ;;
  let numTimesteps := static_cast_int (tenor dev_option / dt dev_option)%R in
  p_paths <- device_malloc d_paths
    "Could not allocate memory on device for paths: "%string ;;
  p_rngStates <- device_malloc d_rngStates
    "Could not allocate memory on device for RNG state: "%string ;;
  p_values <- device_malloc d_values
    "Could not allocate memory on device for partial results: "%string ;;
  let rngStates := initRNG curand_init grid_x block_x m_seed raw_rngStates in
  paths <- launch
    (generatePaths curand_normal grid_x block_x dev_option m_numSims
       (uint numTimesteps) rngStates raw_paths) ;;
  (* Plain Vanilla *)
  values_d <- launch
    (computeValuePlainVanilla grid_x block_x paths dev_option m_numSims
       (uint numTimesteps) (shared k_computeValuePlainVanilla) raw_values) ;;
  values <- copy_back copy_plainvanilla values_d grid_x ;;
  finish set_valuePlainVanilla valuePlainVanilla values ;;
  (* Asian *)
  values_d <- launch
    (computeValueAsian grid_x block_x paths dev_option m_numSims
       (uint numTimesteps) (shared k_computeValueAsian) values_d) ;;
  values <- copy_back copy_asian values_d grid_x ;;
  finish set_valueAsian valueAsian values ;;
  (* Knockout and knockin *)
  p_values2 <- device_malloc d_values2
    "Could not allocate memory on device for partial results: "%string ;;
  both <- launch
    (computeValueKnockoutin grid_x block_x paths dev_option m_numSims
       (uint numTimesteps) (shared k_computeValueKnockoutin)
       values_d raw_values2) ;;
  let '(values_d, values2_d) := both in
  values <- copy_back copy_knockout values_d grid_x ;;
  finish set_valueKnockout valueKnockout values ;;
  values <- copy_back copy_knockin values2_d grid_x ;;
  finish set_valueKnockin valueKnockin values ;;
  (* Lookback *)
  values_d <- launch
    (computeValueLookback grid_x block_x paths dev_option m_numSims
       (uint numTimesteps) (shared k_computeValueLookback) values_d) ;;
  values <- copy_back copy_lookback values_d grid_x ;;
  finish set_valueLookback valueLookback values ;;
  (* Cleanup *)
  release p_option ;;
  release p_paths ;;
  release p_rngStates ;;
  release p_values ;;
  release p_values2.

End PricingEngine.

(** ** Reference pricer on the host *)

Section ReferencePricer.

(** The C library generator behind [rand()]. *)
Variable randState : Type.
Variable rand : randState -> Z * randState.
Variable RAND_MAX : Z.

(** The statics [y2] and [use_last] of [box_muller], with the generator. *)
Record box_muller_state := mkBoxMuller {
  y2 : Real;
  use_last : bool;
  rand_state : randState
}.

(** [do { x1 = ...; x2 = ...; w = x1 * x1 + x2 * x2; } while (w >= 1.0);] *)
Fixpoint box_muller_pair (fuel : nat) (rs : randState)
    : option (Real * Real * Real * randState) :=
  match fuel with
  | O => None
  | S fuel' =>
      let '(a, rs) := rand rs in
      let x1 := (2 * to_real a / to_real RAND_MAX - 1)%R in
      let '(b, rs) := rand rs in
      let x2 := (2 * to_real b / to_real RAND_MAX - 1)%R in
      let w := (x1 * x1 + x2 * x2)%R in
      if Rge_dec w 1 then box_muller_pair fuel' rs
      else Some (x1, x2, w, rs)
  end.

Definition box_muller (fuel : nat) (m s : Real) (st : box_muller_state)
    : option (Real * box_muller_state) :=
  if use_last st then
    let y1 := y2 st in
    Some ((m + y1 * s)%R, mkBoxMuller (y2 st) false (rand_state st))
  else
    match box_muller_pair fuel (rand_state st) with
    | Some (x1, x2, w, rs) =>
        let w := sqrt ((-2 * ln w) / w) in
        let y1 := (x1 * w)%R in
        let y2 := (x2 * w)%R in
        Some ((m + y1 * s)%R, mkBoxMuller y2 true rs)
    | None => None
    end.

Variable m_numSims : Z.

(** Iteration budget of each rejection loop. *)
Variable fuel : nat.

Section Serial.

Variable opt : genericOption.

Definition MuBydT : Real :=
  ((r opt - 0.5 * sigma opt * sigma opt) * dt opt)%R.
Definition VBySqrtdT : Real := (sigma opt * sqrt (dt opt))%R.

(** [for (pos = 0; pos < numtimeSteps; pos++)
       { rn = box_muller(0, 1); St *= exp(MuBydT + VBySqrtdT * rn); }] *)
Fixpoint serial_path (n : nat) (St : Real) (st : box_muller_state)
    : option (Real * box_muller_state) :=
  match n with
  | O => Some (St, st)
  | S n' =>
      match box_muller fuel 0%R 1%R st with
      | Some (rn, st) =>
          serial_path n' (St * exp (MuBydT + VBySqrtdT * rn))%R st
      | None => None
      end
  end.

(** [for (thisone = 0 ; thisone < N ; thisone++)
       { St = S; ...; valOp = (St > X) ? St - X : 0; sumVanilla += valOp; }] *)
Fixpoint serial_paths (numtimeSteps : Z) (n : nat) (sumVanilla : Real)
    (st : box_muller_state) : option (Real * box_muller_state) :=
  match n with
  | O => Some (sumVanilla, st)
  | S n' =>
      match serial_path (Z.to_nat numtimeSteps) (spot opt) st with
      | Some (St, st) =>
          let valOp :=
            if gtb St (strike opt) then (St - strike opt)%R else 0%R in
          serial_paths numtimeSteps n' (sumVanilla + valOp)%R st
      | None => None
      end
  end.

(** [PricingEngine<Real>::operator[]] *)
Definition PricingEngine_index (st : box_muller_state)
    : option (genericOption * box_muller_state) :=
  let N := to_real m_numSims in
  let numtimeSteps := static_cast_int (tenor opt / dt opt)%R in
  match serial_paths numtimeSteps (Z.to_nat m_numSims) 0%R st with
  | Some (sumVanilla, st) =>
      Some (set_valuePlainVanillaCPU
              (exp (- r opt * tenor opt) * sumVanilla / N)%R opt,
            st)
  | None => None
  end.

End Serial.

End ReferencePricer.

Arguments mkBoxMuller {randState}.
Arguments y2 {randState}.
Arguments use_last {randState}.
Arguments rand_state {randState}.
Arguments box_muller_pair {randState}.
Arguments box_muller {randState}.
Arguments serial_path {randState}.
Arguments serial_paths {randState}.
Arguments PricingEngine_index {randState}.

(** * Specification vocabulary *)

(** ** The path matrix as the specification reads it *)

(** [PathMatrix[i, t]]: column-major, stride [numSims]. *)
Definition PathMatrix (paths : mem) (numSims i : Z) (t : nat) : Real :=
  paths (i + Z.of_nat t * numSims).

(** The stored entries of path [i], in time order, from step [t0] on. *)
Definition path_entries (paths : mem) (numSims i : Z) (t0 n : nat) : list Real :=
  map (PathMatrix paths numSims i) (seq t0 n).

(** Minimum of a list of entries (of the first entry onwards). *)
Definition list_min (l : list Real) : Real :=
  match l with
  | [] => 0%R
  | x :: l' => fold_left Rmin l' x
  end.

(** [spot * PathMatrix[i, t] > barrier] for some stored step [t]. *)
Definition breached (paths : mem) (opt : genericOption) (numSims i : Z)
    (n : nat) : bool :=
  existsb (fun x => gtb (x * spot opt)%R (barrier opt))
    (path_entries paths numSims i 0 n).

(** [max(0, +-(finalValue - strike))], sign flipped for Put. *)
Definition vanilla (opt : genericOption) (finalValue : Real) : Real :=
  match type opt with
  | Call => Rmax 0 (finalValue - strike opt)
  | Put => Rmax 0 (- (finalValue - strike opt))
  end.

(** The pointer of the scan at step [t0] of path [i]. *)
Definition cursor (numSims i : Z) (t0 : nat) : Z := i + Z.of_nat t0 * numSims.

(** [spot * PathMatrix[i, last]]; with no stored step the scans leave their
    initial value 0. *)
Definition finalValue (paths : mem) (opt : genericOption) (numSims i : Z)
    (numTimesteps : Z) : Real :=
  (last (path_entries paths numSims i 0 (Z.to_nat numTimesteps)) 0 * spot opt)%R.

(** The floor of the lookback evaluator: the running minimum starts from 1. *)
Definition lookback_floor (paths : mem) (opt : genericOption) (numSims i : Z)
    (numTimesteps : Z) : Real :=
  (spot opt *
   fold_left Rmin (path_entries paths numSims i 0 (Z.to_nat numTimesteps)) 1)%R.

(** The floor as the specification words it: the minimum over exactly the
    stored entries of the path. *)
Definition spec_floorVal (paths : mem) (opt : genericOption) (numSims i : Z)
    (numTimesteps : Z) : Real :=
  (spot opt * list_min (path_entries paths numSims i 0 (Z.to_nat numTimesteps)))%R.

(** ** Sample contracts and paths *)

(** The contract of the test driver, as a Call and as a Put. *)
Definition sample_call : genericOption :=
  mkOption 40 35 0.03 0.20 (1 / 3) (1 / 261) 45 5.162534 0 0 0 0 0 0 0 Call.

Definition sample_put : genericOption :=
  mkOption 40 35 0.03 0.20 (1 / 3) (1 / 261) 45 5.162534 0 0 0 0 0 0 0 Put.

(** A path matrix whose entries all hold the same factor. *)
Definition flat_paths (x : Real) : mem := fun _ => x.

(** Sum of the first [n] slots of an array. *)
Fixpoint slots_sum (m : mem) (n : nat) : Real :=
  match n with
  | O => 0
  | S n' => slots_sum m n' + m (Z.of_nat n')
  end.

(** ** Powers of two *)

(** [2^k] as a binary positive: a one followed by [k] zeros. *)
Fixpoint pow2_pos (k : nat) : positive :=
  match k with
  | O => xH
  | S k' => xO (pow2_pos k')
  end.

(** ** Normal variates and cumulative shocks *)

Section Shocks.

Variable curandState : Type.
Variable curand_normal : curandState -> Real * curandState.
Variable opt : genericOption.

(** The generator after [k] draws, and the variate of draw number [k]. *)
Fixpoint rng_after (st : curandState) (k : nat) : curandState :=
  match k with
  | O => st
  | S k' => rng_after (snd (curand_normal st)) k'
  end.

Definition normal_at (st : curandState) (k : nat) : Real :=
  fst (curand_normal (rng_after st k)).

(** The multiplicative shock of one time step for the variate [z], as the
    specification writes it:
    [exp((r - 0.5 sigma^2) dt + sigma sqrt(dt) z)]. *)
Definition shock (z : Real) : Real :=
  exp ((r opt - 0.5 * sigma opt ^ 2) * dt opt + sigma opt * sqrt (dt opt) * z).

(** Starting from 1, the product of the shocks of the [n] draws that follow
    draw number [k0]. *)
Fixpoint shocks_product (st : curandState) (k0 n : nat) : Real :=
  match n with
  | O => 1
  | S n' => shocks_product st k0 n' * shock (normal_at st (k0 + n'))
  end.

End Shocks.

Arguments rng_after {curandState}.
Arguments normal_at {curandState}.
Arguments shocks_product {curandState}.

(** The variates that [n] successive calls [box_muller(0, 1)] return, in
    the order of the calls, with the statics and the generator after the
    last of them. *)
Fixpoint normal_draws {randState : Type} (rand : randState -> Z * randState)
    (RAND_MAX : Z) (fuel : nat) (n : nat) (st : box_muller_state randState)
    : option (list Real * box_muller_state randState) :=
  match n with
  | O => Some ([], st)
  | S n' =>
      match box_muller rand RAND_MAX fuel 0%R 1%R st with
      | Some (rn, st) =>
          match normal_draws rand RAND_MAX fuel n' st with
          | Some (zs, st) => Some (rn :: zs, st)
          | None => None
          end
      | None => None
      end
  end.

(** The final price of a path: the spot times one shock per variate. *)
Definition final_price (opt : genericOption) (zs : list Real) : Real :=
  (spot opt * fold_left (fun p z => p * shock opt z) zs 1)%R.

(** ** Grid-stride indices *)

(** The index of iteration number [k] of the loop started at [tid], with
    the wrap-around of [i += step]. *)
Fixpoint visited (tid step : Z) (k : nat) : Z :=
  match k with
  | O => tid
  | S k' => uint (visited tid step k' + step)
  end.


(** [i, i + step, i + 2 * step, ...] below [numSims]. *)
Fixpoint stride_indices (fuel : nat) (i step numSims : Z) : list Z :=
  match fuel with
  | O => []
  | S fuel' =>
      if i <? numSims then i :: stride_indices fuel' (i + step) step numSims
      else []
  end.

(** ** Fields a pricing pass must leave alone *)

(** The contract parameters, [golden], [valuePlainVanillaCPU] and
    [valueALK] agree. *)
Definition untouched (o o' : genericOption) : Prop :=
  spot o' = spot o /\ strike o' = strike o /\ r o' = r o /\
  sigma o' = sigma o /\ tenor o' = tenor o /\ dt o' = dt o /\
  barrier o' = barrier o /\ type o' = type o /\ golden o' = golden o /\
  valuePlainVanillaCPU o' = valuePlainVanillaCPU o /\
  valueALK o' = valueALK o.

(** ** Relations kept by host computations *)

(** The host states before and after [c] are always related by [R]. *)
Definition keeps (R : host -> host -> Prop) {A : Type} (c : M A) : Prop :=
  forall h, R h (snd (c h)).

(** The same, for the runs of [c] that throw. *)
Definition throws_keeping (R : host -> host -> Prop) {A : Type} (c : M A)
    : Prop :=
  forall h msg, fst (c h) = Throw msg -> R h (snd (c h)).

(** [c] neither throws nor waits forever. *)
Definition always_returns {A : Type} (c : M A) : Prop :=
  forall h, exists a, fst (c h) = Done a.

(** The caller's option keeps the fields of [untouched]. *)
Definition same_contract (h h' : host) : Prop :=
  untouched (the_option h) (the_option h').

(** Nothing was released, and whatever was held is still held. *)
Definition holds_more (h h' : host) : Prop :=
  freed h' = freed h /\ exists held, live h' = held ++ live h.

(** ** The finishing step as the specification reads it *)

(** Sum of the partial sums, divided by the number of paths, discounted by
    [exp(-r * tenor)]. *)
Definition discounted_mean (opt : genericOption) (numSims : Z)
    (partialSums : list Real) : Real :=
  (fold_left Rplus partialSums 0 / to_real numSims
   * exp (- (r opt * tenor opt)))%R.

(** [grid.x] of the launches of a pricing pass. *)
Definition launch_grid (rt : cuda_runtime)
    (m_numSims m_device m_threadBlockSize : Z) : Z :=
  let deviceProperties := snd (cudaGetDeviceProperties rt m_device) in
  shrink_grid
    (uint (m_numSims + m_threadBlockSize - 1) / m_threadBlockSize)
    (uint (2 * 10 * uint (multiProcessorCount deviceProperties))).

(** The five device buffers, in allocation order. *)
Definition all_buffers : list buffer :=
  [d_option; d_paths; d_rngStates; d_values; d_values2].

(** ** What a valuation kernel computes, launch by launch *)

Section KernelTotals.

Variable gridDim : Z.
Variable blockDim : Z.
Variable numSims : Z.

(** The paths of thread [tid], in the order it visits them. *)
Definition thread_paths (tid : Z) : list Z :=
  stride_indices (loop_budget numSims) tid (gridDim * blockDim) numSims.

Variable payoff : Z -> Real.

(** The local sum of lane [ltid] of block [bid]. *)
Definition lane_total (bid ltid : Z) : Real :=
  fold_left (fun sumPayoffs i => (sumPayoffs + payoff i)%R)
    (thread_paths (bid * blockDim + ltid)) 0%R.

Variable shared : Z -> mem.

(** The partial sum block [bid] stores. *)
Definition block_total (bid : Z) : Real :=
  reduce_sum blockDim (map (lane_total bid) (range blockDim)) (shared bid).

End KernelTotals.

(** ** Sample runtimes, generators and launches *)

(** A Put that is in the money at the start (spot 30 below strike 35), with
    no drift and no volatility, one time step of one year. *)
Definition steady_put : genericOption :=
  mkOption 30 35 0 0 1 1 45 0 0 0 0 0 0 0 0 Put.

(** A C library generator that always returns 3, with [RAND_MAX = 4]. *)
Definition fixed_rand (s : unit) : Z * unit := (3, s).

(** A CURAND generator whose draws are all 0. *)
Definition zero_normal (n : nat) : Real * nat := (0%R, S n).

(** A runtime with four multiprocessors of compute capability 2.0 that
    accepts blocks of up to 1024 threads; allocations and copies answer as
    given. *)
Definition sample_runtime (alloc : buffer -> Z) (copy : transfer -> Z)
    : cuda_runtime :=
  mkRuntime (fun _ => (0, mkDeviceProp 2 0 4)) (fun _ => 0)
    (fun _ => (0, 1024)) alloc copy (fun _ => "unspecified failure"%string)
    false.

(** Every call succeeds. *)
Definition good_runtime : cuda_runtime :=
  sample_runtime (fun _ => 0) (fun _ => 0).

(** The copy of the option to the device fails. *)
Definition failing_copy_runtime : cuda_runtime :=
  sample_runtime (fun _ => 0)
    (fun t => match t with copy_option => 11 | _ => 0 end).

(** The option with another type tag. *)
Definition set_type (t : CallPut) (o : genericOption) : genericOption :=
  mkOption (spot o) (strike o) (r o) (sigma o) (tenor o) (dt o) (barrier o)
    (golden o) (valueAsian o) (valuePlainVanilla o) (valuePlainVanillaCPU o)
    (valueKnockout o) (valueKnockin o) (valueLookback o) (valueALK o) t.

(** The pricing pass of the samples: 4 paths, blocks of 2 threads, seed
    1234, device 0, zeroed device memory. *)
Definition sample_pass (rt : cuda_runtime) : M unit :=
  PricingEngine_call nat (fun _ _ _ => 0%nat) zero_normal rt
    (fun _ => 0%R) (fun _ => 0%nat) (fun _ => 0%R) (fun _ => 0%R)
    (fun _ _ _ => 0%R) 4 0 2 1234.

Definition sample_host : host := mkHost sample_call [] [].

(** ** Names, runtimes and contracts of further samples *)

(** The name under which [PricingEngine::operator()] reports a kernel. *)
Definition kernel_name (k : kernel) : string :=
  match k with
  | k_initRNG => "initRNG"
  | k_generatePaths => "generatePaths"
  | k_computeValueAsian => "computeValueAsian"
  | k_computeValuePlainVanilla => "computeValuePlainVanilla"
  | k_computeValueKnockoutin => "computeValueKnockoutin"
  | k_computeValueLookback => "computeValueLookback"
  end.

(** [Real = double] on the device of [sample_runtime]; every call succeeds. *)
Definition double_runtime : cuda_runtime :=
  mkRuntime (fun _ => (0, mkDeviceProp 2 0 4)) (fun _ => 0)
    (fun _ => (0, 1024)) (fun _ => 0) (fun _ => 0)
    (fun _ => "unspecified failure"%string) true.

(** A device on which [computeValueKnockoutin] accepts one thread per block
    only. *)
Definition narrow_runtime : cuda_runtime :=
  mkRuntime (fun _ => (0, mkDeviceProp 2 0 4)) (fun _ => 0)
    (fun k => (0, match k with k_computeValueKnockoutin => 1 | _ => 1024 end))
    (fun _ => 0) (fun _ => 0) (fun _ => "unspecified failure"%string) false.

(** The Call of the samples with no time left: the tenor is shorter than
    one time step. *)
Definition expired_call : genericOption :=
  mkOption 40 35 0.03 0.20 0 (1 / 261) 45 5.162534 0 0 0 0 0 0 0 Call.

(** ** The test driver *)

Section Test.

Local Open Scope host_scope.

Variable curandState : Type.
Variable curand_init : Z -> Z -> Z -> curandState.
Variable curand_normal : curandState -> Real * curandState.
Variable randState : Type.
Variable rand : randState -> Z * randState.
Variable RAND_MAX : Z.
Variable fuel : nat.
Variable rt : cuda_runtime.
Variable raw_paths : mem.
Variable raw_rngStates : Z -> curandState.
Variable raw_values : mem.
Variable raw_values2 : mem.
Variable shared : kernel -> Z -> mem.

(** The members of [Test] handed to the constructor of the engine. *)
Variable numSims : Z.
Variable device : Z.
Variable threadBlockSize : Z.
Variable seed : Z.

(** The assignments to the local [option]; a field that is not assigned
    keeps what the uninitialised object held. *)
Definition test_option (o : genericOption) : genericOption :=
  mkOption 40 35 0.03 0.20 (1 / 3) (1 / 261) 45 5.162534 0
    (valuePlainVanilla o) (valuePlainVanillaCPU o) (valueKnockout o)
    (valueKnockin o) (valueLookback o) (valueALK o) Call.

(** [pricer[option]] as a step of the host: the statics of [box_muller]
    are passed along, and a rejection loop that does not end keeps the
    caller waiting. *)
Definition serial_pricing (st : box_muller_state randState)
    : M (box_muller_state randState) :=
  fun h =>
    match PricingEngine_index rand RAND_MAX numSims fuel (the_option h) st with
    | Some (o, st') => (Done st', mkHost o (live h) (freed h))
    | None => (Hang, h)
    end.

(** [Test<Real>::operator()]; the logging is left out.  The caller's option
    of the host state is the local variable [option]. *)
Definition Test_call (st : box_muller_state randState) : M bool :=
  let '(cudaResult, deviceProperties) := cudaGetDeviceProperties rt device in
  check rt cudaResult "Could not get device properties: "%string ;;
  modify_option test_option ;;
  PricingEngine_call curandState curand_init curand_normal rt raw_paths
    raw_rngStates raw_values raw_values2 shared numSims device
    threadBlockSize seed ;;
  _ <- serial_pricing st ;;
  option <- get_option ;;
  let tolerance := 0.1%R in
  if gtb (Rabs (valueAsian option - golden option)) tolerance
  then ret false
  else ret true.

End Test.

(** * Properties *)

(** ** Inner loops *)

Section ScanLemmas.

Variable paths : mem.
Variable opt : genericOption.
Variable numSims : Z.

Lemma path_entries_S (i : Z) (t0 n : nat) :
  path_entries paths numSims i t0 (S n) =
  PathMatrix paths numSims i t0 :: path_entries paths numSims i (S t0) n.
Proof. reflexivity. Qed.

Lemma path_entries_snoc (i : Z) (t0 n : nat) :
  path_entries paths numSims i t0 (S n) =
  path_entries paths numSims i t0 n ++ [PathMatrix paths numSims i (t0 + n)].
Proof.
  unfold path_entries. rewrite seq_S, map_app. reflexivity.
Qed.

Lemma cursor_next (i : Z) (t0 : nat) :
  cursor numSims i t0 + numSims = cursor numSims i (S t0).
Proof. unfold cursor. lia. Qed.

Lemma last_cons {A : Type} (x : A) (l : list A) (d : A) :
  last (x :: l) d = last l x.
Proof.
  revert x d. induction l as [|y l IH]; intros x d.
  - reflexivity.
  - change (last (x :: y :: l) d) with (last (y :: l) d).
    rewrite (IH y d), (IH y x). reflexivity.
Qed.

Lemma final_scan_last (n : nat) (i : Z) (t0 : nat) (finval : Real) :
  final_scan paths numSims n (cursor numSims i t0) finval =
  last (path_entries paths numSims i t0 n) finval.
Proof.
  revert t0 finval. induction n as [|n IH]; intros t0 finval.
  - reflexivity.
  - cbn [final_scan]. rewrite cursor_next, IH, path_entries_S.
    rewrite last_cons. reflexivity.
Qed.

Lemma asian_scan_sum (n : nat) (i : Z) (t0 : nat) (avg : Real) :
  asian_scan paths numSims n (cursor numSims i t0) avg =
  fold_left Rplus (path_entries paths numSims i t0 n) avg.
Proof.
  revert t0 avg. induction n as [|n IH]; intros t0 avg.
  - reflexivity.
  - cbn [asian_scan]. rewrite cursor_next, IH, path_entries_S. reflexivity.
Qed.

Lemma gtb_min (a b : Real) : (if gtb a b then b else a) = Rmin a b.
Proof.
  unfold gtb, Rmin. destruct (Rgt_dec a b), (Rle_dec a b); try reflexivity; lra.
Qed.

Lemma lookback_scan_min (n : nat) (i : Z) (t0 : nat) (finval valmin : Real) :
  lookback_scan paths numSims n (cursor numSims i t0) finval valmin =
  (last (path_entries paths numSims i t0 n) finval,
   fold_left Rmin (path_entries paths numSims i t0 n) valmin).
Proof.
  revert t0 finval valmin. induction n as [|n IH]; intros t0 finval valmin.
  - reflexivity.
  - cbn [lookback_scan]. rewrite cursor_next, IH, path_entries_S, gtb_min.
    rewrite last_cons. reflexivity.
Qed.

Lemma knock_scan_breached (n : nat) (i : Z) (t0 : nat) (finval killer : Real) :
  knock_scan paths opt numSims n (cursor numSims i t0) finval killer =
  (last (path_entries paths numSims i t0 n) finval,
   if existsb (fun x => gtb (x * spot opt)%R (barrier opt))
        (path_entries paths numSims i t0 n)
   then 0%R else killer).
Proof.
  revert t0 finval killer. induction n as [|n IH]; intros t0 finval killer.
  - reflexivity.
  - cbn [knock_scan]. rewrite cursor_next, IH, path_entries_S.
    rewrite last_cons. cbn [existsb].
    unfold PathMatrix at 1 2. fold (cursor numSims i t0).
    destruct (gtb (paths (cursor numSims i t0) * spot opt)%R (barrier opt)); cbn [orb].
    + destruct (existsb _ _); reflexivity.
    + reflexivity.
Qed.

Lemma cursor_0 (i : Z) : cursor numSims i 0 = i.
Proof. unfold cursor. lia. Qed.

Lemma final_scan_entries (n : nat) (i : Z) (finval : Real) :
  final_scan paths numSims n i finval =
  last (path_entries paths numSims i 0 n) finval.
Proof. rewrite <- final_scan_last, cursor_0. reflexivity. Qed.

Lemma asian_scan_entries (n : nat) (i : Z) (avg : Real) :
  asian_scan paths numSims n i avg =
  fold_left Rplus (path_entries paths numSims i 0 n) avg.
Proof. rewrite <- asian_scan_sum, cursor_0. reflexivity. Qed.

Lemma lookback_scan_entries (n : nat) (i : Z) (finval valmin : Real) :
  lookback_scan paths numSims n i finval valmin =
  (last (path_entries paths numSims i 0 n) finval,
   fold_left Rmin (path_entries paths numSims i 0 n) valmin).
Proof. rewrite <- lookback_scan_min, cursor_0. reflexivity. Qed.

Lemma knock_scan_entries (n : nat) (i : Z) (finval killer : Real) :
  knock_scan paths opt numSims n i finval killer =
  (last (path_entries paths numSims i 0 n) finval,
   if existsb (fun x => gtb (x * spot opt)%R (barrier opt))
        (path_entries paths numSims i 0 n)
   then 0%R else killer).
Proof. rewrite <- knock_scan_breached, cursor_0. reflexivity. Qed.

Lemma fold_min_le_start (l : list Real) (a : Real) :
  (fold_left Rmin l a <= a)%R.
Proof.
  revert a. induction l as [|x l IH]; intro a; cbn [fold_left].
  - lra.
  - eapply Rle_trans; [apply IH | apply Rmin_l].
Qed.

Lemma fold_min_le_in (l : list Real) (a x : Real) :
  In x l -> (fold_left Rmin l a <= x)%R.
Proof.
  revert a. induction l as [|y l IH]; intros a Hin; cbn [fold_left].
  - destruct Hin.
  - destruct Hin as [->|Hin].
    + eapply Rle_trans; [apply fold_min_le_start | apply Rmin_r].
    + apply IH, Hin.
Qed.

Lemma fold_min_start (l : list Real) (a b : Real) :
  fold_left Rmin l (Rmin a b) = Rmin a (fold_left Rmin l b).
Proof.
  revert a b. induction l as [|x l IH]; intros a b; cbn [fold_left].
  - reflexivity.
  - rewrite <- IH. f_equal. symmetry. apply Rmin_assoc.
Qed.

End ScanLemmas.

(** ** Per-path payoffs *)

Lemma finalValue_last_entry (paths : mem) (opt : genericOption)
    (numSims i numTimesteps : Z) :
  0 < numTimesteps ->
  finalValue paths opt numSims i numTimesteps =
  (spot opt * PathMatrix paths numSims i (Z.to_nat numTimesteps - 1))%R.
Proof.
  intro Hpos. unfold finalValue.
  destruct (Z.to_nat numTimesteps) as [|n] eqn:En; [lia|].
  rewrite path_entries_snoc, last_last.
  replace (S n - 1)%nat with (0 + n)%nat by lia. apply Rmult_comm.
Qed.

Lemma plainvanilla_payoff_vanilla (paths : mem) (opt : genericOption)
    (numSims numTimesteps i : Z) :
  plainvanilla_payoff paths opt numSims numTimesteps i =
  vanilla opt (finalValue paths opt numSims i numTimesteps).
Proof.
  unfold plainvanilla_payoff, vanilla, finalValue, is_put, rmax.
  rewrite final_scan_entries.
  destruct (type opt); reflexivity.
Qed.

Lemma lookback_payoff_floor (paths : mem) (opt : genericOption)
    (numSims numTimesteps i : Z) :
  lookback_payoff paths opt numSims numTimesteps i =
  Rmax 0 (finalValue paths opt numSims i numTimesteps -
          lookback_floor paths opt numSims i numTimesteps).
Proof.
  unfold lookback_payoff, finalValue, lookback_floor, rmax.
  rewrite lookback_scan_entries.
  f_equal. ring.
Qed.

(** The knockout/knockin body zeroes the final value, not the payoff, on the
    inactive side. *)
Lemma knockoutin_payoff_conditional (paths : mem) (opt : genericOption)
    (numSims numTimesteps i : Z) :
  knockoutin_payoff paths opt numSims numTimesteps i =
  if breached paths opt numSims i (Z.to_nat numTimesteps)
  then (vanilla opt 0%R,
        vanilla opt (finalValue paths opt numSims i numTimesteps))
  else (vanilla opt (finalValue paths opt numSims i numTimesteps),
        vanilla opt 0%R).
Proof.
  unfold knockoutin_payoff, breached, finalValue, vanilla, is_put, rmax.
  rewrite knock_scan_entries.
  destruct (existsb _ _); destruct (type opt); f_equal; f_equal; ring.
Qed.

Lemma vanilla_call_zero (opt : genericOption) :
  type opt = Call -> (0 <= strike opt)%R -> vanilla opt 0%R = 0%R.
Proof.
  intros Hc Hk. unfold vanilla. rewrite Hc. apply Rmax_left. lra.
Qed.

Lemma vanilla_nonneg (opt : genericOption) (x : Real) : (0 <= vanilla opt x)%R.
Proof. unfold vanilla. destruct (type opt); apply Rmax_l. Qed.

(** For a Call with a non-negative strike the two payoffs are the gated
    Plain-Vanilla payoff. *)
Lemma knockoutin_payoff_call (paths : mem) (opt : genericOption)
    (numSims numTimesteps i : Z) :
  type opt = Call -> (0 <= strike opt)%R ->
  knockoutin_payoff paths opt numSims numTimesteps i =
  if breached paths opt numSims i (Z.to_nat numTimesteps)
  then (0%R, plainvanilla_payoff paths opt numSims numTimesteps i)
  else (plainvanilla_payoff paths opt numSims numTimesteps i, 0%R).
Proof.
  intros Hc Hk.
  rewrite knockoutin_payoff_conditional, plainvanilla_payoff_vanilla.
  rewrite (vanilla_call_zero opt Hc Hk). reflexivity.
Qed.

(** Case analysis on every comparison of reals left in the goal. *)
Ltac plain_real t :=
  lazymatch t with
  | context [Rle_dec _ _] => fail
  | context [Rgt_dec _ _] => fail
  | context [Rge_dec _ _] => fail
  | _ => idtac
  end.

Ltac split_comparison :=
  match goal with
  | |- context [Rle_dec ?a ?b] =>
      plain_real a; plain_real b; destruct (Rle_dec a b)
  | |- context [Rgt_dec ?a ?b] =>
      plain_real a; plain_real b; destruct (Rgt_dec a b)
  | |- context [Rge_dec ?a ?b] =>
      plain_real a; plain_real b; destruct (Rge_dec a b)
  | H : context [Rle_dec ?a ?b] |- _ =>
      plain_real a; plain_real b; destruct (Rle_dec a b)
  | H : context [Rgt_dec ?a ?b] |- _ =>
      plain_real a; plain_real b; destruct (Rgt_dec a b)
  end.

Ltac real_cases :=
  unfold vanilla, rmax, gtb, Rmax, Rmin in *;
  repeat split_comparison;
  cbn [existsb orb fst snd type spot strike barrier] in *;
  try lra; try discriminate; try (f_equal; lra).

Lemma flat_entries (x : Real) (numSims i : Z) (t0 n : nat) :
  path_entries (flat_paths x) numSims i t0 n = repeat x n.
Proof.
  revert t0. induction n as [|n IH]; intro t0.
  - reflexivity.
  - rewrite path_entries_S, IH. reflexivity.
Qed.

(** C1 (code at the failing input): for the Put contract, a path that
    crosses the barrier (40 * 1.2 = 48 > 45) gets the knockout payoff 35, the
    strike, where the claim promises 0; a path that never crosses it
    (40 * 1 = 40) gets the knockin payoff 35 likewise. *)
Theorem knockoutin_put_inactive_side_pays_strike :
  breached (flat_paths 1.2) sample_put 1 0 1 = true /\
  fst (knockoutin_payoff (flat_paths 1.2) sample_put 1 1 0) = 35%R /\
  breached (flat_paths 1) sample_put 1 0 1 = false /\
  snd (knockoutin_payoff (flat_paths 1) sample_put 1 1 0) = 35%R.
Proof.
  rewrite !knockoutin_payoff_conditional.
  unfold breached, finalValue. rewrite !flat_entries.
  change (Z.to_nat 1) with 1%nat. cbn [repeat existsb last].
  unfold sample_put. repeat split; real_cases.
Qed.

(** C4 (the claim fails): on a path whose entries all exceed 1 the floor of
    the code is the starting value, not the minimum of the stored entries. *)
Lemma lookback_floor_is_not_stored_minimum :
  lookback_payoff (flat_paths 2) sample_call 1 1 0 <>
  Rmax 0 (spot sample_call * PathMatrix (flat_paths 2) 1 0 0 -
          spec_floorVal (flat_paths 2) sample_call 1 0 1).
Proof.
  rewrite lookback_payoff_floor.
  unfold finalValue, lookback_floor, spec_floorVal, PathMatrix.
  rewrite !flat_entries. change (Z.to_nat 1) with 1%nat.
  cbn [repeat last fold_left list_min]. unfold sample_call, flat_paths.
  real_cases.
Qed.

(** C4 (amended): with at least one time step, the lookback payoff of path
    [i] is [max(0, finalValue - floorVal)] where
    [finalValue = spot * PathMatrix[i, last]] and
    [floorVal = spot * min(1, min_t PathMatrix[i, t])]: the running minimum
    starts from the normalised starting value 1 and then ranges over the
    stored entries [t] in [[0, numTimesteps)]. *)
Theorem lookback_payoff_floor_includes_start (paths : mem)
    (opt : genericOption) (numSims numTimesteps i : Z) :
  0 < numTimesteps ->
  lookback_payoff paths opt numSims numTimesteps i =
  Rmax 0
    (spot opt * PathMatrix paths numSims i (Z.to_nat numTimesteps - 1) -
     spot opt *
     Rmin 1 (list_min (path_entries paths numSims i 0 (Z.to_nat numTimesteps)))).
Proof.
  intro Hpos.
  rewrite lookback_payoff_floor, finalValue_last_entry by assumption.
  unfold lookback_floor.
  destruct (Z.to_nat numTimesteps) as [|n] eqn:En; [lia|].
  rewrite path_entries_S. cbn [fold_left list_min].
  rewrite fold_min_start. reflexivity.
Qed.

Lemma lookback_payoff_floor_includes_start_witness :
  lookback_payoff (flat_paths 2) sample_call 1 1 0 =
  Rmax 0
    (spot sample_call * PathMatrix (flat_paths 2) 1 0 (Z.to_nat 1 - 1) -
     spot sample_call *
     Rmin 1 (list_min (path_entries (flat_paths 2) 1 0 0 (Z.to_nat 1)))).
Proof.
  apply (lookback_payoff_floor_includes_start (flat_paths 2) sample_call 1 1 0).
  lia.
Defined.

(** C5 (the claim fails): the test driver's Call on a path ending at 1.25
    with no dip below the start has lookback payoff 50 - 40 = 10, below the
    Plain-Vanilla payoff 50 - 35 = 15 of the same final value. *)
Lemma lookback_below_plainvanilla :
  (lookback_payoff (flat_paths 1.25) sample_call 1 1 0 <
   plainvanilla_payoff (flat_paths 1.25) sample_call 1 1 0)%R.
Proof.
  rewrite lookback_payoff_floor, plainvanilla_payoff_vanilla.
  unfold finalValue, lookback_floor. rewrite !flat_entries.
  change (Z.to_nat 1) with 1%nat. cbn [repeat last fold_left].
  unfold sample_call. real_cases.
Qed.

(** C5 (amended): the lookback payoff of a path is always [>= 0]; it is
    [>=] the Plain-Vanilla payoff of the same final value for a Call whose
    strike is at least the floor [spot * min(1, min_t PathMatrix[i, t])],
    and for a Put whenever [strike - finalValue <= finalValue - floor]. *)
Theorem lookback_payoff_bounds (paths : mem) (opt : genericOption)
    (numSims numTimesteps i : Z) :
  (0 <= lookback_payoff paths opt numSims numTimesteps i)%R /\
  (type opt = Call ->
   (lookback_floor paths opt numSims i numTimesteps <= strike opt)%R ->
   (plainvanilla_payoff paths opt numSims numTimesteps i <=
    lookback_payoff paths opt numSims numTimesteps i)%R) /\
  (type opt = Put ->
   (strike opt - finalValue paths opt numSims i numTimesteps <=
    finalValue paths opt numSims i numTimesteps -
    lookback_floor paths opt numSims i numTimesteps)%R ->
   (plainvanilla_payoff paths opt numSims numTimesteps i <=
    lookback_payoff paths opt numSims numTimesteps i)%R).
Proof.
  rewrite lookback_payoff_floor, plainvanilla_payoff_vanilla.
  repeat split.
  - apply Rmax_l.
  - intros Hc Hfloor. unfold vanilla. rewrite Hc.
    apply Rle_max_compat_l. lra.
  - intros Hp Hgap. unfold vanilla. rewrite Hp.
    apply Rle_max_compat_l. lra.
Qed.

Lemma lookback_payoff_bounds_witness :
  let opt := mkOption 40 45 0.03 0.20 (1 / 3) (1 / 261) 45 0 0 0 0 0 0 0 0 Call in
  (0 <= lookback_payoff (flat_paths 1.25) opt 1 1 0)%R /\
  (plainvanilla_payoff (flat_paths 1.25) opt 1 1 0 <=
   lookback_payoff (flat_paths 1.25) opt 1 1 0)%R.
Proof.
  intro opt.
  destruct (lookback_payoff_bounds (flat_paths 1.25) opt 1 1 0)
    as [Hnonneg [Hcall _]].
  split; [exact Hnonneg|]. apply Hcall; [reflexivity|].
  unfold lookback_floor. rewrite flat_entries.
  change (Z.to_nat 1) with 1%nat. cbn [repeat fold_left]. unfold opt.
  real_cases.
Defined.

(** ** Ranges and sums over device arrays *)

Lemma range_length (n : Z) : List.length (range n) = Z.to_nat n.
Proof. unfold range. rewrite length_map, length_seq. reflexivity. Qed.

Lemma range_snoc (n : nat) :
  range (Z.of_nat (S n)) = range (Z.of_nat n) ++ [Z.of_nat n].
Proof.
  unfold range. rewrite !Nat2Z.id, seq_S, map_app. reflexivity.
Qed.

Lemma in_range (n j : Z) : In j (range n) <-> 0 <= j < n.
Proof.
  unfold range. rewrite in_map_iff. split.
  - intros [k [<- Hk]]. apply in_seq in Hk. lia.
  - intros Hj. exists (Z.to_nat j). split; [lia|]. apply in_seq. lia.
Qed.

Lemma slots_sum_ext (m m' : mem) (n : nat) :
  (forall j, 0 <= j < Z.of_nat n -> m j = m' j) ->
  slots_sum m n = slots_sum m' n.
Proof.
  induction n as [|n IH]; intro Heq.
  - reflexivity.
  - cbn [slots_sum]. rewrite IH, (Heq (Z.of_nat n)) by (intros; try apply Heq; lia).
    reflexivity.
Qed.

Lemma slots_sum_plus (m m' : mem) (n : nat) :
  slots_sum (fun j => m j + m' j)%R n = (slots_sum m n + slots_sum m' n)%R.
Proof.
  induction n as [|n IH]; cbn [slots_sum].
  - ring.
  - rewrite IH. ring.
Qed.

Lemma slots_sum_app (m : mem) (a b : nat) :
  slots_sum m (a + b) =
  (slots_sum m a + slots_sum (fun j => m (j + Z.of_nat a)%Z) b)%R.
Proof.
  induction b as [|b IH].
  - rewrite Nat.add_0_r. cbn [slots_sum]. ring.
  - rewrite Nat.add_succ_r. cbn [slots_sum]. rewrite IH.
    replace (Z.of_nat (a + b)) with (Z.of_nat b + Z.of_nat a) by lia. ring.
Qed.

Lemma fold_plus_start (l : list Real) (a : Real) :
  fold_left Rplus l a = (a + fold_left Rplus l 0)%R.
Proof.
  revert a. induction l as [|x l IH]; intro a; cbn [fold_left].
  - ring.
  - rewrite IH, (IH (0 + x)%R). ring.
Qed.

Lemma fold_plus_app (l l' : list Real) :
  fold_left Rplus (l ++ l') 0%R =
  (fold_left Rplus l 0 + fold_left Rplus l' 0)%R.
Proof. rewrite fold_left_app. apply fold_plus_start. Qed.

Lemma slots_sum_map (m : mem) (n : nat) :
  slots_sum m n = fold_left Rplus (map m (range (Z.of_nat n))) 0%R.
Proof.
  induction n as [|n IH].
  - reflexivity.
  - rewrite range_snoc, map_app, fold_plus_app, <- IH.
    cbn [slots_sum map fold_left]. ring.
Qed.

(** Case analysis on every integer comparison of the goal. *)
Ltac z_cases :=
  repeat match goal with
         | |- context [?a <=? ?b] => destruct (Z.leb_spec a b)
         | |- context [?a <? ?b] => destruct (Z.ltb_spec a b)
         | |- context [?a =? ?b] => destruct (Z.eqb_spec a b)
         end;
  cbn [andb orb negb]; try reflexivity; try lia.

(** ** Block reduction *)

Section ReduceSum.

Variable blockDim : Z.

Lemma upd_same (m : mem) (k : Z) (v : Real) : upd m k v k = v.
Proof. unfold upd. rewrite Z.eqb_refl. reflexivity. Qed.

Lemma upd_other (m : mem) (k j : Z) (v : Real) : j <> k -> upd m k v j = m j.
Proof. intro Hne. unfold upd. destruct (Z.eqb_spec j k); [contradiction|reflexivity]. Qed.

(** The lanes of one step do not interfere: lane [j < s] reads slot [j],
    which only it writes, and slot [j + s], which no lane writes. *)
Lemma reduce_lanes_slots (n : nat) (s : Z) (sdata : mem) (j : Z) :
  0 < s ->
  fold_left (reduce_lane s) (range (Z.of_nat n)) sdata j =
  if (0 <=? j) && (j <? s) && (j <? Z.of_nat n)
  then (sdata j + sdata (j + s)%Z)%R else sdata j.
Proof.
  intro Hs. revert j. induction n as [|n IH]; intro j.
  - cbn [range Z.to_nat seq map fold_left Z.of_nat]. z_cases.
  - rewrite range_snoc, fold_left_app. cbn [fold_left].
    unfold reduce_lane at 1.
    destruct (Z.ltb_spec (Z.of_nat n) s) as [Hlt|Hge].
    + destruct (Z.eq_dec j (Z.of_nat n)) as [->|Hne].
      * rewrite upd_same, !IH. z_cases.
      * rewrite upd_other, IH by assumption. z_cases.
    + rewrite IH. z_cases.
Qed.

(** Between two barriers the lanes may run in any order: for every list of
    distinct lanes the step has the same effect. *)
Lemma reduce_lanes_any_order (lanes : list Z) (s : Z) (sdata : mem) (j : Z) :
  0 < s -> NoDup lanes -> (forall l, In l lanes -> 0 <= l) ->
  fold_left (reduce_lane s) lanes sdata j =
  if in_dec Z.eq_dec j lanes
  then if j <? s then (sdata j + sdata (j + s)%Z)%R else sdata j
  else sdata j.
Proof.
  intros Hs Hnodup Hpos. revert sdata.
  induction lanes as [|l lanes IH]; intro sdata.
  - reflexivity.
  - cbn [fold_left]. apply NoDup_cons_iff in Hnodup.
    destruct Hnodup as [Hnotin Hnodup].
    assert (Hl : 0 <= l) by (apply Hpos; left; reflexivity).
    rewrite IH by (try assumption; intros l' Hl'; apply Hpos; right; exact Hl').
    unfold reduce_lane.
    destruct (in_dec Z.eq_dec j lanes) as [Hin|Hnin];
      destruct (in_dec Z.eq_dec j (l :: lanes)) as [Hin'|Hnin'];
      try (exfalso; apply Hnin'; right; exact Hin).
    + assert (Hj : 0 <= j) by (apply Hpos; right; exact Hin).
      assert (Hne : j <> l) by (intros ->; contradiction).
      destruct (Z.ltb_spec l s); [|reflexivity].
      destruct (Z.ltb_spec j s); rewrite !upd_other by lia; reflexivity.
    + destruct Hin' as [->|Hin']; [|contradiction].
      destruct (Z.ltb_spec j s); [apply upd_same|reflexivity].
    + assert (Hne : j <> l) by (intros ->; apply Hnin'; left; reflexivity).
      destruct (Z.ltb_spec l s); [apply upd_other; exact Hne|reflexivity].
Qed.

Lemma reduce_phase_slots (s : Z) (sdata : mem) (j : Z) :
  0 < s -> 0 <= blockDim ->
  reduce_phase blockDim s sdata j =
  if (0 <=? j) && (j <? s) && (j <? blockDim)
  then (sdata j + sdata (j + s)%Z)%R else sdata j.
Proof.
  intros Hs Hb. unfold reduce_phase.
  rewrite <- (Z2Nat.id blockDim) by assumption. apply reduce_lanes_slots, Hs.
Qed.

(** One step folds the upper half of the first [2 * s] slots onto the lower
    half. *)
Lemma reduce_phase_sum (s : nat) (sdata : mem) :
  (0 < s)%nat -> 2 * Z.of_nat s <= blockDim ->
  slots_sum (reduce_phase blockDim (Z.of_nat s) sdata) s =
  slots_sum sdata (s + s).
Proof.
  intros Hs Hb. rewrite slots_sum_app, <- slots_sum_plus.
  apply slots_sum_ext. intros j Hj. rewrite reduce_phase_slots by lia.
  z_cases.
Qed.

Lemma pow2_pos_nat (k : nat) : Zpos (pow2_pos k) = Z.of_nat (2 ^ k).
Proof.
  induction k as [|k IH].
  - reflexivity.
  - cbn [pow2_pos]. rewrite Pos2Z.inj_xO, IH, Nat.pow_succ_r'. lia.
Qed.

Lemma pow2_pos_Z (k : nat) : Zpos (pow2_pos k) = 2 ^ Z.of_nat k.
Proof.
  induction k as [|k IH].
  - reflexivity.
  - cbn [pow2_pos]. rewrite Pos2Z.inj_xO, IH, Nat2Z.inj_succ, Z.pow_succ_r by lia.
    reflexivity.
Qed.

(** The loop started at [s = 2^k] leaves the sum of the first [2^(k+1)]
    slots in slot 0. *)
Lemma reduce_steps_pow2 (k : nat) (sdata : mem) :
  2 * Zpos (pow2_pos k) <= blockDim ->
  reduce_steps blockDim (pow2_pos k) sdata 0 = slots_sum sdata (2 ^ S k).
Proof.
  revert sdata. induction k as [|k IH]; intros sdata Hb.
  - cbn [reduce_steps pow2_pos].
    change 1 with (Z.of_nat 1). change (2 ^ 1)%nat with (1 + 1)%nat.
    rewrite <- reduce_phase_sum by (cbn in *; lia).
    cbn [slots_sum Z.of_nat]. ring.
  - assert (Hb' : 2 * Zpos (pow2_pos k) <= blockDim)
      by (cbn [pow2_pos] in Hb; lia).
    cbn [reduce_steps pow2_pos]. rewrite IH by exact Hb'.
    change (Z.pos (pow2_pos k)~0) with (Zpos (pow2_pos (S k))).
    rewrite pow2_pos_nat. rewrite reduce_phase_sum.
    + f_equal. rewrite (Nat.pow_succ_r' 2 (S k)). lia.
    + apply Nat.neq_0_lt_0, Nat.pow_nonzero. discriminate.
    + rewrite <- pow2_pos_nat. exact Hb.
Qed.

(** The first phase of [reduce_sum]: every lane stores its argument. *)
Lemma store_inputs_slots (ins : list Real) (t0 n : nat) (sdata : mem) (j : Z) :
  (List.length ins <= n)%nat ->
  fold_left (fun sd '(ltid, x) => upd sd ltid x)
    (combine (map Z.of_nat (seq t0 n)) ins) sdata j =
  if (Z.of_nat t0 <=? j) && (j <? Z.of_nat (t0 + List.length ins))
  then nth (Z.to_nat j - t0) ins 0%R else sdata j.
Proof.
  revert t0 n sdata. induction ins as [|x ins IH]; intros t0 n sdata Hlen.
  - destruct n; cbn [seq map combine fold_left List.length]; z_cases.
  - destruct n as [|n]; [cbn in Hlen; lia|].
    cbn [seq map combine fold_left List.length].
    rewrite IH by (cbn in Hlen; lia).
    destruct (Z.eq_dec j (Z.of_nat t0)) as [->|Hne].
    + rewrite upd_same, Nat2Z.id, Nat.sub_diag. z_cases.
    + rewrite upd_other by assumption.
      destruct (Z.leb_spec (Z.of_nat (S t0)) j);
        destruct (Z.ltb_spec j (Z.of_nat (S t0 + List.length ins)));
        cbn [andb]; z_cases.
      replace (Z.to_nat j - t0)%nat with (S (Z.to_nat j - S t0)) by lia.
      reflexivity.
Qed.

Lemma slots_sum_list (l : list Real) (m : mem) :
  (forall j, (j < List.length l)%nat -> m (Z.of_nat j) = nth j l 0%R) ->
  slots_sum m (List.length l) = fold_left Rplus l 0%R.
Proof.
  induction l as [|x l IH] using rev_ind; intro Hm.
  - reflexivity.
  - rewrite length_app, Nat.add_1_r, fold_plus_app. cbn [slots_sum List.length fold_left].
    rewrite IH, Hm, nth_middle.
    + ring.
    + rewrite length_app. cbn. lia.
    + intros j Hj. rewrite Hm, app_nth1 by (rewrite ?length_app; cbn; lia).
      reflexivity.
Qed.

(** *** Linearity, for any block size *)

Lemma reduce_phase_add (s : Z) (a b c : mem) :
  0 < s -> 2 * s <= blockDim ->
  (forall j, 0 <= j < blockDim -> (a j + b j)%R = c j) ->
  forall j, 0 <= j < blockDim ->
    (reduce_phase blockDim s a j + reduce_phase blockDim s b j)%R =
    reduce_phase blockDim s c j.
Proof.
  intros Hs Hfit Habc j Hj. rewrite !reduce_phase_slots by lia.
  destruct (Z.leb_spec 0 j); destruct (Z.ltb_spec j s);
    destruct (Z.ltb_spec j blockDim); cbn [andb]; try lia.
  - rewrite <- (Habc j), <- (Habc (j + s)) by lia. ring.
  - apply Habc, Hj.
Qed.

Lemma reduce_steps_add (p : positive) (a b c : mem) :
  2 * Zpos p <= blockDim ->
  (forall j, 0 <= j < blockDim -> (a j + b j)%R = c j) ->
  forall j, 0 <= j < blockDim ->
    (reduce_steps blockDim p a j + reduce_steps blockDim p b j)%R =
    reduce_steps blockDim p c j.
Proof.
  revert a b c.
  induction p as [p IH|p IH|]; intros a b c Hfit Habc; cbn [reduce_steps].
  - apply IH; [lia|]. apply reduce_phase_add; [lia|lia|exact Habc].
  - apply IH; [lia|]. apply reduce_phase_add; [lia|lia|exact Habc].
  - apply reduce_phase_add; [lia|lia|exact Habc].
Qed.

Lemma nth_range (n j : nat) (d : Z) :
  (j < n)%nat -> nth j (range (Z.of_nat n)) d = Z.of_nat j.
Proof.
  intro Hj. unfold range. rewrite Nat2Z.id.
  rewrite (nth_indep _ d (Z.of_nat 0)) by (rewrite length_map, length_seq; lia).
  rewrite map_nth, seq_nth by lia. reflexivity.
Qed.

(** The shared buffer after every lane stored the value [f ltid]. *)
Lemma stored_lane_values (f : Z -> Real) (sdata : mem) (j : Z) :
  0 <= j < blockDim ->
  fold_left (fun sd '(ltid, x) => upd sd ltid x)
    (combine (range blockDim) (map f (range blockDim))) sdata j = f j.
Proof.
  intro Hj. unfold range at 1.
  rewrite store_inputs_slots by (rewrite length_map, range_length; lia).
  rewrite length_map, range_length, Nat.sub_0_r.
  destruct (Z.leb_spec (Z.of_nat 0) j);
    destruct (Z.ltb_spec j (Z.of_nat (0 + Z.to_nat blockDim)));
    cbn [andb]; try lia.
  rewrite (nth_indep _ 0%R (f 0)) by (rewrite length_map, range_length; lia).
  rewrite map_nth. rewrite <- (Z2Nat.id blockDim) by lia.
  rewrite nth_range by lia. f_equal. lia.
Qed.

Lemma reduce_sum_add (f g h : Z -> Real) (sd1 sd2 sd3 : mem) :
  0 < blockDim ->
  (forall j, 0 <= j < blockDim -> (f j + g j)%R = h j) ->
  (reduce_sum blockDim (map f (range blockDim)) sd1
   + reduce_sum blockDim (map g (range blockDim)) sd2)%R =
  reduce_sum blockDim (map h (range blockDim)) sd3.
Proof.
  intros Hblock Hfgh. unfold reduce_sum, reduce_shared.
  assert (Hstored : forall j, 0 <= j < blockDim ->
            (fold_left (fun sd '(ltid, x) => upd sd ltid x)
               (combine (range blockDim) (map f (range blockDim))) sd1 j
             + fold_left (fun sd '(ltid, x) => upd sd ltid x)
                 (combine (range blockDim) (map g (range blockDim))) sd2 j)%R
            = fold_left (fun sd '(ltid, x) => upd sd ltid x)
                (combine (range blockDim) (map h (range blockDim))) sd3 j).
  { intros j Hj. rewrite !stored_lane_values by assumption. apply Hfgh, Hj. }
  pose proof (Z.mul_div_le blockDim 2 ltac:(lia)) as Hhalf.
  destruct (blockDim / 2) as [|p|p] eqn:Ehalf; cbn [reduce_loop].
  - apply Hstored. lia.
  - apply reduce_steps_add; [lia|exact Hstored|lia].
  - apply Hstored. lia.
Qed.

End ReduceSum.

(** A block of [2^k] lanes: slot 0 ends up holding the left fold of the
    lanes' arguments. *)
Lemma reduce_sum_pow2 (k : nat) (ins : list Real) (sdata : mem) :
  List.length ins = Z.to_nat (2 ^ Z.of_nat k) ->
  reduce_sum (2 ^ Z.of_nat k) ins sdata = fold_left Rplus ins 0%R.
Proof.
  intro Hlen. unfold reduce_sum, reduce_shared.
  set (stored := fold_left _ _ sdata).
  assert (Hstored : forall j, (j < List.length ins)%nat ->
                      stored (Z.of_nat j) = nth j ins 0%R).
  { intros j Hj. unfold stored, range. rewrite store_inputs_slots by lia.
    rewrite Nat2Z.id, Nat.sub_0_r. z_cases. }
  destruct k as [|k].
  - change (2 ^ Z.of_nat 0 / 2) with 0. cbn [reduce_loop].
    change (2 ^ Z.of_nat 0) with 1 in Hlen.
    rewrite <- (slots_sum_list ins stored Hstored), Hlen.
    change (Z.to_nat 1) with 1%nat. cbn [slots_sum Z.of_nat]. ring.
  - replace (2 ^ Z.of_nat (S k) / 2) with (Zpos (pow2_pos k)).
    + cbn [reduce_loop]. rewrite reduce_steps_pow2.
      * rewrite <- (slots_sum_list ins stored Hstored), Hlen.
        f_equal. rewrite <- pow2_pos_Z, pow2_pos_nat. lia.
      * rewrite <- pow2_pos_Z. cbn [pow2_pos]. lia.
    + rewrite <- pow2_pos_Z. cbn [pow2_pos]. rewrite Pos2Z.inj_xO.
      rewrite Z.mul_comm, Z.div_mul by lia. reflexivity.
Qed.

(** C9: with a group size that is a power of two, the binary-tree reduction
    leaves in slot 0 the sum of all the group's inputs, equal to their
    sequential left fold; and however a vector is cut into groups of such a
    size, the groups' results add up to the sequential fold of the whole
    vector. *)
Theorem reduce_sum_is_sequential_fold (k : nat) :
  (forall (ins : list Real) (sdata : mem),
     List.length ins = Z.to_nat (2 ^ Z.of_nat k) ->
     reduce_sum (2 ^ Z.of_nat k) ins sdata = fold_left Rplus ins 0%R) /\
  (forall (groups : list (list Real)) (sdata : mem),
     Forall (fun g => List.length g = Z.to_nat (2 ^ Z.of_nat k)) groups ->
     fold_left Rplus
       (map (fun g => reduce_sum (2 ^ Z.of_nat k) g sdata) groups) 0%R =
     fold_left Rplus (concat groups) 0%R).
Proof.
  split.
  - intros ins sdata Hlen. apply reduce_sum_pow2, Hlen.
  - intros groups sdata Hall. induction Hall as [|g groups Hg _ IH].
    + reflexivity.
    + cbn [map concat fold_left].
      rewrite fold_plus_start, fold_plus_app, IH, reduce_sum_pow2 by exact Hg.
      ring.
Qed.

Lemma reduce_sum_is_sequential_fold_witness :
  reduce_sum (2 ^ Z.of_nat 2) [1; 2; 3; 4]%R (fun _ => 7%R) =
  fold_left Rplus [1; 2; 3; 4]%R 0%R.
Proof.
  apply (proj1 (reduce_sum_is_sequential_fold 2)). reflexivity.
Defined.


(** ** Grid-stride loops *)

Lemma uint_small (x : Z) : 0 <= x < 2 ^ 32 -> uint x = x.
Proof. intro Hx. apply Z.mod_small, Hx. Qed.

(** Without wrap-around the loop terminates within its budget and visits
    [i, i + step, ...] in order. *)
Lemma grid_stride_fold {A : Type} (fuel : nat) (i step numSims : Z)
    (body : Z -> A -> A) (acc : A) :
  0 <= i -> 0 < step -> numSims + step <= 2 ^ 32 ->
  (Z.to_nat (numSims - i) < fuel)%nat ->
  grid_stride fuel i step numSims body acc =
  Some (fold_left (fun acc i => body i acc)
          (stride_indices fuel i step numSims) acc).
Proof.
  intros Hi Hstep Hwrap. revert i acc Hi.
  induction fuel as [|fuel IH]; intros i acc Hi Hfuel.
  - lia.
  - cbn [grid_stride stride_indices].
    destruct (Z.ltb_spec i numSims) as [Hlt|Hge].
    + rewrite uint_small by lia. rewrite IH by lia. reflexivity.
    + reflexivity.
Qed.

Lemma stride_indices_spec (fuel : nat) (i step numSims : Z) (j : Z) :
  0 < step -> (Z.to_nat (numSims - i) < fuel)%nat ->
  In j (stride_indices fuel i step numSims) <->
  (i <= j < numSims /\ exists m : nat, j = i + Z.of_nat m * step).
Proof.
  intros Hstep. revert i. induction fuel as [|fuel IH]; intros i Hfuel.
  - lia.
  - cbn [stride_indices]. destruct (Z.ltb_spec i numSims) as [Hlt|Hge].
    + cbn [In]. rewrite IH by lia. split.
      * intros [<-|[Hj [m ->]]].
        -- split; [lia|]. exists 0%nat. lia.
        -- split; [lia|]. exists (S m). lia.
      * intros [Hj [m ->]]. destruct m as [|m].
        -- left. lia.
        -- right. split; [nia|]. exists m. lia.
    + cbn [In]. split; [tauto|]. intros [Hj _]. lia.
Qed.

(** ** Launch geometry without wrap-around *)

Lemma stride_no_wrap (gridDim blockDim : Z) :
  0 <= gridDim * blockDim < 2 ^ 32 ->
  stride gridDim blockDim = gridDim * blockDim.
Proof. intro H. unfold stride. apply uint_small, H. Qed.

Lemma global_tid_no_wrap (gridDim blockDim bid ltid : Z) :
  gridDim * blockDim < 2 ^ 32 ->
  0 <= bid < gridDim -> 0 <= ltid < blockDim ->
  global_tid blockDim bid ltid = bid * blockDim + ltid.
Proof.
  intros Hwrap Hbid Hltid. unfold global_tid.
  rewrite (uint_small (bid * blockDim)) by nia. apply uint_small. nia.
Qed.

Lemma in_threads (gridDim blockDim tid : Z) :
  0 < blockDim -> gridDim * blockDim < 2 ^ 32 ->
  In tid (threads gridDim blockDim) <-> 0 <= tid < gridDim * blockDim.
Proof.
  intros Hblock Hwrap. unfold threads. rewrite in_flat_map. split.
  - intros [bid [Hbid Htid]]. apply in_range in Hbid.
    apply in_map_iff in Htid. destruct Htid as [ltid [<- Hltid]].
    apply in_range in Hltid.
    rewrite (global_tid_no_wrap gridDim) by assumption. nia.
  - intro Htid. exists (tid / blockDim).
    assert (Hdiv : 0 <= tid / blockDim < gridDim).
    { split; [apply Z.div_pos; lia|]. apply Z.div_lt_upper_bound; lia. }
    split; [apply in_range, Hdiv|].
    apply in_map_iff. exists (tid mod blockDim).
    pose proof (Z.mod_pos_bound tid blockDim Hblock) as Hmod.
    split; [|apply in_range, Hmod].
    rewrite (global_tid_no_wrap gridDim) by assumption.
    rewrite (Z.div_mod tid blockDim) at 3 by lia. lia.
Qed.

(** *** The iteration budget is exact *)

Section Budget.

Variable step : Z.
Variable numSims : Z.

Lemma visited_shift (tid : Z) (k : nat) :
  visited (uint (tid + step)) step k = visited tid step (S k).
Proof.
  induction k as [|k IH]; [reflexivity|].
  cbn [visited] in *. rewrite IH. reflexivity.
Qed.

Lemma visited_nonneg (tid : Z) (k : nat) : 0 <= tid -> 0 <= visited tid step k.
Proof.
  intro Htid. destruct k as [|k]; cbn [visited]; [exact Htid|].
  unfold uint. apply Z.mod_pos_bound. lia.
Qed.

(** The loop runs out of budget exactly when all the indices it would
    visit within the budget are below [numSims]. *)
Lemma grid_stride_None {A : Type} (body : Z -> A -> A) (fuel : nat) (i : Z)
    (acc : A) :
  grid_stride fuel i step numSims body acc = None <->
  (forall k, (k < fuel)%nat -> visited i step k < numSims).
Proof.
  revert i acc. induction fuel as [|fuel IH]; intros i acc.
  - split; [intros _ k Hk; lia|reflexivity].
  - cbn [grid_stride]. destruct (Z.ltb_spec i numSims) as [Hlt|Hge].
    + rewrite IH. split.
      * intros Hall k Hk. destruct k as [|k]; [exact Hlt|].
        rewrite <- visited_shift. apply Hall. lia.
      * intros Hall k Hk. rewrite visited_shift. apply Hall. lia.
    + split; [discriminate|]. intro Hall.
      specialize (Hall 0%nat ltac:(lia)). cbn [visited] in Hall. lia.
Qed.

Lemma repeat_or_distinct (f : nat -> Z) (m : nat) :
  (exists a b, (a < b < m)%nat /\ f a = f b) \/
  (forall a b, (a < b < m)%nat -> f a <> f b).
Proof.
  induction m as [|m [[a [b [Hab Heq]]]|Hdistinct]].
  - right. intros a b Hab. lia.
  - left. exists a, b. split; [lia|exact Heq].
  - destruct (in_dec Z.eq_dec (f m) (map f (seq 0 m))) as [Hin|Hnin].
    + left. apply in_map_iff in Hin. destruct Hin as [a [Heq Ha]].
      apply in_seq in Ha. exists a, m. split; [lia|exact Heq].
    + right. intros a b Hab. destruct (Nat.eq_dec b m) as [->|Hne].
      * intro Heq. apply Hnin. rewrite <- Heq. apply in_map, in_seq. lia.
      * apply Hdistinct. lia.
Qed.

Lemma distinct_NoDup (f : nat -> Z) (m : nat) :
  (forall a b, (a < b < m)%nat -> f a <> f b) -> NoDup (map f (seq 0 m)).
Proof.
  induction m as [|m IH]; intro Hdistinct; [constructor|].
  rewrite seq_S, map_app. apply NoDup_app.
  - apply IH. intros a b Hab. apply Hdistinct. lia.
  - cbn [map]. constructor; [intros []|constructor].
  - intros x Hx [<-|[]]. apply in_map_iff in Hx.
    destruct Hx as [a [Heq Ha]]. apply in_seq in Ha.
    apply (Hdistinct a m); [lia|exact Heq].
Qed.

(** [n + 1] values below [n] cannot be distinct. *)
Lemma pigeonhole (f : nat -> Z) (n : nat) :
  (forall k, (k <= n)%nat -> 0 <= f k < Z.of_nat n) ->
  exists a b, (a < b <= n)%nat /\ f a = f b.
Proof.
  intro Hrange.
  destruct (repeat_or_distinct f (S n)) as [[a [b [Hab Heq]]]|Hdistinct].
  - exists a, b. split; [lia|exact Heq].
  - exfalso. apply distinct_NoDup in Hdistinct.
    assert (Hincl : incl (map f (seq 0 (S n))) (range (Z.of_nat n))).
    { intros x Hx. apply in_map_iff in Hx. destruct Hx as [k [<- Hk]].
      apply in_seq in Hk. apply in_range, Hrange. lia. }
    pose proof (NoDup_incl_length Hdistinct Hincl) as Hlen.
    rewrite length_map, length_seq, range_length, Nat2Z.id in Hlen. lia.
Qed.

Lemma visited_periodic (tid : Z) (a b m : nat) :
  visited tid step a = visited tid step b ->
  visited tid step (a + m) = visited tid step (b + m).
Proof.
  intro Heq. induction m as [|m IH].
  - rewrite !Nat.add_0_r. exact Heq.
  - rewrite !Nat.add_succ_r. cbn [visited]. rewrite IH. reflexivity.
Qed.

(** A loop that has not finished within [loop_budget numSims] iterations
    has come back to an index it already visited: it never finishes. *)
Lemma budget_exact {A : Type} (body : Z -> A -> A) (tid : Z) (acc : A) :
  0 <= tid ->
  grid_stride (loop_budget numSims) tid step numSims body acc = None ->
  forall fuel, grid_stride fuel tid step numSims body acc = None.
Proof.
  intros Htid Hnone fuel. apply grid_stride_None.
  rewrite grid_stride_None in Hnone. unfold loop_budget in Hnone.
  destruct (pigeonhole (visited tid step) (Z.to_nat numSims))
    as [a [b [Hab Heq]]].
  { intros k Hk. pose proof (visited_nonneg tid k Htid).
    specialize (Hnone k ltac:(lia)). lia. }
  assert (Hall : forall k, visited tid step k < numSims).
  { intro k. induction k as [k IH] using lt_wf_ind.
    destruct (Nat.le_gt_cases k (Z.to_nat numSims)) as [Hsmall|Hbig].
    - apply Hnone. lia.
    - replace k with (b + (k - b))%nat by lia.
      rewrite <- (visited_periodic tid a b (k - b) Heq).
      apply IH. lia. }
  intros k _. apply Hall.
Qed.

End Budget.

(** The list a lane builds while looping is the arithmetic progression. *)
Lemma lane_paths_no_wrap (fuel : nat) (tid step numSims : Z) :
  0 <= tid -> 0 < step -> numSims + step <= 2 ^ 32 ->
  (Z.to_nat (numSims - tid) < fuel)%nat ->
  lane_paths fuel tid step numSims =
  Some (stride_indices fuel tid step numSims).
Proof.
  intros Htid Hstep Hwrap Hfuel. unfold lane_paths.
  rewrite grid_stride_fold by assumption. f_equal.
  assert (Hsnoc : forall (l done : list Z),
            fold_left (fun acc i => acc ++ [i]) l done = done ++ l).
  { induction l as [|i l IH]; intro done; cbn [fold_left].
    - rewrite app_nil_r. reflexivity.
    - rewrite IH, <- app_assoc. reflexivity. }
  apply (Hsnoc _ []).
Qed.

(** ** Seeding *)

(** X3: after [initRNG], as long as the thread count does not wrap, the
    generator of every thread [tid] of the launch is the one seeded by
    [curand_init(seed, tid, 0)]: one seed for all, the thread index as the
    sequence number, offset 0; the states beyond the last thread are left
    as they were. *)
Lemma initRNG_seeds (curandState : Type)
    (curand_init : Z -> Z -> Z -> curandState) (gridDim blockDim seed : Z)
    (rngStates : Z -> curandState) (tid : Z) :
  0 < blockDim -> gridDim * blockDim < 2 ^ 32 ->
  initRNG curand_init gridDim blockDim seed rngStates tid =
  if (0 <=? tid) && (tid <? gridDim * blockDim)
  then curand_init seed tid 0 else rngStates tid.
Proof.
  intros Hblock Hwrap. unfold initRNG.
  assert (Hfold : forall (l : list Z) (states : Z -> curandState),
            fold_left
              (fun states t j =>
                 if j =? t then curand_init seed t 0 else states j)
              l states tid =
            if in_dec Z.eq_dec tid l then curand_init seed tid 0
            else states tid).
  { induction l as [|t l IH]; intro states; [reflexivity|].
    cbn [fold_left]. rewrite IH.
    destruct (in_dec Z.eq_dec tid l) as [Hl|Hl];
      destruct (in_dec Z.eq_dec tid (t :: l)) as [Hl'|Hl'];
      try reflexivity.
    - exfalso. apply Hl'. right. exact Hl.
    - destruct Hl' as [->|Hl']; [|contradiction].
      rewrite Z.eqb_refl. reflexivity.
    - destruct (Z.eqb_spec tid t) as [->|_]; [|reflexivity].
      exfalso. apply Hl'. left. reflexivity. }
  rewrite Hfold.
  pose proof (in_threads gridDim blockDim tid Hblock Hwrap) as Hin.
  destruct (in_dec Z.eq_dec tid (threads gridDim blockDim)) as [Ht|Ht];
    destruct (Z.leb_spec 0 tid);
    destruct (Z.ltb_spec tid (gridDim * blockDim));
    cbn [andb]; try reflexivity; exfalso; try (apply Ht, Hin; lia);
    apply Hin in Ht; lia.
Qed.

(** ** Path generation *)

(** The factor [getPathStep] computes from the kernel's [drift] and
    [diffusion] is the shock of the specification. *)
Lemma shock_code (opt : genericOption) (z : Real) :
  exp (drift opt + diffusion opt * z) = shock opt z.
Proof. unfold shock, drift, diffusion. f_equal. ring. Qed.

Section GeneratePathsProof.

Variable curandState : Type.
Variable curand_normal : curandState -> Real * curandState.
Variable opt : genericOption.
Variable numSims : Z.
Hypothesis numSims_pos : 0 < numSims.

Local Abbreviation after := (rng_after curand_normal).
Local Abbreviation product := (shocks_product curand_normal opt).

Lemma rng_after_plus (st : curandState) (a b : nat) :
  after (after st a) b = after st (a + b).
Proof.
  revert st. induction a as [|a IH]; intro st.
  - reflexivity.
  - cbn [rng_after Nat.add]. apply IH.
Qed.

Lemma shocks_product_after (st : curandState) (k n : nat) :
  product (after st k) 0 n = product st k n.
Proof.
  induction n as [|n IH].
  - reflexivity.
  - cbn [shocks_product]. rewrite IH. unfold normal_at.
    rewrite rng_after_plus, Nat.add_0_l. reflexivity.
Qed.

Lemma shocks_product_first (st : curandState) (n : nat) :
  product st 0 (S n) =
  (shock opt (fst (curand_normal st)) * product (snd (curand_normal st)) 0 n)%R.
Proof.
  induction n as [|n IH].
  - cbn [shocks_product]. unfold normal_at. cbn [rng_after Nat.add]. ring.
  - change (product st 0 (S (S n)))
      with (product st 0 (S n) * shock opt (normal_at curand_normal st (0 + S n)))%R.
    rewrite IH. cbn [shocks_product]. unfold normal_at.
    cbn [rng_after Nat.add]. ring.
Qed.

(** Distinct (path, step) pairs live at distinct offsets. *)
Lemma cursor_inj (i i' : Z) (u u' : nat) :
  0 <= i < numSims -> 0 <= i' < numSims ->
  cursor numSims i u = cursor numSims i' u' -> i = i' /\ u = u'.
Proof.
  unfold cursor. intros Hi Hi' Heq.
  assert (Hu : Z.of_nat u = Z.of_nat u') by nia.
  split; [nia|lia].
Qed.

(** One simulated path: the generator advances by one draw per step, the
    running product is stored at every step, nothing else is written. *)
Lemma simulate_path_spec (n : nat) (i : Z) (t0 : nat) (s : Real)
    (st : curandState) (paths : mem) :
  0 <= i < numSims ->
  snd (simulate_path curand_normal opt numSims n (cursor numSims i t0) s st paths)
    = after st n /\
  (forall u, (u < n)%nat ->
     fst (simulate_path curand_normal opt numSims n (cursor numSims i t0) s st paths)
       (cursor numSims i (t0 + u)) = (s * product st 0 (S u))%R) /\
  (forall a, (forall u, (u < n)%nat -> a <> cursor numSims i (t0 + u)) ->
     fst (simulate_path curand_normal opt numSims n (cursor numSims i t0) s st paths) a
       = paths a).
Proof.
  intro Hi. revert t0 s st paths.
  induction n as [|n IH]; intros t0 s st paths.
  - cbn [simulate_path fst snd rng_after]. repeat split; intros; first [lia|reflexivity].
  - cbn [simulate_path]. unfold getPathStep.
    destruct (curand_normal st) as [z st1] eqn:Ez.
    rewrite cursor_next.
    destruct (IH (S t0) (s * exp (drift opt + diffusion opt * z))%R st1
                (upd paths (cursor numSims i t0)
                   (s * exp (drift opt + diffusion opt * z))%R))
      as [Hst [Hval Hframe]].
    repeat split.
    + rewrite Hst. cbn [rng_after]. rewrite Ez. reflexivity.
    + intros u Hu. destruct u as [|u].
      * rewrite Nat.add_0_r, Hframe.
        -- rewrite upd_same, shock_code. cbn [shocks_product]. unfold normal_at.
           cbn [rng_after Nat.add]. rewrite Ez. cbn [fst]. ring.
        -- intros u' _ Heq. apply cursor_inj in Heq; [lia|assumption|assumption].
      * replace (t0 + S u)%nat with (S t0 + u)%nat by lia.
        rewrite Hval by lia. rewrite (shocks_product_first st (S u)).
        rewrite Ez. cbn [fst snd]. rewrite shock_code. ring.
    + intros a Ha. rewrite Hframe.
      * apply upd_other. specialize (Ha 0%nat). rewrite Nat.add_0_r in Ha.
        apply Ha. lia.
      * intros u Hu. replace (S t0 + u)%nat with (t0 + S u)%nat by lia.
        apply Ha. lia.
Qed.

Variable numTimesteps : Z.

Local Abbreviation body := (generatePaths_body curand_normal opt numSims numTimesteps).
Local Abbreviation nT := (Z.to_nat numTimesteps).

(** The paths of one lane, from its [m]-th path on: path number [m'] of the
    lane consumes draws [m' * numTimesteps, (m' + 1) * numTimesteps) of the
    lane's generator. *)
Lemma lane_paths_spec (tid step : Z) (st0 : curandState) (fuel : nat) :
  0 <= tid -> 0 < step ->
  forall (m : nat) (paths : mem),
    (Z.to_nat (numSims - (tid + Z.of_nat m * step)) < fuel)%nat ->
    let res :=
      fold_left (fun acc i => body i acc)
        (stride_indices fuel (tid + Z.of_nat m * step) step numSims)
        (paths, after st0 (m * nT)) in
    (forall (m' u : nat),
       (m <= m')%nat -> tid + Z.of_nat m' * step < numSims -> (u < nT)%nat ->
       fst res (cursor numSims (tid + Z.of_nat m' * step) u) =
       product st0 (m' * nT) (S u)) /\
    (forall a,
       (forall (m' u : nat),
          (m <= m')%nat -> tid + Z.of_nat m' * step < numSims -> (u < nT)%nat ->
          a <> cursor numSims (tid + Z.of_nat m' * step) u) ->
       fst res a = paths a).
Proof.
  intros Htid Hstep. induction fuel as [|fuel IH]; intros m paths Hfuel res.
  - lia.
  - subst res. cbn [stride_indices].
    destruct (Z.ltb_spec (tid + Z.of_nat m * step) numSims) as [Hlt|Hge].
    + cbn [fold_left].
      set (i := tid + Z.of_nat m * step) in *.
      change (body i (paths, after st0 (m * nT)))
        with (simulate_path curand_normal opt numSims nT i 1
                (after st0 (m * nT)) paths).
      assert (Hi : 0 <= i < numSims) by (subst i; nia).
      destruct (simulate_path_spec nT i 0 1%R (after st0 (m * nT)) paths Hi)
        as [Hst [Hval Hframe]].
      rewrite cursor_0 in Hst, Hval, Hframe.
      destruct (simulate_path curand_normal opt numSims nT i 1 _ paths)
        as [paths1 st1].
      cbn [fst snd] in Hst, Hval, Hframe.
      rewrite rng_after_plus in Hst.
      replace (m * nT + nT)%nat with (S m * nT)%nat in Hst by lia.
      subst st1.
      replace (i + step) with (tid + Z.of_nat (S m) * step) by (subst i; lia).
      destruct (IH (S m) paths1) as [IHval IHframe]; [lia|].
      split.
      * intros m' u Hm Hm' Hu.
        destruct (Nat.eq_dec m' m) as [->|Hne].
        -- rewrite IHframe.
           ++ fold i. pose proof (Hval u Hu) as Hv. cbn [Nat.add] in Hv.
              rewrite Hv, shocks_product_after. ring.
           ++ intros m'' u'' Hm'' Hlt'' _ Heq. fold i in Heq.
              apply cursor_inj in Heq; [nia| exact Hi | nia].
        -- apply IHval; [lia|assumption|assumption].
      * intros a Ha. rewrite IHframe.
        -- apply Hframe. intros u Hu. apply (Ha m u); [lia|exact Hlt|exact Hu].
        -- intros m' u Hm Hm' Hu. apply Ha; [lia|assumption|assumption].
    + cbn [fold_left fst]. split.
      * intros m' u Hm Hm' Hu. nia.
      * reflexivity.
Qed.

Variable gridDim : Z.
Variable blockDim : Z.
Hypothesis gridDim_pos : 0 < gridDim.
Hypothesis blockDim_pos : 0 < blockDim.
Hypothesis no_wrap : numSims + gridDim * blockDim <= 2 ^ 32.

Local Abbreviation step := (gridDim * blockDim).

(** One thread writes the paths of its own lane and no other path. *)
Lemma generatePaths_thread_spec (rngStates : Z -> curandState) (paths : mem)
    (tid : Z) :
  0 <= tid < step ->
  exists paths1,
    generatePaths_thread curand_normal gridDim blockDim opt numSims
      numTimesteps rngStates paths tid = Some paths1 /\
    forall (i : Z) (u : nat),
      0 <= i < numSims ->
      paths1 (cursor numSims i u) =
      if i mod step =? tid
      then if (u <? nT)%nat
           then product (rngStates tid) (Z.to_nat (i / step) * nT) (S u)
           else paths (cursor numSims i u)
      else paths (cursor numSims i u).
Proof.
  intro Htid. unfold generatePaths_thread.
  assert (Hstep : 0 < step) by nia.
  rewrite stride_no_wrap by nia.
  rewrite grid_stride_fold by (unfold loop_budget; lia).
  pose proof (lane_paths_spec tid step (rngStates tid)
                (loop_budget numSims) (proj1 Htid) Hstep 0 paths) as Hlane.
  cbn zeta in Hlane. change (Z.of_nat 0 * step) with 0 in Hlane.
  rewrite Z.add_0_r in Hlane. cbn [Nat.mul rng_after] in Hlane.
  destruct Hlane as [Hval Hframe]; [unfold loop_budget; lia|].
  destruct (fold_left _ _ (paths, rngStates tid)) as [paths1 st1].
  cbn [fst] in Hval, Hframe.
  exists paths1. split; [reflexivity|]. intros i u Hi.
  pose proof (Z.div_mod i step ltac:(lia)) as Hdm.
  pose proof (Z.mod_pos_bound i step Hstep) as Hmod.
  assert (Hq : 0 <= i / step) by (apply Z.div_pos; lia).
  destruct (Z.eqb_spec (i mod step) tid) as [Heq|Hne].
  - destruct (Nat.ltb_spec u nT) as [Hu|Hu].
    + replace i with (tid + Z.of_nat (Z.to_nat (i / step)) * step) at 1
        by (rewrite Z2Nat.id by lia; lia).
      apply Hval; [lia| rewrite Z2Nat.id by lia; lia | exact Hu].
    + apply Hframe. intros m' u' _ Hm' Hu' Hcur.
      apply cursor_inj in Hcur; [lia|lia|nia].
  - apply Hframe. intros m' u' _ Hm' Hu' Hcur.
    apply cursor_inj in Hcur; [|lia|nia].
    destruct Hcur as [Hi' _]. apply Hne. rewrite Hi'.
    rewrite Z.mod_add by lia. apply Z.mod_small. lia.
Qed.

(** Threads run in any list order: each path is written by the thread of
    its lane [i mod step] and by that thread only. *)
Lemma generatePaths_threads_spec (rngStates : Z -> curandState)
    (lanes : list Z) :
  (forall tid, In tid lanes -> 0 <= tid < step) ->
  forall paths : mem,
  exists paths',
    fold_left
      (fun acc tid =>
         match acc with
         | Some paths =>
             generatePaths_thread curand_normal gridDim blockDim opt numSims
               numTimesteps rngStates paths tid
         | None => None
         end)
      lanes (Some paths) = Some paths' /\
    forall (i : Z) (u : nat),
      0 <= i < numSims -> (u < nT)%nat ->
      paths' (cursor numSims i u) =
      if in_dec Z.eq_dec (i mod step) lanes
      then product (rngStates (i mod step)) (Z.to_nat (i / step) * nT) (S u)
      else paths (cursor numSims i u).
Proof.
  induction lanes as [|tid lanes IH]; intros Hlanes paths.
  - exists paths. split; [reflexivity|]. intros i u _ _. reflexivity.
  - cbn [fold_left].
    destruct (generatePaths_thread_spec rngStates paths tid)
      as [paths1 [Hrun Hspec]]; [apply Hlanes; left; reflexivity|].
    rewrite Hrun.
    destruct (IH (fun t Ht => Hlanes t (or_intror Ht)) paths1)
      as [paths' [Hrest Hspec']].
    exists paths'. split; [exact Hrest|]. intros i u Hi Hu.
    rewrite Hspec' by assumption. rewrite Hspec by assumption.
    destruct (in_dec Z.eq_dec (i mod step) lanes) as [Hin|Hnin];
      destruct (in_dec Z.eq_dec (i mod step) (tid :: lanes)) as [Hin'|Hnin'];
      try reflexivity.
    + exfalso. apply Hnin'. right. exact Hin.
    + destruct Hin' as [<-|Hin']; [|contradiction].
      rewrite Z.eqb_refl. destruct (Nat.ltb_spec u nT); [reflexivity|lia].
    + destruct (Z.eqb_spec (i mod step) tid) as [Heq|Hne]; [|reflexivity].
      exfalso. apply Hnin'. left. symmetry. exact Heq.
Qed.

End GeneratePathsProof.

(** Without wrap-around, path generation runs to completion. *)
Lemma generatePaths_returns (curandState : Type)
    (curand_normal : curandState -> Real * curandState)
    (gridDim blockDim : Z) (opt : genericOption) (numSims numTimesteps : Z)
    (rngStates : Z -> curandState) (paths0 : mem) :
  0 < gridDim -> 0 < blockDim -> 0 < numSims ->
  numSims + gridDim * blockDim <= 2 ^ 32 ->
  exists paths,
    generatePaths curand_normal gridDim blockDim opt numSims numTimesteps
      rngStates paths0 = Some paths.
Proof.
  intros Hgrid Hblock Hsims Hwrap. unfold generatePaths.
  destruct (generatePaths_threads_spec curandState curand_normal opt numSims
              Hsims numTimesteps gridDim blockDim Hgrid Hblock Hwrap rngStates
              (threads gridDim blockDim)
              (fun tid Hin => proj1 (in_threads gridDim blockDim tid Hblock
                                       ltac:(lia)) Hin)
              paths0)
    as [paths [Hrun _]].
  exists paths. exact Hrun.
Qed.

(** C7: every path index [i] of the grid-stride distribution (lane
    [i mod stride], the lane's path number [i / stride]) is simulated from
    [s = 1], multiplied at every time step [t] by
    [exp((r - 0.5 sigma^2) dt + sigma sqrt(dt) z)] for the lane's next normal
    variate [z], and [s] is stored at [paths[t * numSims + i]]: the stored
    entry is the product of the shocks of steps [0..t]. *)
Theorem generatePaths_stores_cumulative_shocks (curandState : Type)
    (curand_normal : curandState -> Real * curandState)
    (gridDim blockDim : Z) (opt : genericOption) (numSims numTimesteps : Z)
    (rngStates : Z -> curandState) (paths0 : mem) :
  0 < gridDim -> 0 < blockDim -> 0 < numSims ->
  numSims + gridDim * blockDim <= 2 ^ 32 ->
  exists paths,
    generatePaths curand_normal gridDim blockDim opt numSims numTimesteps
      rngStates paths0 = Some paths /\
    forall i t : Z,
      0 <= i < numSims -> 0 <= t < numTimesteps ->
      paths (t * numSims + i) =
      shocks_product curand_normal opt
        (rngStates (i mod (gridDim * blockDim)))
        (Z.to_nat (i / (gridDim * blockDim)) * Z.to_nat numTimesteps)
        (S (Z.to_nat t)).
Proof.
  intros Hgrid Hblock Hsims Hwrap. unfold generatePaths.
  destruct (generatePaths_threads_spec curandState curand_normal opt numSims
              Hsims numTimesteps gridDim blockDim Hgrid Hblock Hwrap rngStates
              (threads gridDim blockDim)
              (fun tid Hin => proj1 (in_threads gridDim blockDim tid Hblock
                                       ltac:(lia)) Hin)
              paths0)
    as [paths [Hrun Hspec]].
  exists paths. split; [exact Hrun|]. intros i t Hi Ht.
  replace (t * numSims + i) with (cursor numSims i (Z.to_nat t))
    by (unfold cursor; lia).
  rewrite Hspec by lia.
  destruct (in_dec Z.eq_dec _ _) as [_|Hnin]; [reflexivity|].
  exfalso. apply Hnin.
  apply (in_threads gridDim blockDim _ Hblock ltac:(lia)).
  apply Z.mod_pos_bound. nia.
Qed.

Lemma generatePaths_stores_cumulative_shocks_witness :
  exists paths,
    generatePaths (fun n : nat => (0%R, S n)) 1 2 sample_call 3 2
      (fun _ => 0%nat) (fun _ => 0%R) = Some paths /\
    forall i t : Z,
      0 <= i < 3 -> 0 <= t < 2 ->
      paths (t * 3 + i) =
      shocks_product (fun n : nat => (0%R, S n)) sample_call
        ((fun _ => 0%nat) (i mod (1 * 2)))
        (Z.to_nat (i / (1 * 2)) * Z.to_nat 2) (S (Z.to_nat t)).
Proof.
  apply (generatePaths_stores_cumulative_shocks nat (fun n => (0%R, S n))
           1 2 sample_call 3 2 (fun _ => 0%nat) (fun _ => 0%R)); lia.
Defined.

(** ** Valuation kernels run to completion *)

Lemma all_some_map {A B : Type} (f : A -> option B) (g : A -> B) (l : list A) :
  (forall x, In x l -> f x = Some (g x)) ->
  all_some (map f l) = Some (map g l).
Proof.
  induction l as [|x l IH]; intro Hf.
  - reflexivity.
  - cbn [map all_some]. rewrite (Hf x (or_introl eq_refl)).
    rewrite IH by (intros y Hy; apply Hf; right; exact Hy). reflexivity.
Qed.

Lemma run_blocks_fold {A : Type} (gridDim : Z) (block : Z -> A -> option A)
    (f : Z -> A -> A) (a : A) :
  (forall bid a', 0 <= bid < gridDim -> block bid a' = Some (f bid a')) ->
  run_blocks gridDim block a =
  Some (fold_left (fun a' bid => f bid a') (range gridDim) a).
Proof.
  intro Hblock. unfold run_blocks.
  assert (Hin : forall bid, In bid (range gridDim) -> 0 <= bid < gridDim)
    by (intro bid; apply in_range).
  revert a Hin. induction (range gridDim) as [|bid l IH]; intros a Hin.
  - reflexivity.
  - cbn [fold_left]. rewrite Hblock by (apply Hin; left; reflexivity).
    apply IH. intros b Hb. apply Hin. right. exact Hb.
Qed.

(** With at least one lane, lane 0 stores the block's result at [bid]. *)
Lemma store_lane0_slots (blockDim : Z) (values : mem) (bid : Z) (v : Real)
    (j : Z) :
  0 < blockDim ->
  store_lane0 blockDim values bid v j = if j =? bid then v else values j.
Proof.
  intro Hblock. unfold store_lane0.
  rewrite <- (Z2Nat.id blockDim) by lia.
  destruct (Z.to_nat blockDim) as [|n] eqn:En; [lia|]. clear En.
  induction n as [|n IH].
  - cbn [range Z.to_nat Z.of_nat Pos.to_nat Pos.iter_op Nat.add seq map fold_left].
    change (Z.of_nat 0 =? 0) with true. cbn iota. reflexivity.
  - rewrite range_snoc, fold_left_app. cbn [fold_left].
    destruct (Z.eqb_spec (Z.of_nat (S n)) 0) as [H0|_]; [lia|]. exact IH.
Qed.

Lemma fold_store_slots (blockDim : Z) (F : Z -> Real) (bids : list Z)
    (values : mem) (j : Z) :
  0 < blockDim ->
  fold_left (fun values bid => store_lane0 blockDim values bid (F bid))
    bids values j =
  if in_dec Z.eq_dec j bids then F j else values j.
Proof.
  intro Hblock. revert values.
  induction bids as [|bid bids IH]; intro values.
  - reflexivity.
  - cbn [fold_left]. rewrite IH, store_lane0_slots by assumption.
    destruct (in_dec Z.eq_dec j bids) as [Hin|Hnin];
      destruct (in_dec Z.eq_dec j (bid :: bids)) as [Hin'|Hnin'];
      try reflexivity.
    + exfalso. apply Hnin'. right. exact Hin.
    + destruct Hin' as [->|Hin']; [|contradiction].
      rewrite Z.eqb_refl. reflexivity.
    + destruct (Z.eqb_spec j bid) as [->|_]; [|reflexivity].
      exfalso. apply Hnin'. left. reflexivity.
Qed.

(** The partial sums the host copies back are the blocks' results. *)
Lemma kernel_readback (gridDim blockDim : Z) (F : Z -> Real) (values : mem) :
  0 < blockDim ->
  map (fold_left (fun values bid => store_lane0 blockDim values bid (F bid))
         (range gridDim) values)
    (range gridDim) =
  map F (range gridDim).
Proof.
  intro Hblock. apply map_ext_in. intros bid Hbid.
  rewrite fold_store_slots by assumption.
  destruct (in_dec Z.eq_dec bid (range gridDim)); [reflexivity|contradiction].
Qed.

Section KernelRuns.

Variable gridDim : Z.
Variable blockDim : Z.
Variable numSims : Z.
Hypothesis gridDim_pos : 0 < gridDim.
Hypothesis blockDim_pos : 0 < blockDim.
Hypothesis numSims_pos : 0 < numSims.
Hypothesis no_wrap : numSims + gridDim * blockDim <= 2 ^ 32.

Local Abbreviation thread_paths := (thread_paths gridDim blockDim numSims).

Lemma grid_stride_thread {A : Type} (body : Z -> A -> A) (acc : A) (tid : Z) :
  0 <= tid ->
  grid_stride (loop_budget numSims) tid (stride gridDim blockDim) numSims
    body acc =
  Some (fold_left (fun acc i => body i acc) (thread_paths tid) acc).
Proof.
  intro Htid. rewrite stride_no_wrap by nia.
  apply grid_stride_fold; [assumption|nia|assumption|unfold loop_budget; lia].
Qed.


Section SingleSum.

Variable payoff : Z -> Real.
Variable shared : Z -> mem.

Local Abbreviation lane_total := (lane_total gridDim blockDim numSims payoff).
Local Abbreviation block_total :=
  (block_total gridDim blockDim numSims payoff shared).

Lemma lane_sums_run (bid : Z) :
  0 <= bid < gridDim ->
  lane_sums gridDim blockDim numSims payoff bid =
  Some (map (lane_total bid) (range blockDim)).
Proof.
  intro Hbid. unfold lane_sums. apply all_some_map. intros ltid Hltid.
  apply in_range in Hltid. unfold thread_sum.
  rewrite (global_tid_no_wrap gridDim) by (assumption || lia).
  apply grid_stride_thread. nia.
Qed.

Lemma single_sum_kernel_run (values : mem) :
  run_blocks gridDim (single_sum_block gridDim blockDim numSims shared payoff)
    values =
  Some (fold_left (fun values bid => store_lane0 blockDim values bid (block_total bid))
          (range gridDim) values).
Proof.
  apply run_blocks_fold. intros bid values' Hbid.
  unfold single_sum_block. rewrite lane_sums_run by assumption. reflexivity.
Qed.

End SingleSum.

Lemma pair_sums_split (f : Z -> Real * Real) (l : list Z) (a b : Real) :
  fold_left
    (fun (acc : Real * Real) i =>
       (let '(sa, sb) := acc in let '(x, y) := f i in (sa + x, sb + y))%R)
    l (a, b) =
  (fold_left (fun sa i => (sa + fst (f i))%R) l a,
   fold_left (fun sb i => (sb + snd (f i))%R) l b).
Proof.
  revert a b. induction l as [|i l IH]; intros a b.
  - reflexivity.
  - cbn [fold_left]. destruct (f i) as [x y]. rewrite IH. reflexivity.
Qed.

Section Knockoutin.

Variable paths : mem.
Variable opt : genericOption.
Variable numTimesteps : Z.
Variable shared : Z -> mem.

Local Abbreviation knock i := (knockoutin_payoff paths opt numSims numTimesteps i).
Local Abbreviation lanes_of f := (lane_total gridDim blockDim numSims f).
Local Abbreviation out_lanes bid :=
  (map (lanes_of (fun i => fst (knock i)) bid) (range blockDim)).
Local Abbreviation in_lanes bid :=
  (map (lanes_of (fun i => snd (knock i)) bid) (range blockDim)).

Lemma knockoutin_thread_run (tid : Z) :
  0 <= tid ->
  knockoutin_thread_sums gridDim blockDim paths opt numSims numTimesteps tid =
  Some (fold_left (fun s i => (s + fst (knock i))%R) (thread_paths tid) 0%R,
        fold_left (fun s i => (s + snd (knock i))%R) (thread_paths tid) 0%R).
Proof.
  intro Htid. unfold knockoutin_thread_sums.
  rewrite grid_stride_thread by assumption. f_equal.
  apply pair_sums_split.
Qed.

(** The knockout and knockin partial sums of a launch; the second reduction
    of a block starts from the shared buffer the first one left. *)
Lemma knockoutin_kernel_run (valuesko valueski : mem) :
  computeValueKnockoutin gridDim blockDim paths opt numSims numTimesteps shared
    valuesko valueski =
  Some
    (fold_left
       (fun values bid =>
          store_lane0 blockDim values bid
            (reduce_sum blockDim (out_lanes bid) (shared bid)))
       (range gridDim) valuesko,
     fold_left
       (fun values bid =>
          store_lane0 blockDim values bid
            (reduce_sum blockDim (in_lanes bid)
               (reduce_shared blockDim (out_lanes bid) (shared bid))))
       (range gridDim) valueski).
Proof.
  unfold computeValueKnockoutin.
  rewrite (run_blocks_fold gridDim _
             (fun bid (vs : mem * mem) =>
                (store_lane0 blockDim (fst vs) bid
                   (reduce_sum blockDim (out_lanes bid) (shared bid)),
                 store_lane0 blockDim (snd vs) bid
                   (reduce_sum blockDim (in_lanes bid)
                      (reduce_shared blockDim (out_lanes bid) (shared bid)))))).
  - f_equal. generalize (range gridDim) as bids. intro bids.
    revert valuesko valueski.
    induction bids as [|bid bids IH]; intros valuesko valueski.
    + reflexivity.
    + cbn [fold_left fst snd]. apply IH.
  - intros bid [vko vki] Hbid. unfold knockoutin_block.
    rewrite (all_some_map _
               (fun ltid =>
                  (lanes_of (fun i => fst (knock i)) bid ltid,
                   lanes_of (fun i => snd (knock i)) bid ltid))).
    + rewrite !map_map. cbn [fst snd]. reflexivity.
    + intros ltid Hltid. apply in_range in Hltid.
      rewrite (global_tid_no_wrap gridDim) by (assumption || lia).
      apply knockoutin_thread_run. nia.
Qed.

End Knockoutin.

End KernelRuns.

(** ** The grid-stride distribution covers every path once *)

Lemma slots_sum_zero (m : mem) (n : nat) :
  (forall j, 0 <= j < Z.of_nat n -> m j = 0%R) -> slots_sum m n = 0%R.
Proof.
  induction n as [|n IH]; intro Hm; cbn [slots_sum].
  - reflexivity.
  - rewrite IH, Hm by (intros; try apply Hm; lia). ring.
Qed.

Lemma slots_sum_product (F : mem) (blockLanes : nat) (blocks : nat) :
  slots_sum
    (fun bid => slots_sum (fun ltid => F (bid * Z.of_nat blockLanes + ltid)) blockLanes)
    blocks =
  slots_sum F (blocks * blockLanes).
Proof.
  induction blocks as [|blocks IH].
  - reflexivity.
  - cbn [slots_sum]. rewrite IH.
    replace (S blocks * blockLanes)%nat with (blocks * blockLanes + blockLanes)%nat
      by lia.
    rewrite slots_sum_app. f_equal. apply slots_sum_ext. intros j Hj.
    f_equal. lia.
Qed.

Section Coverage.

Variable step : Z.
Variable numSims : Z.
Variable payoff : Z -> Real.
Hypothesis step_pos : 0 < step.

(** The local sum of a lane that starts at index [i]. *)
Local Abbreviation total fuel i :=
  (fold_left (fun s j => (s + payoff j)%R)
     (stride_indices fuel i step numSims) 0%R).

Lemma fold_payoffs_start (l : list Z) (a : Real) :
  fold_left (fun s j => (s + payoff j)%R) l a =
  (a + fold_left (fun s j => (s + payoff j)%R) l 0)%R.
Proof.
  revert a. induction l as [|i l IH]; intro a; cbn [fold_left].
  - ring.
  - rewrite IH, (IH (0 + payoff i)%R). ring.
Qed.

Lemma total_outside (fuel : nat) (i : Z) : numSims <= i -> total fuel i = 0%R.
Proof.
  intro Hi. destruct fuel as [|fuel]; cbn [stride_indices]; [reflexivity|].
  destruct (Z.ltb_spec i numSims); [lia|reflexivity].
Qed.

Lemma total_step (fuel : nat) (i : Z) :
  total (S fuel) i =
  ((if i <? numSims then payoff i else 0) + total fuel (i + step))%R.
Proof.
  cbn [stride_indices]. destruct (Z.ltb_spec i numSims) as [Hlt|Hge].
  - cbn [fold_left]. rewrite fold_payoffs_start. ring.
  - rewrite total_outside by lia. cbn [fold_left]. ring.
Qed.

(** Row by row: the lanes started at [base, base + step) together visit
    exactly the indices [base, numSims). *)
Lemma rows_cover (fuel : nat) (base : Z) :
  0 <= base -> (Z.to_nat (numSims - base) < fuel)%nat ->
  slots_sum (fun tid => total fuel (base + tid)) (Z.to_nat step) =
  slots_sum (fun k => payoff (base + k)) (Z.to_nat (numSims - base)).
Proof.
  revert base. induction fuel as [|fuel IH]; intros base Hbase Hfuel; [lia|].
  rewrite (slots_sum_ext _
             (fun tid => ((if base + tid <? numSims then payoff (base + tid) else 0)
                          + total fuel (base + step + tid))%R))
    by (intros tid _; rewrite total_step;
        replace (base + tid + step) with (base + step + tid) by lia;
        reflexivity).
  rewrite (slots_sum_plus
             (fun tid => if base + tid <? numSims then payoff (base + tid) else 0%R)
             (fun tid => total fuel (base + step + tid))).
  destruct (Z.le_gt_cases numSims base) as [Hdone|Hmore].
  - replace (Z.to_nat (numSims - base)) with 0%nat by lia. cbn [slots_sum].
    rewrite !slots_sum_zero; [ring| |].
    + intros tid Htid. apply total_outside. lia.
    + intros tid Htid. destruct (Z.ltb_spec (base + tid) numSims); [lia|reflexivity].
  - rewrite IH by lia.
    destruct (Z.le_gt_cases step (numSims - base)) as [Hfull|Hpart].
    + replace (Z.to_nat (numSims - base))
        with (Z.to_nat step + Z.to_nat (numSims - (base + step)))%nat by lia.
      rewrite slots_sum_app. f_equal.
      * apply slots_sum_ext. intros tid Htid.
        destruct (Z.ltb_spec (base + tid) numSims); [reflexivity|lia].
      * apply slots_sum_ext. intros k Hk. f_equal. lia.
    + replace (Z.to_nat (numSims - (base + step))) with 0%nat by lia.
      cbn [slots_sum].
      replace (Z.to_nat step)
        with (Z.to_nat (numSims - base) + Z.to_nat (step - (numSims - base)))%nat
        by lia.
      rewrite slots_sum_app.
      rewrite (slots_sum_zero
                 (fun j =>
                    if base + (j + Z.of_nat (Z.to_nat (numSims - base))) <? numSims
                    then payoff (base + (j + Z.of_nat (Z.to_nat (numSims - base))))
                    else 0%R)).
      * rewrite Rplus_0_r, Rplus_0_r. apply slots_sum_ext. intros tid Htid.
        destruct (Z.ltb_spec (base + tid) numSims); [reflexivity|lia].
      * intros j Hj.
        destruct (Z.ltb_spec (base + (j + Z.of_nat (Z.to_nat (numSims - base))))
                    numSims); [lia|reflexivity].
Qed.

End Coverage.

Section KernelTotal.

Variable gridDim : Z.
Variable numSims : Z.
Variable k : nat.
Hypothesis gridDim_pos : 0 < gridDim.
Hypothesis numSims_pos : 0 < numSims.
Hypothesis no_wrap : numSims + gridDim * 2 ^ Z.of_nat k <= 2 ^ 32.

Local Abbreviation blockDim := (2 ^ Z.of_nat k).

Variable payoff : Z -> Real.
Variable shared : Z -> mem.

(** With a block size that is a power of two and no wrap-around, the
    partial sums of a launch add up to the sum of the payoffs of all
    paths. *)
Lemma partial_sums_total :
  fold_left Rplus
    (map (block_total gridDim blockDim numSims payoff shared) (range gridDim))
    0%R =
  fold_left Rplus (map payoff (range numSims)) 0%R.
Proof.
  assert (Hblock : 0 < blockDim) by (apply Z.pow_pos_nonneg; lia).
  rewrite <- (Z2Nat.id gridDim) at 2 by lia.
  rewrite <- (Z2Nat.id numSims) at 2 by lia.
  rewrite <- !slots_sum_map.
  rewrite (slots_sum_ext _
             (fun bid =>
                slots_sum
                  (fun ltid =>
                     fold_left (fun s j => (s + payoff j)%R)
                       (stride_indices (loop_budget numSims)
                          (0 + (bid * Z.of_nat (Z.to_nat blockDim) + ltid))
                          (gridDim * blockDim) numSims) 0%R)
                  (Z.to_nat blockDim))).
  - rewrite (slots_sum_product
               (fun tid =>
                  fold_left (fun s j => (s + payoff j)%R)
                    (stride_indices (loop_budget numSims) (0 + tid)
                       (gridDim * blockDim) numSims) 0%R)).
    replace (Z.to_nat gridDim * Z.to_nat blockDim)%nat
      with (Z.to_nat (gridDim * blockDim)) by nia.
    rewrite (rows_cover (gridDim * blockDim) numSims payoff) by
      (try nia; unfold loop_budget; lia).
    rewrite Z.sub_0_r. apply slots_sum_ext. intros j _. reflexivity.
  - intros bid Hbid. unfold block_total.
    rewrite reduce_sum_pow2 by (rewrite length_map, range_length; reflexivity).
    rewrite <- (Z2Nat.id blockDim) at 2 by lia.
    rewrite <- slots_sum_map. apply slots_sum_ext. intros ltid Hltid.
    unfold lane_total, thread_paths. rewrite Z2Nat.id by lia. reflexivity.
Qed.

(** A single-sum valuation kernel, end to end: what the host reads back
    sums to the total payoff of the [numSims] paths. *)
Lemma valuation_kernel_total (values : mem) :
  exists values',
    run_blocks gridDim (single_sum_block gridDim blockDim numSims shared payoff)
      values = Some values' /\
    fold_left Rplus (map values' (range gridDim)) 0%R =
    fold_left Rplus (map payoff (range numSims)) 0%R.
Proof.
  assert (Hblock : 0 < blockDim) by (apply Z.pow_pos_nonneg; lia).
  eexists. split.
  - apply single_sum_kernel_run; assumption.
  - rewrite kernel_readback by assumption. apply partial_sums_total.
Qed.

End KernelTotal.

(** ** What holds of knockout plus knockin: Calls with a non-negative strike *)

Lemma fold_payoffs_add (f g h : Z -> Real) (l : list Z) (a b : Real) :
  (forall i, In i l -> (f i + g i)%R = h i) ->
  (fold_left (fun s i => (s + f i)%R) l a
   + fold_left (fun s i => (s + g i)%R) l b)%R =
  fold_left (fun s i => (s + h i)%R) l (a + b)%R.
Proof.
  revert a b. induction l as [|i l IH]; intros a b Hfgh.
  - reflexivity.
  - cbn [fold_left]. rewrite IH by (intros j Hj; apply Hfgh; right; exact Hj).
    f_equal. rewrite <- (Hfgh i (or_introl eq_refl)). ring.
Qed.

Lemma fold_plus_map_add {A : Type} (f g h : A -> Real) (l : list A) :
  (forall x, In x l -> (f x + g x)%R = h x) ->
  (fold_left Rplus (map f l) 0 + fold_left Rplus (map g l) 0)%R =
  fold_left Rplus (map h l) 0%R.
Proof.
  induction l as [|x l IH]; intro Hfgh; cbn [map fold_left].
  - ring.
  - rewrite (fold_plus_start (map f l)), (fold_plus_start (map g l)),
      (fold_plus_start (map h l)).
    rewrite <- IH by (intros y Hy; apply Hfgh; right; exact Hy).
    rewrite <- (Hfgh x (or_introl eq_refl)). ring.
Qed.

Lemma discounted_mean_add (opt : genericOption) (numSims : Z)
    (l1 l2 l3 : list Real) :
  (fold_left Rplus l1 0 + fold_left Rplus l2 0)%R = fold_left Rplus l3 0%R ->
  (discounted_mean opt numSims l1 + discounted_mean opt numSims l2)%R =
  discounted_mean opt numSims l3.
Proof.
  intro Hsum. unfold discounted_mean. rewrite <- Hsum. unfold Rdiv. ring.
Qed.

Section KnockParity.

Variable gridDim : Z.
Variable blockDim : Z.
Variable numSims : Z.
Hypothesis gridDim_pos : 0 < gridDim.
Hypothesis blockDim_pos : 0 < blockDim.
Hypothesis numSims_pos : 0 < numSims.
Hypothesis no_wrap : numSims + gridDim * blockDim <= 2 ^ 32.

Variable paths : mem.
Variable opt : genericOption.
Variable numTimesteps : Z.

Local Abbreviation knock i := (knockoutin_payoff paths opt numSims numTimesteps i).
Local Abbreviation vanilla_of i :=
  (plainvanilla_payoff paths opt numSims numTimesteps i).
Local Abbreviation lanes_of f := (lane_total gridDim blockDim numSims f).

Lemma lane_total_add (f g h : Z -> Real) (bid ltid : Z) :
  (forall i, (f i + g i)%R = h i) ->
  (lanes_of f bid ltid + lanes_of g bid ltid)%R = lanes_of h bid ltid.
Proof.
  intro Hfgh. unfold lane_total.
  rewrite (fold_payoffs_add f g h) by (intros; apply Hfgh).
  rewrite Rplus_0_l. reflexivity.
Qed.

(** For a Call with a non-negative strike, whatever the block size, the
    knockout and knockin values of a launch add up to its Plain-Vanilla
    value. *)
Lemma knock_parity_call (shared shared' : Z -> mem) (values valuesko valueski : mem) :
  type opt = Call -> (0 <= strike opt)%R ->
  exists pv ko ki : mem,
    computeValuePlainVanilla gridDim blockDim paths opt numSims numTimesteps
      shared values = Some pv /\
    computeValueKnockoutin gridDim blockDim paths opt numSims numTimesteps
      shared' valuesko valueski = Some (ko, ki) /\
    (discounted_mean opt numSims (map ko (range gridDim))
     + discounted_mean opt numSims (map ki (range gridDim)))%R =
    discounted_mean opt numSims (map pv (range gridDim)).
Proof.
  intros Hcall Hstrike. eexists. eexists. eexists.
  split; [apply single_sum_kernel_run; assumption|].
  split; [apply knockoutin_kernel_run; assumption|].
  apply discounted_mean_add.
  rewrite !kernel_readback by assumption.
  apply fold_plus_map_add. intros bid Hbid. unfold block_total.
  apply reduce_sum_add; [assumption|]. intros ltid Hltid.
  apply lane_total_add. intro i.
  rewrite knockoutin_payoff_call by assumption.
  destruct (breached paths opt numSims i (Z.to_nat numTimesteps));
    cbn [fst snd]; ring.
Qed.

Lemma thread_paths_bound (tid i : Z) :
  0 <= tid -> In i (thread_paths gridDim blockDim numSims tid) ->
  0 <= i < numSims.
Proof.
  intros Htid Hin. unfold thread_paths in Hin.
  apply stride_indices_spec in Hin; [lia|nia|unfold loop_budget; lia].
Qed.

Lemma reduce_sum_zero (sdata : mem) :
  reduce_sum blockDim (map (fun _ => 0%R) (range blockDim)) sdata = 0%R.
Proof.
  pose proof (reduce_sum_add blockDim (fun _ => 0%R) (fun _ => 0%R)
                (fun _ => 0%R) sdata sdata sdata blockDim_pos) as Hadd.
  specialize (Hadd (fun j _ => Rplus_0_l 0)). lra.
Qed.

Lemma reduce_sum_same_lanes (f g : Z -> Real) (sd1 sd2 : mem) :
  (forall j, 0 <= j < blockDim -> f j = g j) ->
  reduce_sum blockDim (map f (range blockDim)) sd1 =
  reduce_sum blockDim (map g (range blockDim)) sd2.
Proof.
  intro Hfg.
  pose proof (reduce_sum_add blockDim f (fun _ => 0%R) g sd1 sd1 sd2
                blockDim_pos) as Hadd.
  rewrite reduce_sum_zero in Hadd. rewrite <- Hadd; [ring|].
  intros j Hj. rewrite (Hfg j Hj). ring.
Qed.

(** When no path of the matrix crosses the barrier, the knockout value of
    a launch is its Plain-Vanilla value, for Calls and Puts alike. *)
Lemma knockout_is_plainvanilla_when_never_breached
    (shared shared' : Z -> mem) (values valuesko valueski : mem) :
  (forall i, 0 <= i < numSims ->
     breached paths opt numSims i (Z.to_nat numTimesteps) = false) ->
  exists pv ko ki : mem,
    computeValuePlainVanilla gridDim blockDim paths opt numSims numTimesteps
      shared values = Some pv /\
    computeValueKnockoutin gridDim blockDim paths opt numSims numTimesteps
      shared' valuesko valueski = Some (ko, ki) /\
    discounted_mean opt numSims (map ko (range gridDim)) =
    discounted_mean opt numSims (map pv (range gridDim)).
Proof.
  intro Hnever. eexists. eexists. eexists.
  split; [apply single_sum_kernel_run; assumption|].
  split; [apply knockoutin_kernel_run; assumption|].
  rewrite !kernel_readback by assumption. f_equal.
  apply map_ext_in. intros bid Hbid. apply in_range in Hbid.
  unfold block_total. apply reduce_sum_same_lanes. intros ltid Hltid.
  unfold lane_total.
  assert (Hsame : forall l a,
            (forall i, In i l -> 0 <= i < numSims) ->
            fold_left (fun s i => (s + fst (knock i))%R) l a =
            fold_left (fun s i => (s + vanilla_of i)%R) l a).
  { induction l as [|i l IH]; intros a Hl; [reflexivity|].
    cbn [fold_left]. rewrite IH by (intros j Hj; apply Hl; right; exact Hj).
    f_equal. f_equal.
    rewrite knockoutin_payoff_conditional, plainvanilla_payoff_vanilla.
    rewrite Hnever by (apply Hl; left; reflexivity). reflexivity. }
  apply Hsame. intros i Hi. apply (thread_paths_bound (bid * blockDim + ltid)).
  - nia.
  - exact Hi.
Qed.

End KnockParity.

(** ** The pricing pass: which fields are written *)

Lemma untouched_refl (o : genericOption) : untouched o o.
Proof. unfold untouched. repeat split. Qed.

Lemma untouched_trans (o1 o2 o3 : genericOption) :
  untouched o1 o2 -> untouched o2 o3 -> untouched o1 o3.
Proof.
  unfold untouched. intros H12 H23.
  repeat match goal with H : _ /\ _ |- _ => destruct H end.
  repeat split; congruence.
Qed.

Lemma untouched_setters (v : Real) (o : genericOption) :
  untouched o (set_valuePlainVanilla v o) /\
  untouched o (set_valueAsian v o) /\
  untouched o (set_valueKnockout v o) /\
  untouched o (set_valueKnockin v o) /\
  untouched o (set_valueLookback v o).
Proof. unfold untouched. repeat split. Qed.

Lemma holds_more_refl (h : host) : holds_more h h.
Proof. split; [reflexivity|]. exists []. reflexivity. Qed.

Lemma holds_more_trans (h1 h2 h3 : host) :
  holds_more h1 h2 -> holds_more h2 h3 -> holds_more h1 h3.
Proof.
  intros [Hf12 [l12 Hl12]] [Hf23 [l23 Hl23]]. split; [congruence|].
  exists (l23 ++ l12). rewrite Hl23, Hl12, app_assoc. reflexivity.
Qed.

Section Keeps.

Variable R : host -> host -> Prop.
Hypothesis R_refl : forall h, R h h.
Hypothesis R_trans : forall h1 h2 h3, R h1 h2 -> R h2 h3 -> R h1 h3.

Lemma keeps_ret {A : Type} (a : A) : keeps R (ret a).
Proof. intro h. apply R_refl. Qed.

Lemma keeps_throw {A : Type} (msg : string) : keeps R (@throw A msg).
Proof. intro h. apply R_refl. Qed.

Lemma keeps_launch {A : Type} (result : option A) : keeps R (launch result).
Proof. intro h. unfold launch. destruct result; apply R_refl. Qed.

Lemma keeps_get_option : keeps R get_option.
Proof. intro h. apply R_refl. Qed.

Lemma keeps_bind {A B : Type} (c : M A) (k : A -> M B) :
  keeps R c -> (forall a, keeps R (k a)) -> keeps R (bind c k).
Proof.
  intros Hc Hk h. unfold bind. specialize (Hc h).
  destruct (c h) as [[a| |] h1]; cbn [snd] in *; try exact Hc.
  eapply R_trans; [exact Hc | apply Hk].
Qed.

Lemma keeps_if {A : Type} (b : bool) (c1 c2 : M A) :
  keeps R c1 -> keeps R c2 -> keeps R (if b then c1 else c2).
Proof. destruct b; auto. Qed.

Lemma keeps_check (rt : cuda_runtime) (cudaResult : Z) (msg : string) :
  keeps R (check rt cudaResult msg).
Proof. unfold check. apply keeps_if; [apply keeps_ret|apply keeps_throw]. Qed.

Lemma keeps_check_kernel (rt : cuda_runtime) (block_x : Z) (k : kernel)
    (name : string) :
  keeps R (check_kernel rt block_x k name).
Proof.
  unfold check_kernel. destruct (cudaFuncGetAttributes rt k) as [res maxThreads].
  apply keeps_bind; [apply keeps_check|intros _].
  apply keeps_if; [apply keeps_throw|apply keeps_ret].
Qed.

Lemma keeps_device_malloc (rt : cuda_runtime) (b : buffer) (msg : string) :
  (forall h, R h (mkHost (the_option h) (b :: live h) (freed h))) ->
  keeps R (device_malloc rt b msg).
Proof.
  intro Halloc. unfold device_malloc. apply keeps_bind.
  - apply keeps_if; [|apply keeps_ret]. intro h. apply Halloc.
  - intros _. apply keeps_bind; [apply keeps_check|intros _]. apply keeps_ret.
Qed.

Lemma keeps_copy_back (rt : cuda_runtime) (t : transfer) (d : mem)
    (grid_x : Z) :
  keeps R (copy_back rt t d grid_x).
Proof.
  unfold copy_back. apply keeps_bind; [apply keeps_check|intros _].
  apply keeps_ret.
Qed.

Lemma keeps_finish (m_numSims : Z)
    (set : Real -> genericOption -> genericOption)
    (get : genericOption -> Real) (values : list Real) :
  (forall f h, (forall o, untouched o (f o)) ->
     R h (mkHost (f (the_option h)) (live h) (freed h))) ->
  (forall v o, untouched o (set v o)) ->
  keeps R (finish m_numSims set get values).
Proof.
  intros Hmod Hset. unfold finish.
  repeat (apply keeps_bind; [|intros _]);
    intro h; apply Hmod; intro o; apply Hset.
Qed.

Lemma keeps_throws {A : Type} (c : M A) : keeps R c -> throws_keeping R c.
Proof. intros Hc h msg _. apply Hc. Qed.

Lemma returns_throws {A : Type} (c : M A) :
  always_returns c -> throws_keeping R c.
Proof. intros Hc h msg Hthrow. destruct (Hc h) as [a Ha]. congruence. Qed.

Lemma throws_keeping_bind {A B : Type} (c : M A) (k : A -> M B) :
  keeps R c -> (forall a, throws_keeping R (k a)) ->
  throws_keeping R (bind c k).
Proof.
  intros Hc Hk h msg. unfold bind. specialize (Hc h).
  destruct (c h) as [[a| |] h1]; cbn [fst snd] in *; intro Hthrow.
  - eapply R_trans; [exact Hc | eapply Hk, Hthrow].
  - exact Hc.
  - exact Hc.
Qed.

End Keeps.

Lemma always_returns_release (p : option buffer) : always_returns (release p).
Proof. intro h. destruct p; exists tt; reflexivity. Qed.

Lemma always_returns_bind {A B : Type} (c : M A) (k : A -> M B) :
  always_returns c -> (forall a, always_returns (k a)) ->
  always_returns (bind c k).
Proof.
  intros Hc Hk h. unfold bind. destruct (Hc h) as [a Ha].
  destruct (c h) as [o h1]. cbn [fst] in Ha. subst o. apply Hk.
Qed.

Lemma keeps_contract_release (p : option buffer) :
  keeps same_contract (release p).
Proof. intro h. destruct p; apply untouched_refl. Qed.

Section PricingEngineFrame.

Variable curandState : Type.
Variable curand_init : Z -> Z -> Z -> curandState.
Variable curand_normal : curandState -> Real * curandState.
Variable rt : cuda_runtime.
Variable raw_paths : mem.
Variable raw_rngStates : Z -> curandState.
Variable raw_values : mem.
Variable raw_values2 : mem.
Variable shared : kernel -> Z -> mem.
Variable m_numSims : Z.
Variable m_device : Z.
Variable m_threadBlockSize : Z.
Variable m_seed : Z.

Local Abbreviation run :=
  (PricingEngine_call curandState curand_init curand_normal rt raw_paths
     raw_rngStates raw_values raw_values2 shared m_numSims m_device
     m_threadBlockSize m_seed).

Lemma same_contract_refl (h : host) : same_contract h h.
Proof. apply untouched_refl. Qed.

Lemma same_contract_trans (h1 h2 h3 : host) :
  same_contract h1 h2 -> same_contract h2 h3 -> same_contract h1 h3.
Proof. apply untouched_trans. Qed.

(** In every run, returning or not, the pass keeps the contract, [golden],
    [valuePlainVanillaCPU] and [valueALK]. *)
Lemma run_keeps_contract : keeps same_contract run.
Proof.
  unfold PricingEngine_call.
  destruct (cudaGetDeviceProperties rt m_device) as [res props].
  repeat first
    [ solve [ first [ apply keeps_ret | apply keeps_throw | apply keeps_launch
                    | apply keeps_get_option | apply keeps_check
                    | apply keeps_check_kernel | apply keeps_copy_back ];
              first [exact same_contract_refl | exact same_contract_trans] ]
    | apply keeps_contract_release
    | apply keeps_finish;
      [ exact same_contract_trans
      | intros f h Hf; apply Hf
      | intros v o; apply (untouched_setters v o) ]
    | apply keeps_device_malloc;
      [ exact same_contract_refl | exact same_contract_trans
      | intro h; apply untouched_refl ]
    | match goal with
      | |- keeps _ (let '(_, _) := ?x in _) => destruct x
      | |- keeps _ (if _ then _ else _) => apply keeps_if
      | |- keeps _ (bind _ _) =>
          apply keeps_bind; [exact same_contract_trans| |intro]
      end ].
Qed.

(** A run that throws has released nothing. *)
Lemma run_throws_holding : throws_keeping holds_more run.
Proof.
  unfold PricingEngine_call.
  destruct (cudaGetDeviceProperties rt m_device) as [res props].
  repeat first
    [ solve [ first [ apply keeps_ret | apply keeps_throw | apply keeps_launch
                    | apply keeps_get_option | apply keeps_check
                    | apply keeps_check_kernel | apply keeps_copy_back ];
              first [exact holds_more_refl | exact holds_more_trans] ]
    | apply returns_throws;
      solve [ repeat first [ apply always_returns_release
                           | apply always_returns_bind; [|intro] ] ]
    | apply keeps_finish;
      [ exact holds_more_trans
      | intros f h Hf; split; [reflexivity | exists []; reflexivity]
      | intros v o; apply (untouched_setters v o) ]
    | match goal with
      | |- keeps _ (device_malloc _ ?b _) =>
          apply keeps_device_malloc;
          [ exact holds_more_refl | exact holds_more_trans
          | intro h; split; [reflexivity | exists [b]; reflexivity] ]
      | |- throws_keeping _ (let '(_, _) := ?x in _) => destruct x
      | |- keeps _ (if _ then _ else _) => apply keeps_if
      | |- throws_keeping _ (bind _ _) =>
          apply throws_keeping_bind; [exact holds_more_trans| |intro]
      end ].
Qed.

End PricingEngineFrame.

(** ** Stepping through a host computation that returns *)

Lemma bind_Done {A B : Type} (c : M A) (k : A -> M B) (h h' : host) (b : B) :
  bind c k h = (Done b, h') ->
  exists a h1, c h = (Done a, h1) /\ k a h1 = (Done b, h').
Proof.
  unfold bind. destruct (c h) as [[a| |] h1]; intro H; try discriminate.
  exists a, h1. split; [reflexivity|exact H].
Qed.

Lemma ret_Done {A : Type} (a a' : A) (h h' : host) :
  ret a h = (Done a', h') -> a' = a /\ h' = h.
Proof. unfold ret. intro H. inversion H. split; reflexivity. Qed.

Lemma check_Done (rt : cuda_runtime) (cudaResult : Z) (msg : string)
    (h h' : host) (u : unit) :
  check rt cudaResult msg h = (Done u, h') -> cudaResult = cudaSuccess /\ h' = h.
Proof.
  unfold check. destruct (Z.eqb_spec cudaResult cudaSuccess) as [->|_].
  - intro H. inversion H. split; reflexivity.
  - discriminate.
Qed.

Lemma check_kernel_Done (rt : cuda_runtime) (block_x : Z) (k : kernel)
    (name : string) (h h' : host) (u : unit) :
  check_kernel rt block_x k name h = (Done u, h') ->
  fst (cudaFuncGetAttributes rt k) = cudaSuccess /\
  block_x <= uint (snd (cudaFuncGetAttributes rt k)) /\ h' = h.
Proof.
  unfold check_kernel. destruct (cudaFuncGetAttributes rt k) as [res maxThreads].
  intro H. apply bind_Done in H. destruct H as [u' [h1 [Hcheck Hrest]]].
  apply check_Done in Hcheck. destruct Hcheck as [-> ->].
  cbn [fst snd]. destruct (Z.gtb_spec block_x (uint maxThreads)).
  - discriminate.
  - apply ret_Done in Hrest. destruct Hrest as [_ ->]. repeat split. lia.
Qed.

Lemma device_malloc_Done (rt : cuda_runtime) (b : buffer) (msg : string)
    (h h' : host) (p : option buffer) :
  device_malloc rt b msg h = (Done p, h') ->
  cudaMalloc rt b = cudaSuccess /\ p = Some b /\
  h' = mkHost (the_option h) (b :: live h) (freed h).
Proof.
  unfold device_malloc. intro H.
  apply bind_Done in H. destruct H as [u [h1 [Halloc H]]].
  apply bind_Done in H. destruct H as [u' [h2 [Hcheck H]]].
  apply check_Done in Hcheck. destruct Hcheck as [Hres ->].
  apply ret_Done in H. destruct H as [-> ->].
  rewrite Hres in *. cbn in Halloc. inversion Halloc. repeat split.
Qed.

Lemma launch_Done {A : Type} (result : option A) (h h' : host) (a : A) :
  launch result h = (Done a, h') -> result = Some a /\ h' = h.
Proof.
  unfold launch. destruct result; intro H; inversion H. split; reflexivity.
Qed.

Lemma copy_back_Done (rt : cuda_runtime) (t : transfer) (d : mem) (grid_x : Z)
    (h h' : host) (values : list Real) :
  copy_back rt t d grid_x h = (Done values, h') ->
  cudaMemcpy rt t = cudaSuccess /\ values = map d (range grid_x) /\ h' = h.
Proof.
  unfold copy_back. intro H.
  apply bind_Done in H. destruct H as [u [h1 [Hcheck H]]].
  apply check_Done in Hcheck. destruct Hcheck as [Hres ->].
  apply ret_Done in H. destruct H as [-> ->]. repeat split. exact Hres.
Qed.

(** The three assignments of a finishing step amount to one store of the
    discounted mean. *)
Lemma finish_Done (m_numSims : Z)
    (set : Real -> genericOption -> genericOption)
    (get : genericOption -> Real) (values : list Real) (h h' : host) (u : unit) :
  (forall v o, get (set v o) = v) ->
  (forall v w o, set v (set w o) = set v o) ->
  (forall v o, untouched o (set v o)) ->
  finish m_numSims set get values h = (Done u, h') ->
  h' = mkHost (set (discounted_mean (the_option h) m_numSims values)
                 (the_option h))
         (live h) (freed h).
Proof.
  intros Hget Hset Hkeep H. unfold finish, bind, modify_option in H.
  cbn [the_option live freed] in H. inversion H. f_equal.
  rewrite !Hget, !Hset. f_equal. unfold discounted_mean.
  destruct (Hkeep (fold_left Rplus values 0%R / to_real m_numSims)%R (the_option h))
    as (_ & _ & -> & _ & -> & _).
  f_equal. f_equal. ring.
Qed.

Lemma get_option_Done (h h' : host) (o : genericOption) :
  get_option h = (Done o, h') -> o = the_option h /\ h' = h.
Proof. unfold get_option. intro H. inversion H. split; reflexivity. Qed.

Lemma release_Done (b : buffer) (h h' : host) (u : unit) :
  release (Some b) h = (Done u, h') ->
  h' = mkHost (the_option h) (remove_first b (live h)) (freed h ++ [b]).
Proof. cbn [release]. unfold cudaFree. intro H. inversion H. reflexivity. Qed.

Lemma guard_Done (b : bool) (msg : string) (h h' : host) (u : unit) :
  (if b then throw msg else ret tt) h = (Done u, h') -> b = false /\ h' = h.
Proof.
  destruct b; [discriminate|]. intro H. apply ret_Done in H.
  destruct H as [_ ->]. split; reflexivity.
Qed.

Lemma setter_laws :
  (forall v o, valuePlainVanilla (set_valuePlainVanilla v o) = v) /\
  (forall v o, valueAsian (set_valueAsian v o) = v) /\
  (forall v o, valueKnockout (set_valueKnockout v o) = v) /\
  (forall v o, valueKnockin (set_valueKnockin v o) = v) /\
  (forall v o, valueLookback (set_valueLookback v o) = v) /\
  (forall v w o, set_valuePlainVanilla v (set_valuePlainVanilla w o)
                 = set_valuePlainVanilla v o) /\
  (forall v w o, set_valueAsian v (set_valueAsian w o) = set_valueAsian v o) /\
  (forall v w o, set_valueKnockout v (set_valueKnockout w o)
                 = set_valueKnockout v o) /\
  (forall v w o, set_valueKnockin v (set_valueKnockin w o)
                 = set_valueKnockin v o) /\
  (forall v w o, set_valueLookback v (set_valueLookback w o)
                 = set_valueLookback v o).
Proof. repeat split. Qed.

(** Take the first statement of a computation that returned. *)
Ltac done_step H :=
  let a := fresh "a" in
  let h1 := fresh "h" in
  let H1 := fresh "Hstep" in
  apply bind_Done in H; destruct H as [a [h1 [H1 H]]];
  first
    [ apply check_Done in H1; destruct H1 as [? ->]
    | apply check_kernel_Done in H1; destruct H1 as [? [? ->]]
    | apply device_malloc_Done in H1; destruct H1 as [? [-> ->]]
    | apply launch_Done in H1; destruct H1 as [? ->]
    | apply copy_back_Done in H1; destruct H1 as [? [-> ->]]
    | apply get_option_Done in H1; destruct H1 as [-> ->]
    | apply guard_Done in H1; destruct H1 as [? ->]
    | apply release_Done in H1; rewrite H1 in *; clear H1
    | apply finish_Done in H1;
      [ rewrite H1 in *; clear H1
      | solve [intros; reflexivity] .. | intros v o; apply (untouched_setters v o) ] ];
  cbn [the_option live freed] in *.

Section PricingEngineProof.

Variable curandState : Type.
Variable curand_init : Z -> Z -> Z -> curandState.
Variable curand_normal : curandState -> Real * curandState.
Variable rt : cuda_runtime.
Variable raw_paths : mem.
Variable raw_rngStates : Z -> curandState.
Variable raw_values : mem.
Variable raw_values2 : mem.
Variable shared : kernel -> Z -> mem.
Variable m_numSims : Z.
Variable m_device : Z.
Variable m_threadBlockSize : Z.
Variable m_seed : Z.

Local Abbreviation run :=
  (PricingEngine_call curandState curand_init curand_normal rt raw_paths
     raw_rngStates raw_values raw_values2 shared m_numSims m_device
     m_threadBlockSize m_seed).

(** The five releases of the cleanup take back the five allocations of the
    pass, and only these. *)
Lemma release_all (held : list buffer) :
  remove_first d_values2
    (remove_first d_values
       (remove_first d_rngStates
          (remove_first d_paths
             (remove_first d_option
                (d_values2 :: d_values :: d_rngStates :: d_paths
                   :: d_option :: held))))) = held.
Proof. reflexivity. Qed.

(** A pass that returns has run the six kernels to completion, stored the
    five discounted means and released the five buffers it allocated; what
    was held before the call is still held. *)
Lemma run_Done (h h' : host) (u : unit) :
  run h = (Done u, h') ->
  let opt := the_option h in
  let grid_x := launch_grid rt m_numSims m_device m_threadBlockSize in
  let block_x := m_threadBlockSize in
  let numTimesteps := uint (static_cast_int (tenor opt / dt opt)) in
  let mean (d : mem) := discounted_mean opt m_numSims (map d (range grid_x)) in
  exists paths pv asian ko ki lb : mem,
    generatePaths curand_normal grid_x block_x opt m_numSims numTimesteps
      (initRNG curand_init grid_x block_x m_seed raw_rngStates) raw_paths
      = Some paths /\
    computeValuePlainVanilla grid_x block_x paths opt m_numSims numTimesteps
      (shared k_computeValuePlainVanilla) raw_values = Some pv /\
    computeValueAsian grid_x block_x paths opt m_numSims numTimesteps
      (shared k_computeValueAsian) pv = Some asian /\
    computeValueKnockoutin grid_x block_x paths opt m_numSims numTimesteps
      (shared k_computeValueKnockoutin) asian raw_values2 = Some (ko, ki) /\
    computeValueLookback grid_x block_x paths opt m_numSims numTimesteps
      (shared k_computeValueLookback) ko = Some lb /\
    the_option h' =
      set_valueLookback (mean lb)
        (set_valueKnockin (mean ki)
           (set_valueKnockout (mean ko)
              (set_valueAsian (mean asian)
                 (set_valuePlainVanilla (mean pv) opt)))) /\
    live h' = live h /\
    freed h' = freed h ++ all_buffers.
Proof.
  intro H. unfold PricingEngine_call in H. unfold launch_grid.
  destruct (cudaGetDeviceProperties rt m_device) as [res props] eqn:Eprops.
  do 24 done_step H.
  match type of H with
  | (let '(_, _) := ?both in _) _ = _ => destruct both as [ko ki]
  end.
  do 11 done_step H.
  apply release_Done in H. subst h'.
  cbn [the_option live freed snd] in *.
  match goal with
  | Hgen : generatePaths _ _ _ _ _ _ _ _ = Some ?paths,
    Hpv : computeValuePlainVanilla _ _ _ _ _ _ _ _ = Some ?pv,
    Hasian : computeValueAsian _ _ _ _ _ _ _ _ = Some ?asian,
    Hko : computeValueKnockoutin _ _ _ _ _ _ _ _ _ = Some _,
    Hlb : computeValueLookback _ _ _ _ _ _ _ _ = Some ?lb |- _ =>
      exists paths, pv, asian, ko, ki, lb;
      split; [exact Hgen|]; split; [exact Hpv|]; split; [exact Hasian|];
      split; [exact Hko|]; split; [exact Hlb|]
  end.
  split; [reflexivity|]. split.
  - apply (release_all (live h)).
  - rewrite <- !app_assoc. reflexivity.
Qed.

(** *** Running forward *)

Lemma bind_returns {A B : Type} (c : M A) (k : A -> M B) (h h1 : host)
    (a : A) (b : B) :
  c h = (Done a, h1) ->
  (exists h', k a h1 = (Done b, h')) ->
  exists h', bind c k h = (Done b, h').
Proof. intros Hc [h' Hk]. exists h'. unfold bind. rewrite Hc. exact Hk. Qed.

Lemma check_ok (cudaResult : Z) (msg : string) (h : host) :
  cudaResult = cudaSuccess -> check rt cudaResult msg h = (Done tt, h).
Proof. intros ->. reflexivity. Qed.

Lemma check_kernel_ok (block_x : Z) (k : kernel) (name : string) (h : host) :
  fst (cudaFuncGetAttributes rt k) = cudaSuccess ->
  block_x <= uint (snd (cudaFuncGetAttributes rt k)) ->
  check_kernel rt block_x k name h = (Done tt, h).
Proof.
  unfold check_kernel. destruct (cudaFuncGetAttributes rt k) as [res maxThreads].
  cbn [fst snd]. intros -> Hfit. unfold bind. cbn.
  destruct (Z.gtb_spec block_x (uint maxThreads)); [lia|reflexivity].
Qed.

Lemma guard_ok (b : bool) (msg : string) (h : host) :
  b = false -> (if b then throw msg else ret tt) h = (Done tt, h).
Proof. intros ->. reflexivity. Qed.

Lemma device_malloc_ok (b : buffer) (msg : string) (h : host) :
  cudaMalloc rt b = cudaSuccess ->
  device_malloc rt b msg h =
  (Done (Some b), mkHost (the_option h) (b :: live h) (freed h)).
Proof. intro Hres. unfold device_malloc. rewrite Hres. reflexivity. Qed.

Lemma launch_ok {A : Type} (result : option A) (a : A) (h : host) :
  result = Some a -> launch result h = (Done a, h).
Proof. intros ->. reflexivity. Qed.

Lemma finish_ok (set : Real -> genericOption -> genericOption)
    (get : genericOption -> Real) (values : list Real) (h : host) :
  (forall v o, get (set v o) = v) ->
  (forall v w o, set v (set w o) = set v o) ->
  (forall v o, untouched o (set v o)) ->
  finish m_numSims set get values h =
  (Done tt,
   mkHost (set (discounted_mean (the_option h) m_numSims values) (the_option h))
     (live h) (freed h)).
Proof.
  intros Hget Hset Hkeep.
  destruct (finish m_numSims set get values h) as [[[]| |] h1] eqn:E;
    try (unfold finish, bind, modify_option in E; discriminate).
  apply finish_Done in E; try assumption. rewrite E. reflexivity.
Qed.

Lemma release_ok (b : buffer) (h : host) :
  release (Some b) h =
  (Done tt,
   mkHost (the_option h) (remove_first b (live h)) (freed h ++ [b])).
Proof. reflexivity. Qed.

Lemma copy_back_ok (t : transfer) (d : mem) (grid_x : Z) (h : host) :
  cudaMemcpy rt t = cudaSuccess ->
  copy_back rt t d grid_x h = (Done (map d (range grid_x)), h).
Proof. intro Hres. unfold copy_back. rewrite Hres. reflexivity. Qed.

(** With a runtime that reports success everywhere, a block size every
    kernel accepts and a launch whose indices do not wrap, the pass
    returns. *)
Lemma run_returns (h : host) :
  fst (cudaGetDeviceProperties rt m_device) = cudaSuccess ->
  real_is_double rt = false ->
  cudaSetDevice rt m_device = cudaSuccess ->
  (forall k, fst (cudaFuncGetAttributes rt k) = cudaSuccess /\
             m_threadBlockSize <= uint (snd (cudaFuncGetAttributes rt k))) ->
  (forall b, cudaMalloc rt b = cudaSuccess) ->
  (forall t, cudaMemcpy rt t = cudaSuccess) ->
  0 < launch_grid rt m_numSims m_device m_threadBlockSize ->
  0 < m_threadBlockSize ->
  0 < m_numSims ->
  m_numSims
  + launch_grid rt m_numSims m_device m_threadBlockSize * m_threadBlockSize
    <= 2 ^ 32 ->
  exists h', run h = (Done tt, h').
Proof.
  unfold launch_grid, PricingEngine_call.
  destruct (cudaGetDeviceProperties rt m_device) as [res props].
  cbn [fst snd]. intros Hprops Hsingle Hdev Hattr Halloc Hcopy Hgrid Hblock Hsims Hwrap.
  set (grid_x := shrink_grid _ _) in *.
  destruct (generatePaths_returns curandState
              curand_normal grid_x m_threadBlockSize (the_option h) m_numSims
              (uint (static_cast_int (tenor (the_option h) / dt (the_option h))))
              (initRNG curand_init grid_x m_threadBlockSize m_seed raw_rngStates)
              raw_paths Hgrid Hblock Hsims Hwrap)
    as [paths Hgen].
  repeat first
    [ eapply bind_returns;
      [ first
          [ apply check_ok; first [assumption | apply Hcopy]
          | apply check_kernel_ok; apply Hattr
          | apply guard_ok; rewrite Hsingle; reflexivity
          | apply device_malloc_ok; apply Halloc
          | apply copy_back_ok; apply Hcopy
          | apply launch_ok; first
              [ exact Hgen
              | apply single_sum_kernel_run; assumption
              | apply knockoutin_kernel_run; assumption ]
          | apply finish_ok;
            [ solve [intros; reflexivity] ..
            | intros v o; apply (untouched_setters v o) ]
          | apply release_ok
          | reflexivity ]
      | cbn [the_option live freed] ]
    | eexists; apply release_ok ].
Qed.

End PricingEngineProof.

(** ** The reference pricer *)

Lemma Int_part_1 : Int_part 1 = 1.
Proof.
  unfold Int_part. rewrite <- (tech_up 1 2); [reflexivity| |]; simpl; lra.
Qed.

(** The serial pricer never reads the type tag: a Put is priced with the
    Call payoff. *)
Lemma serial_pricer_ignores_type (randState : Type)
    (rand : randState -> Z * randState) (RAND_MAX m_numSims : Z) (fuel : nat)
    (opt : genericOption) (t : CallPut) (st : box_muller_state randState) :
  option_map (fun res => valuePlainVanillaCPU (fst res))
    (PricingEngine_index rand RAND_MAX m_numSims fuel (set_type t opt) st) =
  option_map (fun res => valuePlainVanillaCPU (fst res))
    (PricingEngine_index rand RAND_MAX m_numSims fuel opt st).
Proof.
  unfold PricingEngine_index.
  change (serial_paths rand RAND_MAX fuel (set_type t opt))
    with (serial_paths rand RAND_MAX fuel opt).
  cbn [tenor dt set_type].
  destruct (serial_paths rand RAND_MAX fuel opt _ _ _ st) as [[sumVanilla st']|];
    reflexivity.
Qed.

(** The serial recurrence uses the drift and diffusion of the parallel
    simulator. *)
Lemma serial_drift_diffusion (opt : genericOption) :
  MuBydT opt = drift opt /\ VBySqrtdT opt = diffusion opt.
Proof. split; reflexivity. Qed.

Lemma call_payoff_max (St X : Real) :
  (if gtb St X then St - X else 0)%R = Rmax 0 (St - X).
Proof.
  unfold gtb, Rmax. destruct (Rgt_dec St X), (Rle_dec 0 (St - X));
    try reflexivity; lra.
Qed.

Section SerialPricer.

Variable randState : Type.
Variable rand : randState -> Z * randState.
Variable RAND_MAX : Z.
Variable fuel : nat.
Variable opt : genericOption.

(** A serial path is its start times the product of one shock per step. *)
Lemma serial_path_shocks (n : nat) (St St' : Real)
    (st st' : box_muller_state randState) :
  serial_path rand RAND_MAX fuel opt n St st = Some (St', st') ->
  exists zs : list Real,
    List.length zs = n /\
    St' = (St * fold_left (fun p z => p * shock opt z) zs 1)%R.
Proof.
  revert St st. induction n as [|n IH]; intros St st Hrun.
  - cbn [serial_path] in Hrun. inversion Hrun. exists []. split; [reflexivity|].
    cbn [fold_left]. ring.
  - cbn [serial_path] in Hrun.
    destruct (box_muller rand RAND_MAX fuel 0 1 st) as [[rn st1]|];
      [|discriminate].
    apply IH in Hrun. destruct Hrun as [zs [Hlen ->]].
    exists (rn :: zs). split; [cbn; lia|]. cbn [fold_left].
    assert (Hscale : forall l a b,
              fold_left (fun p z => p * shock opt z)%R l (a * b)%R =
              (a * fold_left (fun p z => p * shock opt z)%R l b)%R).
    { induction l as [|z l IHl]; intros a b; cbn [fold_left]; [reflexivity|].
      rewrite <- IHl. f_equal. ring. }
    rewrite <- !Hscale. f_equal. rewrite <- shock_code.
    unfold MuBydT, VBySqrtdT, drift, diffusion. ring.
Qed.

(** The serial sum adds the Call payoff of every final value, whatever the
    type of the option. *)
Lemma serial_paths_call_sum (numtimeSteps : Z) (n : nat) (sumVanilla sum' : Real)
    (st st' : box_muller_state randState) :
  serial_paths rand RAND_MAX fuel opt numtimeSteps n sumVanilla st
    = Some (sum', st') ->
  exists finals : list Real,
    List.length finals = n /\
    (forall F, In F finals ->
       exists zs, List.length zs = Z.to_nat numtimeSteps /\
                  F = (spot opt * fold_left (fun p z => p * shock opt z) zs 1)%R) /\
    sum' = (sumVanilla
            + fold_left Rplus (map (fun F => Rmax 0 (F - strike opt)) finals) 0)%R.
Proof.
  revert sumVanilla st. induction n as [|n IH]; intros sumVanilla st Hrun.
  - cbn [serial_paths] in Hrun. inversion Hrun. exists [].
    split; [reflexivity|]. split; [intros F HF; destruct HF|].
    cbn [map fold_left]. ring.
  - cbn [serial_paths] in Hrun.
    destruct (serial_path rand RAND_MAX fuel opt (Z.to_nat numtimeSteps)
                (spot opt) st) as [[St st1]|] eqn:Epath; [|discriminate].
    apply serial_path_shocks in Epath.
    apply IH in Hrun. destruct Hrun as [finals [Hlen [Hfinals ->]]].
    exists (St :: finals). split; [cbn; lia|]. split.
    + intros F [<-|HF]; [exact Epath | apply Hfinals, HF].
    + cbn [map fold_left]. rewrite call_payoff_max.
      rewrite (fold_plus_start _ (0 + _)). ring.
Qed.

(** What the serial pricer stores: the discounted mean of the Call payoffs
    of the simulated final values. *)
Lemma serial_pricer_value (m_numSims : Z) (st st' : box_muller_state randState)
    (o' : genericOption) :
  PricingEngine_index rand RAND_MAX m_numSims fuel opt st = Some (o', st') ->
  exists finals : list Real,
    List.length finals = Z.to_nat m_numSims /\
    valuePlainVanillaCPU o' =
    discounted_mean opt m_numSims
      (map (fun F => Rmax 0 (F - strike opt)) finals).
Proof.
  unfold PricingEngine_index.
  destruct (serial_paths rand RAND_MAX fuel opt _ _ _ st)
    as [[sumVanilla st1]|] eqn:Epaths; [|discriminate].
  intro H. inversion H. subst. apply serial_paths_call_sum in Epaths.
  destruct Epaths as [finals [Hlen [_ ->]]].
  exists finals. split; [exact Hlen|].
  cbn [valuePlainVanillaCPU set_valuePlainVanillaCPU]. unfold discounted_mean.
  replace (- r opt * tenor opt)%R with (- (r opt * tenor opt))%R by ring.
  unfold Rdiv. ring.
Qed.

End SerialPricer.

(** One draw of the sample generator: [x1 = x2 = 0.5], accepted at once. *)
Lemma fixed_rand_draw (s : unit) :
  box_muller_pair fixed_rand 4 1 s = Some (0.5, 0.5, 0.5, s)%R.
Proof.
  cbn [box_muller_pair fixed_rand]. unfold to_real.
  destruct (Rge_dec _ 1) as [Hge|Hlt]; [exfalso; lra|].
  repeat f_equal; lra.
Qed.

(** The sample run of the serial pricer on [steady_put]. *)
Lemma steady_put_serial_run :
  PricingEngine_index fixed_rand 4 1 1 steady_put (mkBoxMuller 0%R false tt) =
  Some (set_valuePlainVanillaCPU 0%R steady_put,
        mkBoxMuller (0.5 * sqrt (-2 * ln 0.5 / 0.5))%R true tt).
Proof.
  unfold PricingEngine_index.
  assert (Hsteps : static_cast_int (tenor steady_put / dt steady_put) = 1).
  { unfold static_cast_int, steady_put. cbn [tenor dt].
    replace (1 / 1)%R with 1%R by lra.
    destruct (Rle_dec 0 1); [apply Int_part_1 | lra]. }
  rewrite Hsteps. change (Z.to_nat 1) with 1%nat.
  cbn [serial_paths]. change (Z.to_nat 1) with 1%nat.
  cbn [serial_path box_muller use_last rand_state].
  rewrite fixed_rand_draw.
  assert (Hstep : (MuBydT steady_put
                   + VBySqrtdT steady_put
                     * (0 + 0.5 * sqrt (-2 * ln 0.5 / 0.5) * 1) = 0)%R).
  { unfold MuBydT, VBySqrtdT, steady_put. cbn [r sigma dt]. ring. }
  rewrite Hstep, exp_0. unfold gtb, steady_put. cbn [spot strike r tenor].
  destruct (Rgt_dec (30 * 1) 35) as [Hgt|_]; [exfalso; lra|].
  unfold set_valuePlainVanillaCPU, to_real. cbn.
  repeat f_equal. replace (- 0 * 1)%R with 0%R by ring. rewrite exp_0. lra.
Qed.

(** C3 (code at the failing input): for the Put [steady_put] the single
    simulated path keeps the final value 30; the serial pricer stores
    [valuePlainVanillaCPU = 0] (the Call payoff), where the Plain-Vanilla
    payoff of the parallel evaluator for the same final value is
    [max(0, 35 - 30) = 5]. *)
Theorem serial_pricer_prices_put_as_call :
  option_map (fun res => valuePlainVanillaCPU (fst res))
    (PricingEngine_index fixed_rand 4 1 1 steady_put (mkBoxMuller 0%R false tt))
  = Some 0%R /\
  finalValue (flat_paths 1) steady_put 1 0 1 = 30%R /\
  discounted_mean steady_put 1
    [plainvanilla_payoff (flat_paths 1) steady_put 1 1 0] = 5%R.
Proof.
  rewrite steady_put_serial_run. split; [reflexivity|].
  rewrite plainvanilla_payoff_vanilla.
  unfold finalValue, discounted_mean. rewrite flat_entries.
  change (Z.to_nat 1) with 1%nat. cbn [repeat last fold_left].
  unfold steady_put, to_real. cbn [spot strike r tenor type].
  split; [lra|].
  replace (- (0 * 1))%R with 0%R by ring. rewrite exp_0.
  unfold vanilla. cbn [type strike]. real_cases.
Qed.

(** ** The pricing pass: results, frame and buffers *)

Lemma sample_pass_returns :
  exists h', sample_pass good_runtime sample_host = (Done tt, h').
Proof.
  unfold sample_pass. apply run_returns; try reflexivity.
  - intro k. split; [reflexivity|]. vm_compute. discriminate.
  - vm_compute. discriminate.
Qed.

(** The same from any host state, whatever is held already. *)
Lemma sample_pass_returns_from (h : host) :
  exists h', sample_pass good_runtime h = (Done tt, h').
Proof.
  unfold sample_pass. apply run_returns; try reflexivity.
  - intro k. split; [reflexivity|]. vm_compute. discriminate.
  - vm_compute. discriminate.
Qed.

Lemma sample_pass_throws :
  sample_pass failing_copy_runtime sample_host =
  (Throw "Could not copy data to device: unspecified failure",
   mkHost sample_call [d_option] []).
Proof. reflexivity. Qed.

Section PricingPass.

Variable curandState : Type.
Variable curand_init : Z -> Z -> Z -> curandState.
Variable curand_normal : curandState -> Real * curandState.
Variable rt : cuda_runtime.
Variable raw_paths : mem.
Variable raw_rngStates : Z -> curandState.
Variable raw_values : mem.
Variable raw_values2 : mem.
Variable shared : kernel -> Z -> mem.
Variable m_numSims : Z.
Variable m_device : Z.
Variable m_threadBlockSize : Z.
Variable m_seed : Z.

Local Abbreviation run :=
  (PricingEngine_call curandState curand_init curand_normal rt raw_paths
     raw_rngStates raw_values raw_values2 shared m_numSims m_device
     m_threadBlockSize m_seed).

(** C6 (amended): when the pass returns normally every device buffer it
    allocated (option parameters, path matrix, RNG states, both partial-sum
    buffers) has been released, and exactly these: the allocations held
    before the call, such as one an earlier failed pass left behind, are
    still held.  When it throws, the error reaches the caller with nothing
    released: the buffers allocated so far stay allocated. *)
Theorem buffers_released_on_return_only (h h' : host) :
  (forall u, run h = (Done u, h') ->
     live h' = live h /\ freed h' = freed h ++ all_buffers) /\
  (forall msg, run h = (Throw msg, h') ->
     freed h' = freed h /\ exists held, live h' = held ++ live h).
Proof.
  split.
  - intros u Hrun. apply run_Done in Hrun. cbn zeta in Hrun.
    destruct Hrun as (paths & pv & asian & ko & ki & lb & Hrun).
    destruct Hrun as (_ & _ & _ & _ & _ & _ & Hlive & Hfreed).
    split; assumption.
  - intros msg Hrun.
    pose proof (run_throws_holding curandState curand_init curand_normal rt
                  raw_paths raw_rngStates raw_values raw_values2 shared
                  m_numSims m_device m_threadBlockSize m_seed h msg) as Hq.
    rewrite Hrun in Hq. apply Hq. reflexivity.
Qed.

(** C8: in a pass that returns, every result field holds exactly the sum of
    the per-block partial sums its kernel left in the device buffer, divided
    by the number of paths and multiplied by [exp(-r * tenor)]. *)
Theorem host_finish_is_discounted_mean (h h' : host) (u : unit) :
  run h = (Done u, h') ->
  let opt := the_option h in
  let grid_x := launch_grid rt m_numSims m_device m_threadBlockSize in
  let block_x := m_threadBlockSize in
  let numTimesteps := uint (static_cast_int (tenor opt / dt opt)) in
  let mean (d : mem) := discounted_mean opt m_numSims (map d (range grid_x)) in
  exists paths pv asian ko ki lb : mem,
    generatePaths curand_normal grid_x block_x opt m_numSims numTimesteps
      (initRNG curand_init grid_x block_x m_seed raw_rngStates) raw_paths
      = Some paths /\
    computeValuePlainVanilla grid_x block_x paths opt m_numSims numTimesteps
      (shared k_computeValuePlainVanilla) raw_values = Some pv /\
    computeValueAsian grid_x block_x paths opt m_numSims numTimesteps
      (shared k_computeValueAsian) pv = Some asian /\
    computeValueKnockoutin grid_x block_x paths opt m_numSims numTimesteps
      (shared k_computeValueKnockoutin) asian raw_values2 = Some (ko, ki) /\
    computeValueLookback grid_x block_x paths opt m_numSims numTimesteps
      (shared k_computeValueLookback) ko = Some lb /\
    valuePlainVanilla (the_option h') = mean pv /\
    valueAsian (the_option h') = mean asian /\
    valueKnockout (the_option h') = mean ko /\
    valueKnockin (the_option h') = mean ki /\
    valueLookback (the_option h') = mean lb.
Proof.
  intros Hrun opt grid_x block_x numTimesteps mean.
  apply run_Done in Hrun. cbn zeta in Hrun.
  destruct Hrun as (paths & pv & asian & ko & ki & lb & Hrun).
  destruct Hrun as (Hgen & Hpv & Hasian & Hknock & Hlb & Hopt & _).
  exists paths, pv, asian, ko, ki, lb.
  repeat (split; [assumption|]).
  rewrite Hopt. repeat split.
Qed.

End PricingPass.

(** C6 (the claim fails): when the copy of the option to the device fails,
    the pass throws while the option buffer, already allocated, is still
    allocated and nothing has been released. *)
Lemma failed_copy_leaves_option_buffer_allocated :
  exists msg h',
    sample_pass failing_copy_runtime sample_host = (Throw msg, h') /\
    live h' = [d_option] /\ freed h' = [].
Proof.
  exists "Could not copy data to device: unspecified failure"%string.
  exists (mkHost sample_call [d_option] []).
  split; [exact sample_pass_throws|]. split; reflexivity.
Qed.

(** A pass whose copy of the option fails leaves the option buffer held;
    the pass that succeeds after it releases its own five buffers and
    leaves that one held. *)
Lemma buffers_released_on_return_only_witness :
  (exists h',
     sample_pass good_runtime (mkHost sample_call [d_option] [])
       = (Done tt, h') /\
     live h' = [d_option] /\ freed h' = [] ++ all_buffers) /\
  (freed (mkHost sample_call [d_option] []) = freed sample_host /\
   exists held, live (mkHost sample_call [d_option] []) = held ++ live sample_host).
Proof.
  split.
  - destruct (sample_pass_returns_from (mkHost sample_call [d_option] []))
      as [h' Hrun].
    exists h'. split; [exact Hrun|].
    exact (proj1 (buffers_released_on_return_only nat (fun _ _ _ => 0%nat)
                    zero_normal good_runtime (fun _ => 0%R) (fun _ => 0%nat)
                    (fun _ => 0%R) (fun _ => 0%R) (fun _ _ _ => 0%R)
                    4 0 2 1234 (mkHost sample_call [d_option] []) h')
             tt Hrun).
  - exact (proj2 (buffers_released_on_return_only nat (fun _ _ _ => 0%nat)
                    zero_normal failing_copy_runtime (fun _ => 0%R)
                    (fun _ => 0%nat) (fun _ => 0%R) (fun _ => 0%R)
                    (fun _ _ _ => 0%R) 4 0 2 1234 sample_host
                    (mkHost sample_call [d_option] []))
             _ sample_pass_throws).
Defined.

Lemma host_finish_is_discounted_mean_witness :
  exists h',
    sample_pass good_runtime sample_host = (Done tt, h') /\
    exists pv asian ko ki lb : mem,
      valuePlainVanilla (the_option h') =
        discounted_mean sample_call 4 (map pv (range 2)) /\
      valueAsian (the_option h') =
        discounted_mean sample_call 4 (map asian (range 2)) /\
      valueKnockout (the_option h') =
        discounted_mean sample_call 4 (map ko (range 2)) /\
      valueKnockin (the_option h') =
        discounted_mean sample_call 4 (map ki (range 2)) /\
      valueLookback (the_option h') =
        discounted_mean sample_call 4 (map lb (range 2)).
Proof.
  destruct sample_pass_returns as [h' Hrun]. exists h'.
  split; [exact Hrun|].
  destruct (host_finish_is_discounted_mean nat (fun _ _ _ => 0%nat)
              zero_normal good_runtime (fun _ => 0%R) (fun _ => 0%nat)
              (fun _ => 0%R) (fun _ => 0%R) (fun _ _ _ => 0%R)
              4 0 2 1234 sample_host h' tt Hrun)
    as (paths & pv & asian & ko & ki & lb & _ & _ & _ & _ & _ & Hfields).
  exists pv, asian, ko, ki, lb. exact Hfields.
Defined.

(** C10: whatever way a parallel pricing pass ends, the contract parameters
    (spot, strike, r, sigma, tenor, dt, barrier, type) and the fields
    [golden], [valuePlainVanillaCPU] and [valueALK] of the option are as
    before: only the five value fields are written.  The serial pricer in
    turn writes [valuePlainVanillaCPU] only, so no pricing component ever
    assigns [valueALK]. *)
Theorem pricing_writes_only_its_value_fields :
  (forall (curandState : Type) (curand_init : Z -> Z -> Z -> curandState)
     (curand_normal : curandState -> Real * curandState) (rt : cuda_runtime)
     (raw_paths : mem) (raw_rngStates : Z -> curandState)
     (raw_values raw_values2 : mem) (shared : kernel -> Z -> mem)
     (m_numSims m_device m_threadBlockSize m_seed : Z) (h : host),
     untouched (the_option h)
       (the_option
          (snd (PricingEngine_call curandState curand_init curand_normal rt
                  raw_paths raw_rngStates raw_values raw_values2 shared
                  m_numSims m_device m_threadBlockSize m_seed h)))) /\
  (forall (randState : Type) (rand : randState -> Z * randState)
     (RAND_MAX m_numSims : Z) (fuel : nat) (opt o' : genericOption)
     (st st' : box_muller_state randState),
     PricingEngine_index rand RAND_MAX m_numSims fuel opt st = Some (o', st') ->
     o' = set_valuePlainVanillaCPU (valuePlainVanillaCPU o') opt /\
     valueALK o' = valueALK opt).
Proof.
  split.
  - intros. apply run_keeps_contract.
  - intros randState rand RAND_MAX m_numSims fuel opt o' st st'.
    unfold PricingEngine_index.
    destruct (serial_paths rand RAND_MAX fuel opt _ _ _ st)
      as [[sumVanilla st1]|]; [|discriminate].
    intro H. inversion H. subst. split; reflexivity.
Qed.

Lemma pricing_writes_only_its_value_fields_witness :
  untouched sample_call
    (the_option (snd (sample_pass good_runtime sample_host))) /\
  valueALK (set_valuePlainVanillaCPU 0%R steady_put) = valueALK steady_put.
Proof.
  split.
  - exact (proj1 pricing_writes_only_its_value_fields nat (fun _ _ _ => 0%nat)
             zero_normal good_runtime (fun _ => 0%R) (fun _ => 0%nat)
             (fun _ => 0%R) (fun _ => 0%R) (fun _ _ _ => 0%R)
             4 0 2 1234 sample_host).
  - exact (proj2 (proj2 pricing_writes_only_its_value_fields unit fixed_rand
                    4 1 1%nat steady_put _ _ _ steady_put_serial_run)).
Defined.

(** ** Knockout plus knockin against Plain Vanilla *)

(** A launch of one block of one thread over one path. *)
Lemma one_thread_paths : thread_paths 1 1 1 (0 * 1 + 0) = [0].
Proof. reflexivity. Qed.

Lemma one_thread_total (payoff : Z -> Real) (sdata : mem) :
  reduce_sum 1 (map (lane_total 1 1 1 payoff 0) (range 1)) sdata = payoff 0.
Proof.
  rewrite (reduce_sum_pow2 0) by reflexivity.
  change (range 1) with [0]. cbn [map fold_left]. unfold lane_total.
  rewrite one_thread_paths. cbn [fold_left]. ring.
Qed.

Lemma one_thread_single_sum (payoff : Z -> Real) (shared : Z -> mem)
    (values : mem) :
  exists values',
    run_blocks 1 (single_sum_block 1 1 1 shared payoff) values = Some values' /\
    map values' (range 1) = [payoff 0].
Proof.
  eexists. split.
  - apply single_sum_kernel_run; lia || (vm_compute; discriminate).
  - change (range 1) with [0]. cbn [map fold_left].
    rewrite store_lane0_slots by lia. rewrite Z.eqb_refl.
    unfold block_total. rewrite one_thread_total. reflexivity.
Qed.

Lemma one_thread_knockoutin (paths : mem) (opt : genericOption)
    (numTimesteps : Z) (shared : Z -> mem) (valuesko valueski : mem) :
  exists ko ki,
    computeValueKnockoutin 1 1 paths opt 1 numTimesteps shared valuesko valueski
      = Some (ko, ki) /\
    map ko (range 1) = [fst (knockoutin_payoff paths opt 1 numTimesteps 0)] /\
    map ki (range 1) = [snd (knockoutin_payoff paths opt 1 numTimesteps 0)].
Proof.
  eexists. eexists. split.
  - apply knockoutin_kernel_run; lia || (vm_compute; discriminate).
  - change (range 1) with [0]. cbn [map fold_left].
    rewrite !store_lane0_slots by lia. rewrite Z.eqb_refl.
    rewrite (one_thread_total
               (fun i => fst (knockoutin_payoff paths opt 1 numTimesteps i))).
    rewrite (one_thread_total
               (fun i => snd (knockoutin_payoff paths opt 1 numTimesteps i))).
    split; reflexivity.
Qed.

(** C2 (code at the failing input): for the Put contract of the samples and
    one path that never crosses the barrier (40 * 1 = 40 <= 45), the
    Plain-Vanilla and knockout values are 0 while the knockin value is
    [35 * exp(-r * tenor)]: knockout plus knockin differs from Plain
    Vanilla, and knockin is not 0 although the barrier is never crossed. *)
Theorem knock_values_of_put_exceed_plainvanilla (shared : Z -> mem)
    (values values2 : mem) :
  exists pv ko ki : mem,
    computeValuePlainVanilla 1 1 (flat_paths 1) sample_put 1 1 shared values
      = Some pv /\
    computeValueKnockoutin 1 1 (flat_paths 1) sample_put 1 1 shared
      values values2 = Some (ko, ki) /\
    breached (flat_paths 1) sample_put 1 0 1 = false /\
    discounted_mean sample_put 1 (map pv (range 1)) = 0%R /\
    discounted_mean sample_put 1 (map ko (range 1)) = 0%R /\
    discounted_mean sample_put 1 (map ki (range 1))
      = (35 * exp (- (0.03 * (1 / 3))))%R /\
    (discounted_mean sample_put 1 (map ko (range 1))
     + discounted_mean sample_put 1 (map ki (range 1))
     <> discounted_mean sample_put 1 (map pv (range 1)))%R.
Proof.
  destruct (one_thread_single_sum
              (plainvanilla_payoff (flat_paths 1) sample_put 1 1) shared values)
    as [pv [Hpv Hpv0]].
  destruct (one_thread_knockoutin (flat_paths 1) sample_put 1 shared
              values values2)
    as [ko [ki [Hknock [Hko0 Hki0]]]].
  exists pv, ko, ki.
  split; [exact Hpv|]. split; [exact Hknock|].
  rewrite Hpv0, Hko0, Hki0.
  rewrite knockoutin_payoff_conditional, plainvanilla_payoff_vanilla.
  assert (Hnot : breached (flat_paths 1) sample_put 1 0 1 = false).
  { unfold breached. rewrite flat_entries. cbn [repeat existsb].
    unfold sample_put. real_cases. }
  change (Z.to_nat 1) with 1%nat. rewrite Hnot. cbn [fst snd].
  unfold discounted_mean, finalValue. rewrite flat_entries.
  change (Z.to_nat 1) with 1%nat. cbn [repeat last fold_left].
  assert (Hvan : vanilla sample_put (1 * spot sample_put) = 0%R)
    by (unfold sample_put; real_cases).
  assert (Hzero : vanilla sample_put 0 = 35%R)
    by (unfold sample_put; real_cases).
  rewrite Hvan, Hzero.
  change (r sample_put) with 0.03%R. change (tenor sample_put) with (1 / 3)%R.
  pose proof (exp_pos (- (0.03 * (1 / 3)))) as Hexp.
  set (discount := exp (- (0.03 * (1 / 3)))) in *.
  unfold to_real.
  split; [reflexivity|]. repeat split; try lra.
Qed.
(** * Further properties of the kernels, the pricing pass and the reference pricer *)

(** ** Grid-stride loops, launch geometry and seeding *)

Lemma stride_indices_progression (fuel : nat) (i step numSims : Z) :
  0 < step -> (Z.to_nat (numSims - i) < fuel)%nat ->
  stride_indices fuel i step numSims =
  map (fun m => i + Z.of_nat m * step)
    (seq 0 (Z.to_nat ((numSims - i + step - 1) / step))).
Proof.
  intro Hstep. revert i. induction fuel as [|fuel IH]; intros i Hfuel; [lia|].
  cbn [stride_indices]. destruct (Z.ltb_spec i numSims) as [Hlt|Hge].
  - replace (numSims - i + step - 1)
      with (numSims - (i + step) + step - 1 + 1 * step) by lia.
    rewrite Z.div_add by lia.
    assert (Hq : 0 <= (numSims - (i + step) + step - 1) / step)
      by (apply Z.div_pos; lia).
    rewrite Z2Nat.inj_add by lia. change (Z.to_nat 1) with 1%nat.
    rewrite Nat.add_1_r. cbn [seq map]. rewrite <- seq_shift, map_map.
    rewrite IH by lia. f_equal; [lia|].
    apply map_ext. intro m. lia.
  - assert (Hq : (numSims - i + step - 1) / step < 1)
      by (apply Z.div_lt_upper_bound; lia).
    replace (Z.to_nat ((numSims - i + step - 1) / step)) with 0%nat by lia.
    reflexivity.
Qed.

(** X1: as long as [i += step] cannot wrap ([numSims + step <= 2^32]), the
    loop [for (i = tid ; i < numSims ; i += step)] of a kernel thread
    terminates and runs its body on [tid, tid + step, tid + 2 * step, ...],
    in this order: on the [ceil((numSims - tid) / step)] indices of the
    thread's residue class that lie below [numSims], and on nothing else. *)
Theorem grid_stride_visits_own_progression {A : Type} (body : Z -> A -> A)
    (tid step numSims : Z) (acc : A) :
  0 <= tid -> 0 < step -> numSims + step <= 2 ^ 32 ->
  grid_stride (loop_budget numSims) tid step numSims body acc =
  Some (fold_left (fun acc i => body i acc)
          (map (fun m => tid + Z.of_nat m * step)
             (seq 0 (Z.to_nat ((numSims - tid + step - 1) / step))))
          acc).
Proof.
  intros Htid Hstep Hwrap.
  assert (Hfuel : (Z.to_nat (numSims - tid) < loop_budget numSims)%nat)
    by (unfold loop_budget; lia).
  rewrite grid_stride_fold by assumption.
  rewrite stride_indices_progression by assumption. reflexivity.
Qed.

Lemma grid_stride_visits_own_progression_witness :
  grid_stride (loop_budget 10) 1 4 10 (fun i acc => acc ++ [i]) [] =
  Some [1; 5; 9].
Proof.
  exact (grid_stride_visits_own_progression (fun i acc => acc ++ [i]) 1 4 10 []
           ltac:(lia) ltac:(lia) ltac:(lia)).
Defined.

Lemma grid_stride_more_fuel {A : Type} (body : Z -> A -> A) (fuel : nat)
    (i step numSims : Z) (acc acc' : A) :
  grid_stride fuel i step numSims body acc = Some acc' ->
  forall extra : nat,
    grid_stride (fuel + extra) i step numSims body acc = Some acc'.
Proof.
  revert i acc. induction fuel as [|fuel IH]; intros i acc Hrun extra.
  - discriminate.
  - cbn [grid_stride Nat.add] in *.
    destruct (i <? numSims); [apply IH, Hrun|exact Hrun].
Qed.

(** X2: with the wrap-around of the unsigned index, the loop of a kernel
    thread either finishes within [numSims + 1] iterations, with a result
    that no longer depends on the budget, or it never finishes: an index
    that is still below [numSims] after [numSims + 1] iterations has come
    back to one it visited before. *)
Theorem grid_stride_finishes_in_budget_or_never {A : Type}
    (body : Z -> A -> A) (tid step numSims : Z) (acc : A) :
  0 <= tid ->
  (exists acc',
     forall fuel, (loop_budget numSims <= fuel)%nat ->
       grid_stride fuel tid step numSims body acc = Some acc') \/
  (forall fuel, grid_stride fuel tid step numSims body acc = None).
Proof.
  intro Htid.
  destruct (grid_stride (loop_budget numSims) tid step numSims body acc)
    as [acc'|] eqn:Erun.
  - left. exists acc'. intros fuel Hfuel.
    replace fuel with (loop_budget numSims + (fuel - loop_budget numSims))%nat
      by lia.
    apply grid_stride_more_fuel, Erun.
  - right. apply budget_exact; assumption.
Qed.

(** A stride of 0 (a thread count that is a multiple of 2^32): the thread
    that owns path 0 never leaves it. *)
Lemma grid_stride_finishes_in_budget_or_never_witness :
  0 <= 0 /\
  forall fuel, grid_stride fuel 0 0 1 (fun (_ : Z) (n : nat) => S n) 0%nat = None.
Proof.
  split; [lia|].
  destruct (grid_stride_finishes_in_budget_or_never
              (fun (_ : Z) (n : nat) => S n) 0 0 1 0%nat ltac:(lia))
    as [[acc' Hdone]|Hnever].
  - specialize (Hdone (loop_budget 1) (le_n _)). discriminate Hdone.
  - exact Hnever.
Defined.

Lemma initRNG_seeds_witness :
  initRNG (fun seed tid offset => (seed, tid, offset)) 2 2 1234
    (fun _ => (0, 0, 0)) 3 = (1234, 3, 0) /\
  initRNG (fun seed tid offset => (seed, tid, offset)) 2 2 1234
    (fun _ => (0, 0, 0)) 4 = (0, 0, 0).
Proof.
  split.
  - exact (initRNG_seeds (Z * Z * Z) (fun seed tid offset => (seed, tid, offset))
             2 2 1234 (fun _ => (0, 0, 0)) 3 ltac:(lia) ltac:(lia)).
  - exact (initRNG_seeds (Z * Z * Z) (fun seed tid offset => (seed, tid, offset))
             2 2 1234 (fun _ => (0, 0, 0)) 4 ltac:(lia) ltac:(lia)).
Defined.

(** ** Path generation: what is written, and where *)

(** Whatever holds before a grid-stride loop and is kept by its body on the
    indices below [numSims] holds when the loop ends. *)
Lemma grid_stride_invariant {A : Type} (P : A -> Prop) (body : Z -> A -> A)
    (fuel : nat) (i step numSims : Z) (acc acc' : A) :
  0 <= i ->
  (forall j a, 0 <= j < numSims -> P a -> P (body j a)) ->
  P acc ->
  grid_stride fuel i step numSims body acc = Some acc' -> P acc'.
Proof.
  intros Hi Hbody. revert i acc Hi.
  induction fuel as [|fuel IH]; intros i acc Hi Hacc Hrun; [discriminate|].
  cbn [grid_stride] in Hrun. destruct (Z.ltb_spec i numSims) as [Hlt|Hge].
  - apply (IH (uint (i + step)) (body i acc)).
    + unfold uint. apply Z.mod_pos_bound. lia.
    + apply Hbody; [lia|exact Hacc].
    + exact Hrun.
  - inversion Hrun. subst. exact Hacc.
Qed.

(** The inner loop writes at [output + t * numSims] for the steps [t] it
    runs, and nowhere else. *)
Lemma simulate_path_writes (curandState : Type)
    (curand_normal : curandState -> Real * curandState) (opt : genericOption)
    (numSims : Z) (n : nat) (output : Z) (s : Real) (st : curandState)
    (paths : mem) (a : Z) :
  (forall u, (u < n)%nat -> a <> output + Z.of_nat u * numSims) ->
  fst (simulate_path curand_normal opt numSims n output s st paths) a = paths a.
Proof.
  revert output s st paths.
  induction n as [|n IH]; intros output s st paths Ha; [reflexivity|].
  cbn [simulate_path]. unfold getPathStep.
  destruct (curand_normal st) as [z st1]. rewrite IH.
  - apply upd_other. specialize (Ha 0%nat ltac:(lia)). lia.
  - intros u Hu. specialize (Ha (S u) ltac:(lia)). lia.
Qed.

Lemma generatePaths_thread_frame (curandState : Type)
    (curand_normal : curandState -> Real * curandState)
    (gridDim blockDim : Z) (opt : genericOption) (numSims numTimesteps : Z)
    (rngStates : Z -> curandState) (paths paths1 : mem) (tid a : Z) :
  0 <= tid ->
  generatePaths_thread curand_normal gridDim blockDim opt numSims numTimesteps
    rngStates paths tid = Some paths1 ->
  a < 0 \/ numSims * Z.max 0 numTimesteps <= a ->
  paths1 a = paths a.
Proof.
  intros Htid Hrun Ha. unfold generatePaths_thread in Hrun.
  destruct (grid_stride _ _ _ _ _ _) as [[paths' st']|] eqn:Eloop;
    [|discriminate].
  inversion Hrun. subst paths'.
  apply (grid_stride_invariant
           (fun acc : mem * curandState => fst acc a = paths a))
    in Eloop; [exact Eloop|exact Htid| |reflexivity].
  intros j [pathsj stj] Hj Hacc. cbn [fst] in Hacc.
  unfold generatePaths_body. rewrite simulate_path_writes; [exact Hacc|].
  intros u Hu. nia.
Qed.

(** X4: whenever [generatePaths] runs to completion, whatever the launch
    configuration, every cell outside the [numSims * numTimesteps] cells of
    the path matrix holds what it held before: the kernel never writes
    below [paths] or past the end of the matrix (with no time step it
    writes nothing at all). *)
Theorem generatePaths_writes_inside_matrix (curandState : Type)
    (curand_normal : curandState -> Real * curandState)
    (gridDim blockDim : Z) (opt : genericOption) (numSims numTimesteps : Z)
    (rngStates : Z -> curandState) (paths0 paths : mem) :
  generatePaths curand_normal gridDim blockDim opt numSims numTimesteps
    rngStates paths0 = Some paths ->
  forall a, a < 0 \/ numSims * Z.max 0 numTimesteps <= a -> paths a = paths0 a.
Proof.
  unfold generatePaths. intros Hrun a Ha.
  assert (Htids : forall tid, In tid (threads gridDim blockDim) -> 0 <= tid).
  { intros tid Hin. unfold threads in Hin. apply in_flat_map in Hin.
    destruct Hin as [bid [_ Hin]]. apply in_map_iff in Hin.
    destruct Hin as [ltid [<- _]]. unfold global_tid, uint.
    apply Z.mod_pos_bound. lia. }
  revert paths0 Hrun Htids.
  induction (threads gridDim blockDim) as [|tid tids IH];
    intros paths0 Hrun Htids.
  - inversion Hrun. reflexivity.
  - cbn [fold_left] in Hrun.
    destruct (generatePaths_thread curand_normal gridDim blockDim opt numSims
                numTimesteps rngStates paths0 tid) as [paths1|] eqn:Ethread.
    + rewrite (IH paths1 Hrun) by (intros t Ht; apply Htids; right; exact Ht).
      apply (generatePaths_thread_frame _ _ _ _ _ _ _ _ _ _ tid a
               (Htids tid (or_introl eq_refl)) Ethread Ha).
    + exfalso. clear - Hrun. induction tids as [|t tids IHt]; [discriminate|].
      apply IHt. exact Hrun.
Qed.

Lemma generatePaths_writes_inside_matrix_witness :
  exists paths,
    generatePaths zero_normal 1 2 sample_call 3 2 (fun _ => 0%nat)
      (fun _ => 7%R) = Some paths /\
    paths (-1) = 7%R /\ paths 6 = 7%R.
Proof.
  destruct (generatePaths_returns nat zero_normal 1 2 sample_call 3 2
              (fun _ => 0%nat) (fun _ => 7%R)
              ltac:(lia) ltac:(lia) ltac:(lia) ltac:(lia))
    as [paths Hrun].
  exists paths. split; [exact Hrun|]. split.
  - apply (generatePaths_writes_inside_matrix nat zero_normal 1 2 sample_call
             3 2 (fun _ => 0%nat) (fun _ => 7%R) paths Hrun (-1)).
    left. lia.
  - apply (generatePaths_writes_inside_matrix nat zero_normal 1 2 sample_call
             3 2 (fun _ => 0%nat) (fun _ => 7%R) paths Hrun 6).
    right. lia.
Defined.


(** ** Block reduction with any block size *)

Lemma reduce_phase_agree (blockDim s n : Z) (a b : mem) :
  0 < s -> 0 <= blockDim -> 2 * s <= n ->
  (forall j, 0 <= j < n -> a j = b j) ->
  forall j, 0 <= j < n ->
    reduce_phase blockDim s a j = reduce_phase blockDim s b j.
Proof.
  intros Hs Hblock Hfit Hab j Hj. rewrite !reduce_phase_slots by assumption.
  destruct (Z.leb_spec 0 j); destruct (Z.ltb_spec j s);
    destruct (Z.ltb_spec j blockDim); cbn [andb]; try lia;
    try (apply Hab; lia).
  rewrite (Hab j), (Hab (j + s)) by lia. reflexivity.
Qed.

Lemma reduce_steps_agree (blockDim : Z) (p : positive) (n : Z) (a b : mem) :
  0 <= blockDim -> 2 * Zpos p <= n ->
  (forall j, 0 <= j < n -> a j = b j) ->
  forall j, 0 <= j < n ->
    reduce_steps blockDim p a j = reduce_steps blockDim p b j.
Proof.
  intro Hblock. revert a b.
  induction p as [p IH|p IH|]; intros a b Hfit Hab; cbn [reduce_steps].
  - apply IH; [lia|]. apply reduce_phase_agree; [lia|lia|lia|exact Hab].
  - apply IH; [lia|]. apply reduce_phase_agree; [lia|lia|lia|exact Hab].
  - apply reduce_phase_agree; [lia|lia|lia|exact Hab].
Qed.

(** X6: for every block size of at least 2, power of two or not, the sum
    that [reduce_sum] returns is determined by the arguments of the lanes
    below [2 * (blockDim / 2)]: it does not depend on what the shared
    buffer held before the call, and with an odd block size the argument
    of the last lane never reaches it. *)
Theorem reduce_sum_reads_paired_lanes_only (blockDim : Z) (f g : Z -> Real)
    (sd1 sd2 : mem) :
  2 <= blockDim ->
  (forall j, 0 <= j < 2 * (blockDim / 2) -> f j = g j) ->
  reduce_sum blockDim (map f (range blockDim)) sd1 =
  reduce_sum blockDim (map g (range blockDim)) sd2.
Proof.
  intros Hblock Hfg. unfold reduce_sum, reduce_shared.
  pose proof (Z.mul_div_le blockDim 2 ltac:(lia)) as Hhalf.
  assert (Hpos : 0 < blockDim / 2) by (apply Z.div_str_pos; lia).
  destruct (blockDim / 2) as [|p|p] eqn:Ehalf; try lia.
  cbn [reduce_loop].
  apply (reduce_steps_agree blockDim p (2 * Zpos p)); try lia.
  intros j Hj. rewrite !stored_lane_values by lia. apply Hfg, Hj.
Qed.

Lemma reduce_sum_reads_paired_lanes_only_witness :
  reduce_sum 3 (map (fun j => if j =? 2 then 3%R else 1%R) (range 3))
    (fun _ => 0%R) =
  reduce_sum 3 (map (fun j => if j =? 2 then 100%R else 1%R) (range 3))
    (fun _ => 5%R).
Proof.
  apply reduce_sum_reads_paired_lanes_only; [lia|].
  intros j Hj. change (3 / 2) with 1 in Hj.
  destruct (Z.eqb_spec j 2); [lia|reflexivity].
Defined.

(** ** Per-path payoffs *)

(** X7: with at least one time step, the Asian payoff of path [i] is
    [max(0, +-(A - strike))], sign flipped for a Put, where [A] is the spot
    times the arithmetic mean of the [numTimesteps] stored factors of the
    path, [PathMatrix[i, 0 .. numTimesteps - 1]]. *)
Theorem asian_payoff_is_payoff_of_mean (paths : mem) (opt : genericOption)
    (numSims numTimesteps i : Z) :
  0 < numTimesteps ->
  asian_payoff paths opt numSims numTimesteps i =
  vanilla opt
    (spot opt
     * (fold_left Rplus
          (path_entries paths numSims i 0 (Z.to_nat numTimesteps)) 0
        / to_real numTimesteps))%R.
Proof.
  intro Hsteps. unfold asian_payoff, vanilla, rmax, is_put.
  destruct (Z.eqb_spec numTimesteps 0) as [Hzero|_]; [lia|].
  rewrite asian_scan_entries.
  assert (Hn : to_real numTimesteps <> 0%R)
    by (unfold to_real; apply not_0_IZR; lia).
  destruct (type opt); f_equal; field; exact Hn.
Qed.

Lemma asian_payoff_is_payoff_of_mean_witness :
  asian_payoff (flat_paths 1) sample_call 1 2 0 =
  vanilla sample_call
    (spot sample_call
     * (fold_left Rplus (path_entries (flat_paths 1) 1 0 0 (Z.to_nat 2)) 0
        / to_real 2))%R.
Proof. apply asian_payoff_is_payoff_of_mean. lia. Defined.

(** X8: the Plain-Vanilla payoff of path [i] is [max(0, +-(F - strike))],
    sign flipped for a Put, where [F] is the spot times the factor stored
    at the last time step; without any time step (a tenor shorter than
    [dt]) [F] is 0, so that a Put then pays [max(0, strike)] and a Call
    [max(0, -strike)] on every path. *)
Theorem plainvanilla_payoff_of_last_step (paths : mem) (opt : genericOption)
    (numSims numTimesteps i : Z) :
  plainvanilla_payoff paths opt numSims numTimesteps i =
  vanilla opt
    (if 0 <? numTimesteps
     then spot opt * PathMatrix paths numSims i (Z.to_nat numTimesteps - 1)
     else 0)%R.
Proof.
  rewrite plainvanilla_payoff_vanilla.
  destruct (Z.ltb_spec 0 numTimesteps) as [Hsteps|Hnone].
  - rewrite finalValue_last_entry by assumption. reflexivity.
  - unfold finalValue, path_entries.
    replace (Z.to_nat numTimesteps) with 0%nat by lia.
    cbn [seq map last]. f_equal. ring.
Qed.

(** ** Valuation kernels, launch by launch *)

Lemma kernel_frame (blockDim gridDim : Z) (F : Z -> Real) (values : mem)
    (j : Z) :
  0 < blockDim -> j < 0 \/ gridDim <= j ->
  fold_left (fun values bid => store_lane0 blockDim values bid (F bid))
    (range gridDim) values j = values j.
Proof.
  intros Hblock Hj. rewrite fold_store_slots by assumption.
  destruct (in_dec Z.eq_dec j (range gridDim)) as [Hin|_]; [|reflexivity].
  apply in_range in Hin. lia.
Qed.

(** The two sums of [computeValueKnockoutin] over all paths. *)
Lemma knockoutin_kernel_total (gridDim numSims : Z) (k : nat) (paths : mem)
    (opt : genericOption) (numTimesteps : Z) (shared : Z -> mem)
    (valuesko valueski : mem) :
  0 < gridDim -> 0 < numSims -> numSims + gridDim * 2 ^ Z.of_nat k <= 2 ^ 32 ->
  exists ko ki,
    computeValueKnockoutin gridDim (2 ^ Z.of_nat k) paths opt numSims
      numTimesteps shared valuesko valueski = Some (ko, ki) /\
    fold_left Rplus (map ko (range gridDim)) 0%R =
    fold_left Rplus
      (map (fun i => fst (knockoutin_payoff paths opt numSims numTimesteps i))
         (range numSims)) 0%R /\
    fold_left Rplus (map ki (range gridDim)) 0%R =
    fold_left Rplus
      (map (fun i => snd (knockoutin_payoff paths opt numSims numTimesteps i))
         (range numSims)) 0%R.
Proof.
  intros Hgrid Hsims Hwrap.
  assert (Hblock : 0 < 2 ^ Z.of_nat k) by (apply Z.pow_pos_nonneg; lia).
  eexists. eexists. split.
  - apply knockoutin_kernel_run; assumption.
  - rewrite !kernel_readback by assumption. split.
    + exact (partial_sums_total gridDim numSims k Hgrid Hsims Hwrap
               (fun i => fst (knockoutin_payoff paths opt numSims numTimesteps i))
               shared).
    + exact (partial_sums_total gridDim numSims k Hgrid Hsims Hwrap
               (fun i => snd (knockoutin_payoff paths opt numSims numTimesteps i))
               (fun bid =>
                  reduce_shared (2 ^ Z.of_nat k)
                    (map (lane_total gridDim (2 ^ Z.of_nat k) numSims
                            (fun i =>
                               fst (knockoutin_payoff paths opt numSims
                                      numTimesteps i)) bid)
                       (range (2 ^ Z.of_nat k)))
                    (shared bid))).
Qed.

(** X9: launched with blocks of [2^k] threads, without wrap-around and
    with at least one time step, each of [computeValueAsian],
    [computeValuePlainVanilla] and [computeValueLookback] runs to
    completion, leaves in [values[0 .. gridDim - 1]] partial sums whose
    total is the sum of its per-path payoff over all [numSims] paths (every
    path counted once, whatever the grid size and the shared memory held),
    and writes no other cell of [values]. *)
Theorem single_sum_kernels_add_every_path_once (gridDim numSims : Z) (k : nat)
    (paths : mem) (opt : genericOption) (numTimesteps : Z)
    (shared : Z -> mem) (values : mem) :
  0 < gridDim -> 0 < numSims -> numSims + gridDim * 2 ^ Z.of_nat k <= 2 ^ 32 ->
  0 < numTimesteps ->
  exists asian pv lb : mem,
    (computeValueAsian gridDim (2 ^ Z.of_nat k) paths opt numSims numTimesteps
       shared values = Some asian /\
     computeValuePlainVanilla gridDim (2 ^ Z.of_nat k) paths opt numSims
       numTimesteps shared values = Some pv /\
     computeValueLookback gridDim (2 ^ Z.of_nat k) paths opt numSims
       numTimesteps shared values = Some lb) /\
    (fold_left Rplus (map asian (range gridDim)) 0%R =
     fold_left Rplus
       (map (asian_payoff paths opt numSims numTimesteps) (range numSims)) 0%R /\
     fold_left Rplus (map pv (range gridDim)) 0%R =
     fold_left Rplus
       (map (plainvanilla_payoff paths opt numSims numTimesteps)
          (range numSims)) 0%R /\
     fold_left Rplus (map lb (range gridDim)) 0%R =
     fold_left Rplus
       (map (lookback_payoff paths opt numSims numTimesteps) (range numSims))
       0%R) /\
    (forall j, j < 0 \/ gridDim <= j ->
       asian j = values j /\ pv j = values j /\ lb j = values j).
Proof.
  intros Hgrid Hsims Hwrap Hsteps.
  assert (Hblock : 0 < 2 ^ Z.of_nat k) by (apply Z.pow_pos_nonneg; lia).
  unfold computeValueAsian, computeValuePlainVanilla, computeValueLookback.
  rewrite !single_sum_kernel_run by assumption.
  eexists. eexists. eexists.
  split; [repeat split|]. split.
  - rewrite !kernel_readback by assumption.
    repeat split; apply partial_sums_total; assumption.
  - intros j Hj. rewrite !kernel_frame by assumption. repeat split.
Qed.

Lemma single_sum_kernels_add_every_path_once_witness :
  exists asian pv lb : mem,
    (computeValueAsian 2 (2 ^ Z.of_nat 1) (flat_paths 1) sample_call 5 3
       (fun _ _ => 9%R) (fun _ => 7%R) = Some asian /\
     computeValuePlainVanilla 2 (2 ^ Z.of_nat 1) (flat_paths 1) sample_call 5 3
       (fun _ _ => 9%R) (fun _ => 7%R) = Some pv /\
     computeValueLookback 2 (2 ^ Z.of_nat 1) (flat_paths 1) sample_call 5 3
       (fun _ _ => 9%R) (fun _ => 7%R) = Some lb) /\
    (fold_left Rplus (map asian (range 2)) 0%R =
     fold_left Rplus
       (map (asian_payoff (flat_paths 1) sample_call 5 3) (range 5)) 0%R /\
     fold_left Rplus (map pv (range 2)) 0%R =
     fold_left Rplus
       (map (plainvanilla_payoff (flat_paths 1) sample_call 5 3) (range 5)) 0%R /\
     fold_left Rplus (map lb (range 2)) 0%R =
     fold_left Rplus
       (map (lookback_payoff (flat_paths 1) sample_call 5 3) (range 5)) 0%R) /\
    (forall j, j < 0 \/ 2 <= j ->
       asian j = 7%R /\ pv j = 7%R /\ lb j = 7%R).
Proof.
  apply (single_sum_kernels_add_every_path_once 2 5 1 (flat_paths 1)
           sample_call 3 (fun _ _ => 9%R) (fun _ => 7%R)); lia.
Defined.

(** X10: launched with blocks of [2^k] threads and without wrap-around,
    [computeValueKnockoutin] runs to completion; the partial sums it leaves
    in its first buffer add up to the knockout payoffs of all paths, those
    in its second buffer to the knockin payoffs of all paths (the second
    reduction of a block is not disturbed by what the first one left in
    shared memory), and no cell outside [0 .. gridDim - 1] of either buffer
    is written. *)
Theorem computeValueKnockoutin_adds_both_payoffs (gridDim numSims : Z)
    (k : nat) (paths : mem) (opt : genericOption) (numTimesteps : Z)
    (shared : Z -> mem) (valuesko valueski : mem) :
  0 < gridDim -> 0 < numSims -> numSims + gridDim * 2 ^ Z.of_nat k <= 2 ^ 32 ->
  exists ko ki : mem,
    computeValueKnockoutin gridDim (2 ^ Z.of_nat k) paths opt numSims
      numTimesteps shared valuesko valueski = Some (ko, ki) /\
    fold_left Rplus (map ko (range gridDim)) 0%R =
    fold_left Rplus
      (map (fun i => fst (knockoutin_payoff paths opt numSims numTimesteps i))
         (range numSims)) 0%R /\
    fold_left Rplus (map ki (range gridDim)) 0%R =
    fold_left Rplus
      (map (fun i => snd (knockoutin_payoff paths opt numSims numTimesteps i))
         (range numSims)) 0%R /\
    (forall j, j < 0 \/ gridDim <= j ->
       ko j = valuesko j /\ ki j = valueski j).
Proof.
  intros Hgrid Hsims Hwrap.
  assert (Hblock : 0 < 2 ^ Z.of_nat k) by (apply Z.pow_pos_nonneg; lia).
  destruct (knockoutin_kernel_total gridDim numSims k paths opt numTimesteps
              shared valuesko valueski Hgrid Hsims Hwrap)
    as [ko [ki [Hrun [Hko Hki]]]].
  exists ko, ki. split; [exact Hrun|]. split; [exact Hko|].
  split; [exact Hki|]. intros j Hj.
  rewrite knockoutin_kernel_run in Hrun by assumption.
  inversion Hrun. rewrite !kernel_frame by assumption. split; reflexivity.
Qed.

Lemma computeValueKnockoutin_adds_both_payoffs_witness :
  exists ko ki : mem,
    computeValueKnockoutin 2 (2 ^ Z.of_nat 1) (flat_paths 1) sample_put 5 3
      (fun _ _ => 9%R) (fun _ => 7%R) (fun _ => 8%R) = Some (ko, ki) /\
    fold_left Rplus (map ko (range 2)) 0%R =
    fold_left Rplus
      (map (fun i => fst (knockoutin_payoff (flat_paths 1) sample_put 5 3 i))
         (range 5)) 0%R /\
    fold_left Rplus (map ki (range 2)) 0%R =
    fold_left Rplus
      (map (fun i => snd (knockoutin_payoff (flat_paths 1) sample_put 5 3 i))
         (range 5)) 0%R /\
    (forall j, j < 0 \/ 2 <= j -> ko j = 7%R /\ ki j = 8%R).
Proof.
  apply (computeValueKnockoutin_adds_both_payoffs 2 5 1 (flat_paths 1)
           sample_put 3 (fun _ _ => 9%R) (fun _ => 7%R) (fun _ => 8%R)); lia.
Defined.

(** X11: when no path of the matrix crosses the barrier, a Call with a
    non-negative strike knocks in nothing: whatever the block size, the
    knockout value of the launch is its Plain-Vanilla value and its knockin
    value is 0. *)
Theorem call_never_breached_knocks_in_nothing (gridDim blockDim numSims : Z)
    (paths : mem) (opt : genericOption) (numTimesteps : Z)
    (shared shared' : Z -> mem) (values valuesko valueski : mem) :
  0 < gridDim -> 0 < blockDim -> 0 < numSims ->
  numSims + gridDim * blockDim <= 2 ^ 32 ->
  type opt = Call -> (0 <= strike opt)%R ->
  (forall i, 0 <= i < numSims ->
     breached paths opt numSims i (Z.to_nat numTimesteps) = false) ->
  exists pv ko ki : mem,
    computeValuePlainVanilla gridDim blockDim paths opt numSims numTimesteps
      shared values = Some pv /\
    computeValueKnockoutin gridDim blockDim paths opt numSims numTimesteps
      shared' valuesko valueski = Some (ko, ki) /\
    discounted_mean opt numSims (map ko (range gridDim)) =
    discounted_mean opt numSims (map pv (range gridDim)) /\
    discounted_mean opt numSims (map ki (range gridDim)) = 0%R.
Proof.
  intros Hgrid Hblock Hsims Hwrap Hcall Hstrike Hnever.
  destruct (knockout_is_plainvanilla_when_never_breached gridDim blockDim
              numSims Hgrid Hblock Hsims Hwrap paths opt numTimesteps
              shared shared' values valuesko valueski Hnever)
    as (pv & ko & ki & Hpv & Hknock & Hsame).
  destruct (knock_parity_call gridDim blockDim numSims Hgrid Hblock Hsims
              Hwrap paths opt numTimesteps shared shared' values valuesko
              valueski Hcall Hstrike)
    as (pv' & ko' & ki' & Hpv' & Hknock' & Hparity).
  rewrite Hpv in Hpv'. rewrite Hknock in Hknock'.
  inversion Hpv'. inversion Hknock'. subst pv' ko' ki'.
  exists pv, ko, ki. repeat (split; [assumption|]). lra.
Qed.

Lemma call_never_breached_knocks_in_nothing_witness :
  exists pv ko ki : mem,
    computeValuePlainVanilla 2 3 (flat_paths 1) sample_call 7 4
      (fun _ _ => 9%R) (fun _ => 7%R) = Some pv /\
    computeValueKnockoutin 2 3 (flat_paths 1) sample_call 7 4
      (fun _ _ => 9%R) (fun _ => 7%R) (fun _ => 8%R) = Some (ko, ki) /\
    discounted_mean sample_call 7 (map ko (range 2)) =
    discounted_mean sample_call 7 (map pv (range 2)) /\
    discounted_mean sample_call 7 (map ki (range 2)) = 0%R.
Proof.
  apply call_never_breached_knocks_in_nothing; try lia.
  - reflexivity.
  - unfold sample_call. cbn [strike]. lra.
  - intros i _. unfold breached. rewrite flat_entries.
    change (Z.to_nat 4) with 4%nat. cbn [repeat existsb].
    unfold sample_call. real_cases.
Defined.

(** ** Sizing the grid *)

Lemma shrink_grid_pos_spec (g : positive) (limit : Z) :
  0 <= limit ->
  0 <= shrink_grid_pos g limit <= limit /\
  (Zpos g <= limit -> shrink_grid_pos g limit = Zpos g) /\
  (limit < Zpos g -> limit <= 2 * shrink_grid_pos g limit) /\
  exists k : nat, shrink_grid_pos g limit = Zpos g / 2 ^ Z.of_nat k.
Proof.
  intro Hlimit.
  assert (Hshift : forall (g' : positive) (rest : Z) (k : nat),
            0 <= rest < 2 ->
            Zpos g' / 2 ^ Z.of_nat k
            = (2 * Zpos g' + rest) / 2 ^ Z.of_nat (S k)).
  { intros g' rest k Hrest.
    rewrite Nat2Z.inj_succ, Z.pow_succ_r by lia.
    rewrite <- Z.div_div by (try apply Z.pow_pos_nonneg; lia).
    f_equal. rewrite Z.mul_comm, Z.div_add_l by lia.
    rewrite (Z.div_small rest 2) by lia. lia. }
  induction g as [g IH|g IH|]; cbn [shrink_grid_pos].
  - destruct (Z.gtb_spec (Zpos g~1) limit) as [Hbig|Hfits].
    + destruct IH as (Hrange & Hsame & Hhalf & [k Hk]).
      split; [exact Hrange|]. split; [lia|]. split.
      * intros _. destruct (Z.le_gt_cases (Zpos g) limit) as [Hle|Hgt].
        -- rewrite Hsame by exact Hle. lia.
        -- specialize (Hhalf Hgt). lia.
      * exists (S k). rewrite Hk, (Pos2Z.inj_xI g).
        apply (Hshift g 1 k). lia.
    + split; [lia|]. split; [reflexivity|]. split; [lia|].
      exists 0%nat. cbn [Z.of_nat]. rewrite Z.pow_0_r, Z.div_1_r. reflexivity.
  - destruct (Z.gtb_spec (Zpos g~0) limit) as [Hbig|Hfits].
    + destruct IH as (Hrange & Hsame & Hhalf & [k Hk]).
      split; [exact Hrange|]. split; [lia|]. split.
      * intros _. destruct (Z.le_gt_cases (Zpos g) limit) as [Hle|Hgt].
        -- rewrite Hsame by exact Hle. lia.
        -- specialize (Hhalf Hgt). lia.
      * exists (S k). rewrite Hk, (Pos2Z.inj_xO g).
        rewrite (Hshift g 0 k) by lia. f_equal; lia.
    + split; [lia|]. split; [reflexivity|]. split; [lia|].
      exists 0%nat. cbn [Z.of_nat]. rewrite Z.pow_0_r, Z.div_1_r. reflexivity.
  - destruct (Z.gtb_spec 1 limit) as [Hbig|Hfits].
    + split; [lia|]. split; [lia|]. split; [lia|].
      exists 1%nat. reflexivity.
    + split; [lia|]. split; [reflexivity|]. split; [lia|].
      exists 0%nat. reflexivity.
Qed.

Lemma shrink_grid_bounds (g limit : Z) :
  0 <= g -> 0 <= limit ->
  0 <= shrink_grid g limit <= limit /\ shrink_grid g limit <= g.
Proof.
  intros Hg Hlimit. destruct g as [|p|p]; cbn [shrink_grid]; [lia| |lia].
  destruct (shrink_grid_pos_spec p limit Hlimit) as (Hrange & _ & _ & [k Hk]).
  split; [exact Hrange|]. rewrite Hk.
  assert (Hpow : 0 < 2 ^ Z.of_nat k) by (apply Z.pow_pos_nonneg; lia).
  apply Z.div_le_upper_bound; [exact Hpow|]. nia.
Qed.

(** X12: the loop [while (grid.x > limit) grid.x >>= 1] ends with a grid
    that fits the limit, was obtained from the requested one by right
    shifts only, is the requested one when that already fits, and is
    otherwise at least half the limit: the halving stops as soon as it
    can. *)
Theorem shrink_grid_halves_until_it_fits (g limit : Z) :
  0 <= g -> 0 <= limit ->
  0 <= shrink_grid g limit <= limit /\
  (g <= limit -> shrink_grid g limit = g) /\
  (limit < g -> limit <= 2 * shrink_grid g limit) /\
  exists k : nat, shrink_grid g limit = g / 2 ^ Z.of_nat k.
Proof.
  intros Hg Hlimit. destruct g as [|p|p]; cbn [shrink_grid].
  - split; [lia|]. split; [reflexivity|]. split; [lia|].
    exists 0%nat. reflexivity.
  - apply shrink_grid_pos_spec, Hlimit.
  - lia.
Qed.

Lemma shrink_grid_halves_until_it_fits_witness :
  0 <= shrink_grid 1000 80 <= 80 /\
  (1000 <= 80 -> shrink_grid 1000 80 = 1000) /\
  (80 < 1000 -> 80 <= 2 * shrink_grid 1000 80) /\
  exists k : nat, shrink_grid 1000 80 = 1000 / 2 ^ Z.of_nat k.
Proof. apply shrink_grid_halves_until_it_fits; lia. Defined.

(** X13: with a positive block size, the grid of a pricing pass has at most
    twenty blocks per multiprocessor and never more threads than paths
    rounded up to a whole block; the thread count [grid.x * block.x], the
    stride of every kernel loop, therefore never wraps. *)
Theorem launch_grid_fits_device_and_paths (rt : cuda_runtime)
    (m_numSims m_device m_threadBlockSize : Z) :
  0 < m_threadBlockSize ->
  let grid_x := launch_grid rt m_numSims m_device m_threadBlockSize in
  let numSMs :=
    uint (multiProcessorCount (snd (cudaGetDeviceProperties rt m_device))) in
  0 <= grid_x <= 2 * 10 * numSMs /\
  grid_x * m_threadBlockSize <= uint (m_numSims + m_threadBlockSize - 1) /\
  stride grid_x m_threadBlockSize = grid_x * m_threadBlockSize.
Proof.
  intros Hblock grid_x numSMs. unfold launch_grid in grid_x.
  fold numSMs in grid_x.
  set (requested := uint (m_numSims + m_threadBlockSize - 1) / m_threadBlockSize)
    in *.
  assert (Hpaths : 0 <= uint (m_numSims + m_threadBlockSize - 1) < 2 ^ 32)
    by (unfold uint; apply Z.mod_pos_bound; lia).
  assert (Hsms : 0 <= numSMs < 2 ^ 32)
    by (unfold numSMs, uint; apply Z.mod_pos_bound; lia).
  assert (Hlimit : 0 <= uint (2 * 10 * numSMs) <= 2 * 10 * numSMs).
  { unfold uint. split; [apply Z.mod_pos_bound; lia|].
    apply Z.mod_le; lia. }
  assert (Hreq : 0 <= requested) by (apply Z.div_pos; lia).
  assert (Hfloor : requested * m_threadBlockSize
                   <= uint (m_numSims + m_threadBlockSize - 1)).
  { unfold requested. rewrite Z.mul_comm. apply Z.mul_div_le. exact Hblock. }
  destruct (shrink_grid_bounds requested (uint (2 * 10 * numSMs)) Hreq
              (proj1 Hlimit))
    as (Hrange & Hle).
  fold grid_x in Hrange, Hle.
  split; [lia|]. split; [nia|]. apply stride_no_wrap. nia.
Qed.

Lemma launch_grid_fits_device_and_paths_witness :
  0 <= launch_grid good_runtime 1000 0 2
    <= 2 * 10
       * uint (multiProcessorCount
                 (snd (cudaGetDeviceProperties good_runtime 0))) /\
  launch_grid good_runtime 1000 0 2 * 2 <= uint (1000 + 2 - 1) /\
  stride (launch_grid good_runtime 1000 0 2) 2 =
  launch_grid good_runtime 1000 0 2 * 2.
Proof.
  exact (launch_grid_fits_device_and_paths good_runtime 1000 0 2 ltac:(lia)).
Defined.

(** ** The pricing pass, end to end *)

Lemma bind_after_return {A B : Type} (c : M A) (k : A -> M B) (h h1 : host) (a : A) :
  c h = (Done a, h1) -> bind c k h = k a h1.
Proof. intro Hc. unfold bind. rewrite Hc. reflexivity. Qed.

Lemma bind_after_throw {A B : Type} (c : M A) (k : A -> M B) (h h1 : host)
    (msg : string) :
  c h = (Throw msg, h1) -> bind c k h = (Throw msg, h1).
Proof. intro Hc. unfold bind. rewrite Hc. reflexivity. Qed.

Lemma check_kernel_too_large (rt : cuda_runtime) (block_x : Z) (k : kernel)
    (name : string) (h : host) :
  fst (cudaFuncGetAttributes rt k) = cudaSuccess ->
  uint (snd (cudaFuncGetAttributes rt k)) < block_x ->
  check_kernel rt block_x k name h =
  (Throw ("Block X dimension is too large for " ++ name ++ " kernel"), h).
Proof.
  unfold check_kernel. destruct (cudaFuncGetAttributes rt k) as [res maxThreads].
  cbn [fst snd]. intros -> Hbig. unfold bind. cbn.
  destruct (Z.gtb_spec block_x (uint maxThreads)); [reflexivity|lia].
Qed.

Section PassProperties.

Variable curandState : Type.
Variable curand_init : Z -> Z -> Z -> curandState.
Variable curand_normal : curandState -> Real * curandState.
Variable rt : cuda_runtime.
Variable raw_paths : mem.
Variable raw_rngStates : Z -> curandState.
Variable raw_values : mem.
Variable raw_values2 : mem.
Variable shared : kernel -> Z -> mem.
Variable m_numSims : Z.
Variable m_device : Z.
Variable m_threadBlockSize : Z.
Variable m_seed : Z.

Local Abbreviation run :=
  (PricingEngine_call curandState curand_init curand_normal rt raw_paths
     raw_rngStates raw_values raw_values2 shared m_numSims m_device
     m_threadBlockSize m_seed).

Local Abbreviation grid_x :=
  (launch_grid rt m_numSims m_device m_threadBlockSize).

Local Abbreviation deviceVersion :=
  (uint (major (snd (cudaGetDeviceProperties rt m_device)) * 10
         + minor (snd (cudaGetDeviceProperties rt m_device)))).

(** X14: a block size above what one of the six kernels accepts is refused
    before anything is allocated, copied or launched: the pass throws
    [Block X dimension is too large for <name> kernel], naming a kernel
    whose limit is exceeded (the first one in program order), and the
    caller's option and the device allocations are exactly as before. *)
Theorem oversized_block_is_refused_up_front (h : host) :
  fst (cudaGetDeviceProperties rt m_device) = cudaSuccess ->
  real_is_double rt && (deviceVersion <? 13) = false ->
  cudaSetDevice rt m_device = cudaSuccess ->
  (forall k, fst (cudaFuncGetAttributes rt k) = cudaSuccess) ->
  (exists k, uint (snd (cudaFuncGetAttributes rt k)) < m_threadBlockSize) ->
  exists k,
    uint (snd (cudaFuncGetAttributes rt k)) < m_threadBlockSize /\
    run h =
    (Throw ("Block X dimension is too large for " ++ kernel_name k ++ " kernel"),
     h).
Proof.
  unfold PricingEngine_call.
  destruct (cudaGetDeviceProperties rt m_device) as [res props].
  cbn [fst snd]. intros -> Hprec Hdev Hattr Hbig.
  rewrite (bind_after_return _ _ h h tt) by reflexivity.
  rewrite Hprec. rewrite (bind_after_return _ _ h h tt) by reflexivity.
  rewrite Hdev. rewrite (bind_after_return _ _ h h tt) by reflexivity.
  cbv beta zeta.
  repeat match goal with
  | |- exists k', _ /\ bind (check_kernel _ _ ?k _) _ _ = _ =>
      let Hover := fresh "Hover" in
      let Hfit := fresh "Hfit" in
      destruct (Z.lt_ge_cases (uint (snd (cudaFuncGetAttributes rt k)))
                  m_threadBlockSize) as [Hover|Hfit];
      [ exists k; split; [exact Hover|];
        apply bind_after_throw; apply check_kernel_too_large;
        [apply Hattr|exact Hover]
      | rewrite (bind_after_return _ _ h h tt)
          by (apply check_kernel_ok; [apply Hattr|exact Hfit]) ]
  end.
  exfalso. destruct Hbig as [k Hk]. destruct k; lia.
Qed.

(** X15: when every runtime call reports success, the precision of [Real]
    is supported (single precision, or double on compute capability 1.3 and
    above), the block size is positive and within the limit of each of the
    six kernels, and the indices of the launch cannot wrap, the pass
    neither throws nor waits forever: it returns. *)
Theorem pass_returns_when_runtime_succeeds (h : host) :
  fst (cudaGetDeviceProperties rt m_device) = cudaSuccess ->
  real_is_double rt && (deviceVersion <? 13) = false ->
  cudaSetDevice rt m_device = cudaSuccess ->
  (forall k, fst (cudaFuncGetAttributes rt k) = cudaSuccess /\
             m_threadBlockSize <= uint (snd (cudaFuncGetAttributes rt k))) ->
  (forall b, cudaMalloc rt b = cudaSuccess) ->
  (forall t, cudaMemcpy rt t = cudaSuccess) ->
  0 < grid_x -> 0 < m_threadBlockSize -> 0 < m_numSims ->
  m_numSims + grid_x * m_threadBlockSize <= 2 ^ 32 ->
  exists h', run h = (Done tt, h').
Proof.
  unfold launch_grid, PricingEngine_call.
  destruct (cudaGetDeviceProperties rt m_device) as [res props].
  cbn [fst snd].
  intros Hprops Hprec Hdev Hattr Halloc Hcopy Hgrid Hblock Hsims Hwrap.
  set (grid := shrink_grid _ _) in *.
  destruct (generatePaths_returns curandState
              curand_normal grid m_threadBlockSize (the_option h) m_numSims
              (uint (static_cast_int (tenor (the_option h) / dt (the_option h))))
              (initRNG curand_init grid m_threadBlockSize m_seed raw_rngStates)
              raw_paths Hgrid Hblock Hsims Hwrap)
    as [paths Hgen].
  repeat first
    [ eapply bind_returns;
      [ first
          [ apply check_ok; first [assumption | apply Hcopy]
          | apply check_kernel_ok; apply Hattr
          | apply guard_ok; exact Hprec
          | apply device_malloc_ok; apply Halloc
          | apply copy_back_ok; apply Hcopy
          | apply launch_ok; first
              [ exact Hgen
              | apply single_sum_kernel_run; assumption
              | apply knockoutin_kernel_run; assumption ]
          | apply finish_ok;
            [ solve [intros; reflexivity] ..
            | intros v o; apply (untouched_setters v o) ]
          | apply release_ok
          | reflexivity ]
      | cbn [the_option live freed] ]
    | eexists; apply release_ok ].
Qed.

(** X16: in a pass that returns, launched with blocks of [2^k] threads,
    without wrap-around and with at least one time step
    ([static_cast<int>(tenor / dt) > 0]), each of the five results is the
    Monte Carlo estimate over the generated path matrix: the sum of the
    evaluator's per-path payoff over all [m_numSims] paths, each counted
    exactly once whatever the grid size, divided by [m_numSims] and
    discounted by [exp(-r * tenor)]. *)
Theorem pass_values_are_estimates_over_all_paths (k : nat) (h h' : host)
    (u : unit) :
  run h = (Done u, h') ->
  m_threadBlockSize = 2 ^ Z.of_nat k ->
  0 < grid_x -> 0 < m_numSims ->
  m_numSims + grid_x * m_threadBlockSize <= 2 ^ 32 ->
  0 < uint (static_cast_int (tenor (the_option h) / dt (the_option h))) ->
  let opt := the_option h in
  let numTimesteps := uint (static_cast_int (tenor opt / dt opt)) in
  let estimate (payoff : Z -> Real) :=
    discounted_mean opt m_numSims (map payoff (range m_numSims)) in
  exists paths : mem,
    generatePaths curand_normal grid_x m_threadBlockSize opt m_numSims
      numTimesteps
      (initRNG curand_init grid_x m_threadBlockSize m_seed raw_rngStates)
      raw_paths = Some paths /\
    valuePlainVanilla (the_option h') =
      estimate (plainvanilla_payoff paths opt m_numSims numTimesteps) /\
    valueAsian (the_option h') =
      estimate (asian_payoff paths opt m_numSims numTimesteps) /\
    valueKnockout (the_option h') =
      estimate
        (fun i => fst (knockoutin_payoff paths opt m_numSims numTimesteps i)) /\
    valueKnockin (the_option h') =
      estimate
        (fun i => snd (knockoutin_payoff paths opt m_numSims numTimesteps i)) /\
    valueLookback (the_option h') =
      estimate (lookback_payoff paths opt m_numSims numTimesteps).
Proof.
  intros Hrun Hpow Hgrid Hsims Hwrap Hsteps opt numTimesteps estimate.
  apply run_Done in Hrun. cbn zeta in Hrun.
  destruct Hrun as (paths & pv & asian & ko & ki & lb & Hrun).
  destruct Hrun as (Hgen & Hpv & Hasian & Hknock & Hlb & Hopt & _).
  fold opt in Hgen, Hpv, Hasian, Hknock, Hlb, Hopt.
  fold numTimesteps in Hgen, Hpv, Hasian, Hknock, Hlb.
  exists paths. split; [exact Hgen|].
  set (grid := grid_x) in *.
  rewrite Hpow in Hpv, Hasian, Hknock, Hlb, Hwrap.
  unfold computeValuePlainVanilla, computeValueAsian, computeValueLookback
    in Hpv, Hasian, Hlb.
  destruct (valuation_kernel_total grid m_numSims k Hgrid Hsims Hwrap
              (plainvanilla_payoff paths opt m_numSims numTimesteps)
              (shared k_computeValuePlainVanilla) raw_values)
    as (pv' & Hpv' & Hpv_total).
  destruct (valuation_kernel_total grid m_numSims k Hgrid Hsims Hwrap
              (asian_payoff paths opt m_numSims numTimesteps)
              (shared k_computeValueAsian) pv)
    as (asian' & Hasian' & Hasian_total).
  destruct (knockoutin_kernel_total grid m_numSims k paths opt numTimesteps
              (shared k_computeValueKnockoutin) asian raw_values2
              Hgrid Hsims Hwrap)
    as (ko' & ki' & Hknock' & Hko_total & Hki_total).
  destruct (valuation_kernel_total grid m_numSims k Hgrid Hsims Hwrap
              (lookback_payoff paths opt m_numSims numTimesteps)
              (shared k_computeValueLookback) ko)
    as (lb' & Hlb' & Hlb_total).
  rewrite Hpv in Hpv'. rewrite Hasian in Hasian'. rewrite Hknock in Hknock'.
  rewrite Hlb in Hlb'.
  inversion Hpv'. inversion Hasian'. inversion Hknock'. inversion Hlb'.
  subst pv' asian' ko' ki' lb'.
  rewrite Hopt. unfold estimate, discounted_mean.
  cbn [valuePlainVanilla valueAsian valueKnockout valueKnockin valueLookback
       set_valuePlainVanilla set_valueAsian set_valueKnockout set_valueKnockin
       set_valueLookback].
  rewrite Hpv_total, Hasian_total, Hko_total, Hki_total, Hlb_total.
  repeat split.
Qed.

End PassProperties.

Lemma oversized_block_is_refused_up_front_witness :
  exists k,
    uint (snd (cudaFuncGetAttributes narrow_runtime k)) < 2 /\
    sample_pass narrow_runtime sample_host =
    (Throw ("Block X dimension is too large for " ++ kernel_name k ++ " kernel"),
     sample_host).
Proof.
  unfold sample_pass. apply oversized_block_is_refused_up_front.
  - reflexivity.
  - reflexivity.
  - reflexivity.
  - intro k. reflexivity.
  - exists k_computeValueKnockoutin. vm_compute. reflexivity.
Defined.

Lemma pass_returns_when_runtime_succeeds_witness :
  exists h', sample_pass double_runtime sample_host = (Done tt, h').
Proof.
  unfold sample_pass. apply pass_returns_when_runtime_succeeds.
  - reflexivity.
  - reflexivity.
  - reflexivity.
  - intro k. split; [reflexivity|]. vm_compute. discriminate.
  - intro b. reflexivity.
  - intro t. reflexivity.
  - vm_compute. reflexivity.
  - lia.
  - lia.
  - vm_compute. discriminate.
Defined.

(** The contract of the samples runs over 87 time steps. *)
Lemma sample_call_steps :
  uint (static_cast_int (tenor sample_call / dt sample_call)) = 87.
Proof.
  unfold sample_call. cbn [tenor dt].
  replace (1 / 3 / (1 / 261))%R with (INR 87)
    by (rewrite INR_IZR_INZ; cbn [Z.of_nat Pos.of_succ_nat Pos.succ]; field).
  unfold static_cast_int.
  destruct (Rle_dec 0 (INR 87)) as [_|Hneg].
  - rewrite Int_part_INR. reflexivity.
  - exfalso. apply Hneg. apply pos_INR.
Qed.

Lemma pass_values_are_estimates_over_all_paths_witness :
  exists (h' : host) (paths : mem),
    sample_pass good_runtime sample_host = (Done tt, h') /\
    valuePlainVanilla (the_option h') =
      discounted_mean sample_call 4
        (map (plainvanilla_payoff paths sample_call 4
                (uint (static_cast_int (tenor sample_call / dt sample_call))))
           (range 4)) /\
    valueAsian (the_option h') =
      discounted_mean sample_call 4
        (map (asian_payoff paths sample_call 4
                (uint (static_cast_int (tenor sample_call / dt sample_call))))
           (range 4)).
Proof.
  destruct sample_pass_returns as [h' Hrun]. exists h'.
  destruct (pass_values_are_estimates_over_all_paths nat (fun _ _ _ => 0%nat)
              zero_normal good_runtime (fun _ => 0%R) (fun _ => 0%nat)
              (fun _ => 0%R) (fun _ => 0%R) (fun _ _ _ => 0%R)
              4 0 2 1234 1 sample_host h' tt Hrun)
    as (paths & _ & Hpv & Hasian & _).
  - reflexivity.
  - vm_compute. reflexivity.
  - lia.
  - vm_compute. discriminate.
  - change (the_option sample_host) with sample_call.
    rewrite sample_call_steps. lia.
  - exists paths. split; [exact Hrun|]. split; [exact Hpv|exact Hasian].
Defined.

(** ** The reference pricer: variates, value, and the case of no time step *)

Lemma box_muller_pair_accepts (randState : Type)
    (rand : randState -> Z * randState) (RAND_MAX : Z) (fuel : nat)
    (rs rs' : randState) (x1 x2 w : Real) :
  box_muller_pair rand RAND_MAX fuel rs = Some (x1, x2, w, rs') ->
  (w = x1 * x1 + x2 * x2 /\ w < 1)%R.
Proof.
  revert rs. induction fuel as [|fuel IH]; intros rs Hrun; [discriminate|].
  cbn [box_muller_pair] in Hrun.
  destruct (rand rs) as [a rs1]. destruct (rand rs1) as [b rs2].
  destruct (Rge_dec _ 1) as [Hout|Hin].
  - apply (IH rs2), Hrun.
  - inversion Hrun. subst. split; [reflexivity|lra].
Qed.

(** X18: calls of [box_muller] go in pairs.  A call that finds no kept
    variate draws pairs of uniforms until one falls strictly inside the unit
    circle ([w = x1^2 + x2^2 < 1]), returns [m + x1 * sqrt(-2 ln w / w) * s]
    and keeps [x2 * sqrt(-2 ln w / w)]; the call after it returns the kept
    variate, scaled by its own [m] and [s], without calling [rand()], and
    leaves nothing kept. *)
Theorem box_muller_alternates (randState : Type)
    (rand : randState -> Z * randState) (RAND_MAX : Z) (fuel : nat)
    (m s : Real) (st st1 : box_muller_state randState) (v : Real) :
  use_last st = false ->
  box_muller rand RAND_MAX fuel m s st = Some (v, st1) ->
  (exists x1 x2 w : Real,
     box_muller_pair rand RAND_MAX fuel (rand_state st)
       = Some (x1, x2, w, rand_state st1) /\
     (w = x1 * x1 + x2 * x2 /\ w < 1 /\
      v = m + x1 * sqrt (-2 * ln w / w) * s /\
      y2 st1 = x2 * sqrt (-2 * ln w / w))%R) /\
  use_last st1 = true /\
  forall (fuel' : nat) (m' s' : Real),
    box_muller rand RAND_MAX fuel' m' s' st1 =
    Some ((m' + y2 st1 * s')%R, mkBoxMuller (y2 st1) false (rand_state st1)).
Proof.
  intros Hfresh Hrun. unfold box_muller in Hrun. rewrite Hfresh in Hrun.
  destruct (box_muller_pair rand RAND_MAX fuel (rand_state st))
    as [[[[x1 x2] w] rs]|] eqn:Epair; [|discriminate].
  apply box_muller_pair_accepts in Epair as Hw. destruct Hw as [Hw Hin].
  inversion Hrun. subst v st1. cbn [use_last y2 rand_state].
  split; [|split].
  - exists x1, x2, w. split; [reflexivity|]. repeat split; assumption.
  - reflexivity.
  - intros fuel' m' s'. reflexivity.
Qed.

Lemma box_muller_alternates_witness :
  (exists x1 x2 w : Real,
     box_muller_pair fixed_rand 4 1 tt = Some (x1, x2, w, tt) /\
     (w = x1 * x1 + x2 * x2 /\ w < 1 /\
      0 + 0.5 * sqrt (-2 * ln 0.5 / 0.5) * 1
      = 0 + x1 * sqrt (-2 * ln w / w) * 1 /\
      0.5 * sqrt (-2 * ln 0.5 / 0.5) = x2 * sqrt (-2 * ln w / w))%R) /\
  true = true /\
  forall (fuel' : nat) (m' s' : Real),
    box_muller fixed_rand 4 fuel' m' s'
      (mkBoxMuller (0.5 * sqrt (-2 * ln 0.5 / 0.5))%R true tt) =
    Some ((m' + 0.5 * sqrt (-2 * ln 0.5 / 0.5) * s')%R,
          mkBoxMuller (0.5 * sqrt (-2 * ln 0.5 / 0.5))%R false tt).
Proof.
  apply (box_muller_alternates unit fixed_rand 4 1 0 1
           (mkBoxMuller 0%R false tt)
           (mkBoxMuller (0.5 * sqrt (-2 * ln 0.5 / 0.5))%R true tt)
           (0 + 0.5 * sqrt (-2 * ln 0.5 / 0.5) * 1)%R).
  - reflexivity.
  - unfold box_muller. cbn [use_last rand_state].
    rewrite fixed_rand_draw. reflexivity.
Defined.

Lemma shocks_fold_scale (opt : genericOption) (zs : list Real) (a b : Real) :
  fold_left (fun p z => p * shock opt z)%R zs (a * b)%R =
  (a * fold_left (fun p z => p * shock opt z)%R zs b)%R.
Proof.
  revert a b. induction zs as [|z zs IH]; intros a b; cbn [fold_left].
  - reflexivity.
  - rewrite <- IH. f_equal. ring.
Qed.

Section SerialDraws.

Variable randState : Type.
Variable rand : randState -> Z * randState.
Variable RAND_MAX : Z.
Variable fuel : nat.
Variable opt : genericOption.

Local Abbreviation draws := (normal_draws rand RAND_MAX fuel).

Lemma normal_draws_length (n : nat) (st st' : box_muller_state randState)
    (zs : list Real) :
  draws n st = Some (zs, st') -> List.length zs = n.
Proof.
  revert st zs. induction n as [|n IH]; intros st zs Hrun;
    cbn [normal_draws] in Hrun.
  - inversion Hrun. reflexivity.
  - destruct (box_muller rand RAND_MAX fuel 0 1 st) as [[rn st1]|];
      [|discriminate].
    destruct (draws n st1) as [[zs1 st2]|] eqn:Erest; [|discriminate].
    inversion Hrun. subst. cbn [List.length]. f_equal. apply (IH st1), Erest.
Qed.

(** Draws made one after the other are the draws of one longer run. *)
Lemma normal_draws_app (a b : nat) (st st1 st2 : box_muller_state randState)
    (zs1 zs2 : list Real) :
  draws a st = Some (zs1, st1) -> draws b st1 = Some (zs2, st2) ->
  draws (a + b) st = Some (zs1 ++ zs2, st2).
Proof.
  revert st zs1. induction a as [|a IH]; intros st zs1 Hfirst Hrest;
    cbn [normal_draws Nat.add] in *.
  - inversion Hfirst. subst. exact Hrest.
  - destruct (box_muller rand RAND_MAX fuel 0 1 st) as [[rn st0]|];
      [|discriminate].
    destruct (draws a st0) as [[zs0 st0']|] eqn:Ea; [|discriminate].
    inversion Hfirst. subst.
    rewrite (IH st0 zs0 Ea Hrest). reflexivity.
Qed.

(** One serial path consumes the next [n] variates of [box_muller], one
    per time step, and ends at the spot times their shocks. *)
Lemma serial_path_draws (n : nat) (St St' : Real)
    (st st' : box_muller_state randState) :
  serial_path rand RAND_MAX fuel opt n St st = Some (St', st') ->
  exists zs : list Real,
    draws n st = Some (zs, st') /\
    St' = (St * fold_left (fun p z => p * shock opt z) zs 1)%R.
Proof.
  revert St st. induction n as [|n IH]; intros St st Hrun;
    cbn [serial_path normal_draws] in *.
  - inversion Hrun. exists []. split; [reflexivity|]. cbn [fold_left]. ring.
  - destruct (box_muller rand RAND_MAX fuel 0 1 st) as [[rn st1]|];
      [|discriminate].
    apply IH in Hrun. destruct Hrun as [zs [Hdraws ->]].
    exists (rn :: zs). rewrite Hdraws. split; [reflexivity|].
    cbn [fold_left]. rewrite <- !shocks_fold_scale. f_equal.
    rewrite <- shock_code. unfold MuBydT, VBySqrtdT, drift, diffusion. ring.
Qed.

(** The serial loop takes the variates path by path, in the order
    [box_muller] returns them, and adds the Call payoff of every final
    price. *)
Lemma serial_paths_draws (numtimeSteps : Z) (n : nat) (sumVanilla sum' : Real)
    (st st' : box_muller_state randState) :
  serial_paths rand RAND_MAX fuel opt numtimeSteps n sumVanilla st
    = Some (sum', st') ->
  exists zss : list (list Real),
    List.length zss = n /\
    Forall (fun zs => List.length zs = Z.to_nat numtimeSteps) zss /\
    draws (n * Z.to_nat numtimeSteps) st = Some (concat zss, st') /\
    sum' =
    (sumVanilla
     + fold_left Rplus
         (map (fun zs => Rmax 0 (final_price opt zs - strike opt)) zss) 0)%R.
Proof.
  revert sumVanilla st. induction n as [|n IH]; intros sumVanilla st Hrun;
    cbn [serial_paths] in Hrun.
  - inversion Hrun. exists []. split; [reflexivity|].
    split; [constructor|]. split; [reflexivity|]. cbn [map fold_left]. ring.
  - destruct (serial_path rand RAND_MAX fuel opt (Z.to_nat numtimeSteps)
                (spot opt) st) as [[St st1]|] eqn:Epath; [|discriminate].
    apply serial_path_draws in Epath. destruct Epath as [zs [Hzs ->]].
    apply IH in Hrun. destruct Hrun as (zss & Hlen & Hsteps & Hdraws & ->).
    exists (zs :: zss). split; [cbn [List.length]; lia|]. split.
    + constructor; [apply (normal_draws_length _ _ _ _ Hzs)|exact Hsteps].
    + split.
      * cbn [Nat.mul concat]. apply (normal_draws_app _ _ _ _ _ _ _ Hzs Hdraws).
      * cbn [map fold_left]. rewrite call_payoff_max.
        rewrite (fold_plus_start _ (0 + _)). unfold final_price. ring.
Qed.

End SerialDraws.



Lemma serial_paths_without_steps (randState : Type)
    (rand : randState -> Z * randState) (RAND_MAX : Z) (fuel : nat)
    (opt : genericOption) (numtimeSteps : Z) (n : nat) (sumVanilla : Real)
    (st : box_muller_state randState) :
  numtimeSteps <= 0 ->
  serial_paths rand RAND_MAX fuel opt numtimeSteps n sumVanilla st =
  Some ((sumVanilla + INR n * Rmax 0 (spot opt - strike opt))%R, st).
Proof.
  intro Hnone. revert sumVanilla.
  induction n as [|n IH]; intro sumVanilla.
  - cbn [serial_paths INR]. do 2 f_equal. ring.
  - cbn [serial_paths]. replace (Z.to_nat numtimeSteps) with 0%nat by lia.
    cbn [serial_path]. rewrite IH, call_payoff_max, S_INR.
    do 2 f_equal. ring.
Qed.



(** ** The test driver *)

Lemma fixed_rand_box_muller (m s : Real) (st : box_muller_state unit) :
  exists v st', box_muller fixed_rand 4 1 m s st = Some (v, st').
Proof.
  unfold box_muller. destruct (use_last st).
  - eexists. eexists. reflexivity.
  - destruct (rand_state st). rewrite fixed_rand_draw.
    eexists. eexists. reflexivity.
Qed.

Lemma fixed_rand_serial_path (opt : genericOption) (n : nat) (St : Real)
    (st : box_muller_state unit) :
  exists St' st', serial_path fixed_rand 4 1 opt n St st = Some (St', st').
Proof.
  revert St st. induction n as [|n IH]; intros St st; cbn [serial_path].
  - eexists. eexists. reflexivity.
  - destruct (fixed_rand_box_muller 0 1 st) as [rn [st1 ->]]. apply IH.
Qed.

Lemma fixed_rand_serial_paths (opt : genericOption) (numtimeSteps : Z)
    (n : nat) (sumVanilla : Real) (st : box_muller_state unit) :
  exists sum' st',
    serial_paths fixed_rand 4 1 opt numtimeSteps n sumVanilla st
    = Some (sum', st').
Proof.
  revert sumVanilla st. induction n as [|n IH]; intros sumVanilla st;
    cbn [serial_paths].
  - eexists. eexists. reflexivity.
  - destruct (fixed_rand_serial_path opt (Z.to_nat numtimeSteps) (spot opt) st)
      as [St [st1 ->]].
    apply IH.
Qed.

Lemma modify_option_Done (f : genericOption -> genericOption) (h h' : host)
    (u : unit) :
  modify_option f h = (Done u, h') ->
  h' = mkHost (f (the_option h)) (live h) (freed h).
Proof. unfold modify_option. intro H. inversion H. reflexivity. Qed.

Section TestVerdict.

Variable curandState : Type.
Variable curand_init : Z -> Z -> Z -> curandState.
Variable curand_normal : curandState -> Real * curandState.
Variable randState : Type.
Variable rand : randState -> Z * randState.
Variable RAND_MAX : Z.
Variable fuel : nat.
Variable rt : cuda_runtime.
Variable raw_paths : mem.
Variable raw_rngStates : Z -> curandState.
Variable raw_values : mem.
Variable raw_values2 : mem.
Variable shared : kernel -> Z -> mem.
Variable numSims : Z.
Variable device : Z.
Variable threadBlockSize : Z.
Variable seed : Z.

Local Abbreviation test :=
  (Test_call curandState curand_init curand_normal randState rand RAND_MAX
     fuel rt raw_paths raw_rngStates raw_values raw_values2 shared numSims
     device threadBlockSize seed).

Local Abbreviation pricer :=
  (PricingEngine_call curandState curand_init curand_normal rt raw_paths
     raw_rngStates raw_values raw_values2 shared numSims device
     threadBlockSize seed).

(** X21: a run of the test driver that returns has priced the Call
    [spot 40, strike 35, r 0.03, sigma 0.20, tenor 1/3, dt 1/261, barrier
    45] with the device pass and has then run the serial pricer on the
    option the device pass left: the option it ends with is the result of
    that run of [operator[]], which changes [valuePlainVanillaCPU] only.
    Its verdict is [true] exactly when the Asian value written by the
    device pass is within 0.1 of [golden = 5.162534].  No other value takes
    part in the verdict, and the [valueALK] it prints was never assigned:
    it is what the uninitialised option held. *)
Theorem test_verdict_checks_asian_value_only
    (st : box_muller_state randState) (h h' : host) (pass : bool) :
  test st h = (Done pass, h') ->
  exists (h1 : host) (st' : box_muller_state randState),
    pricer (mkHost (test_option (the_option h)) (live h) (freed h))
      = (Done tt, h1) /\
    PricingEngine_index rand RAND_MAX numSims fuel (the_option h1) st
      = Some (the_option h', st') /\
    the_option h' =
      set_valuePlainVanillaCPU (valuePlainVanillaCPU (the_option h'))
        (the_option h1) /\
    valueAsian (the_option h') = valueAsian (the_option h1) /\
    golden (the_option h') = 5.162534%R /\
    (pass = true <->
     (Rabs (valueAsian (the_option h1) - 5.162534) <= 0.1)%R) /\
    valueALK (the_option h') = valueALK (the_option h).
Proof.
  unfold Test_call.
  destruct (cudaGetDeviceProperties rt device) as [res props].
  intro Hrun.
  apply bind_Done in Hrun. destruct Hrun as (u0 & h0 & Hcheck & Hrun).
  apply check_Done in Hcheck. destruct Hcheck as [_ ->].
  apply bind_Done in Hrun. destruct Hrun as (u1 & hopt & Hbuild & Hrun).
  apply modify_option_Done in Hbuild. subst hopt.
  apply bind_Done in Hrun. destruct Hrun as (u2 & h1 & Hpricer & Hrun).
  apply bind_Done in Hrun. destruct Hrun as (st1 & h2 & Hserial & Hrun).
  apply bind_Done in Hrun. destruct Hrun as (o & h3 & Hget & Hrun).
  apply get_option_Done in Hget. destruct Hget as [-> ->].
  destruct u2. exists h1.
  pose proof (run_keeps_contract curandState curand_init curand_normal rt
                raw_paths raw_rngStates raw_values raw_values2 shared
                numSims device threadBlockSize seed
                (mkHost (test_option (the_option h)) (live h) (freed h)))
    as Hkept.
  rewrite Hpricer in Hkept. unfold same_contract, untouched in Hkept.
  cbn [snd the_option test_option spot strike r sigma tenor dt barrier type
       golden valuePlainVanillaCPU valueALK] in Hkept.
  destruct Hkept as (_ & _ & _ & _ & _ & _ & _ & _ & Hgolden & _ & Halk).
  unfold serial_pricing in Hserial.
  destruct (PricingEngine_index rand RAND_MAX numSims fuel (the_option h1) st)
    as [[o' st']|] eqn:Eserial; [|discriminate].
  inversion Hserial. subst st1 h2. clear Hserial.
  unfold PricingEngine_index in Eserial.
  destruct (serial_paths rand RAND_MAX fuel (the_option h1) _ _ _ st)
    as [[sumVanilla st'']|]; [|discriminate].
  inversion Eserial. subst o' st''. clear Eserial.
  exists st'. split; [exact Hpricer|].
  cbn [the_option valueAsian golden valueALK set_valuePlainVanillaCPU] in *.
  assert (Hverdict :
            pass = negb (gtb (Rabs (valueAsian (the_option h1)
                                    - golden (the_option h1))) 0.1)
            /\ h' = mkHost (set_valuePlainVanillaCPU
                              (exp (- r (the_option h1) * tenor (the_option h1))
                               * sumVanilla / to_real numSims)%R
                              (the_option h1)) (live h1) (freed h1)).
  { destruct (gtb _ _); apply ret_Done in Hrun; destruct Hrun as [-> ->];
      split; reflexivity. }
  destruct Hverdict as [-> ->].
  cbn [the_option valueAsian golden valueALK valuePlainVanillaCPU
       set_valuePlainVanillaCPU].
  rewrite Hgolden. split; [reflexivity|]. repeat split; try assumption.
  - unfold gtb. destruct (Rgt_dec _ _) as [Hfar|Hnear]; cbn [negb].
    + discriminate.
    + intros _. lra.
  - unfold gtb. destruct (Rgt_dec _ _) as [Hfar|Hnear]; cbn [negb].
    + intro Hclose. lra.
    + reflexivity.
Qed.

End TestVerdict.

Lemma test_verdict_checks_asian_value_only_witness :
  exists (pass : bool) (h' h1 : host) (st' : box_muller_state unit),
    sample_pass good_runtime sample_host = (Done tt, h1) /\
    PricingEngine_index fixed_rand 4 4 1 (the_option h1)
      (mkBoxMuller 0%R false tt) = Some (the_option h', st') /\
    the_option h' =
      set_valuePlainVanillaCPU (valuePlainVanillaCPU (the_option h'))
        (the_option h1) /\
    valueAsian (the_option h') = valueAsian (the_option h1) /\
    golden (the_option h') = 5.162534%R /\
    (pass = true <->
     (Rabs (valueAsian (the_option h1) - 5.162534) <= 0.1)%R) /\
    valueALK (the_option h') = valueALK sample_call.
Proof.
  destruct sample_pass_returns as [h1 Hpricer].
  destruct (fixed_rand_serial_paths (the_option h1)
              (static_cast_int (tenor (the_option h1) / dt (the_option h1)))
              (Z.to_nat 4) 0%R (mkBoxMuller 0%R false tt))
    as [sumVanilla [st1 Hserial]].
  set (pass := negb (gtb (Rabs (valueAsian (the_option h1)
                                - golden (the_option h1))) 0.1)).
  set (h' := mkHost (set_valuePlainVanillaCPU
                       (exp (- r (the_option h1) * tenor (the_option h1))
                        * sumVanilla / to_real 4)%R (the_option h1))
               (live h1) (freed h1)).
  assert (Htest :
            Test_call nat (fun _ _ _ => 0%nat) zero_normal unit fixed_rand 4
              1%nat good_runtime (fun _ => 0%R) (fun _ => 0%nat)
              (fun _ => 0%R) (fun _ => 0%R) (fun _ _ _ => 0%R) 4 0 2 1234
              (mkBoxMuller 0%R false tt) sample_host = (Done pass, h')).
  { unfold Test_call. change (cudaGetDeviceProperties good_runtime 0)
      with (0, mkDeviceProp 2 0 4).
    cbv iota.
    rewrite (bind_after_return _ _ sample_host sample_host tt) by reflexivity.
    rewrite (bind_after_return _ _ sample_host sample_host tt) by reflexivity.
    rewrite (bind_after_return _ _ sample_host h1 tt) by exact Hpricer.
    unfold bind, serial_pricing, PricingEngine_index, get_option.
    rewrite Hserial. cbn [the_option].
    subst pass h'.
    cbn [valueAsian golden set_valuePlainVanillaCPU].
    destruct (gtb _ _); reflexivity. }
  destruct (test_verdict_checks_asian_value_only nat (fun _ _ _ => 0%nat)
              zero_normal unit fixed_rand 4 1%nat good_runtime (fun _ => 0%R)
              (fun _ => 0%nat) (fun _ => 0%R) (fun _ => 0%R)
              (fun _ _ _ => 0%R) 4 0 2 1234 (mkBoxMuller 0%R false tt)
              sample_host h' pass Htest)
    as (h2 & st' & Hpricer' & Hfacts).
  change (mkHost (test_option (the_option sample_host)) (live sample_host)
            (freed sample_host)) with sample_host in Hpricer'.
  exists pass, h', h2, st'. split; [exact Hpricer'|exact Hfacts].
Defined.

(** ** Lanes between two barriers *)

(** X22: one step of the reduction is free of interference between lanes:
    in whatever order the distinct lanes of a block execute
    [if (ltid < s) sdata[ltid] += sdata[ltid + s]] between two barriers,
    the shared buffer ends up the same. *)
Theorem reduce_step_ignores_lane_order (lanes lanes' : list Z) (s : Z)
    (sdata : mem) (j : Z) :
  0 < s -> NoDup lanes -> (forall l, In l lanes -> 0 <= l) ->
  Permutation lanes lanes' ->
  fold_left (reduce_lane s) lanes sdata j =
  fold_left (reduce_lane s) lanes' sdata j.
Proof.
  intros Hs Hnodup Hpos Hperm.
  rewrite (reduce_lanes_any_order lanes) by assumption.
  rewrite (reduce_lanes_any_order lanes').
  - destruct (in_dec Z.eq_dec j lanes) as [Hin|Hnin];
      destruct (in_dec Z.eq_dec j lanes') as [Hin'|Hnin']; try reflexivity.
    + exfalso. apply Hnin'. apply (Permutation_in _ Hperm Hin).
    + exfalso. apply Hnin.
      apply (Permutation_in _ (Permutation_sym Hperm) Hin').
  - exact Hs.
  - apply (Permutation_NoDup Hperm Hnodup).
  - intros l Hl. apply Hpos.
    apply (Permutation_in _ (Permutation_sym Hperm) Hl).
Qed.

Lemma reduce_step_ignores_lane_order_witness :
  fold_left (reduce_lane 2) [0; 1; 2; 3] (fun j => IZR j) 0 =
  fold_left (reduce_lane 2) [3; 1; 0; 2] (fun j => IZR j) 0.
Proof.
  apply reduce_step_ignores_lane_order.
  - lia.
  - repeat constructor; cbn; intuition lia.
  - intros l Hl. cbn in Hl. intuition lia.
  - apply (perm_trans (l' := [1; 0; 2; 3])).
    + apply perm_swap.
    + apply (perm_trans (l' := [1; 0; 3; 2])).
      * do 2 apply perm_skip. apply perm_swap.
      * apply (perm_trans (l' := [1; 3; 0; 2])).
        -- apply perm_skip. apply perm_swap.
        -- apply perm_swap.
Defined.

(** ** Signs of the results *)

Lemma reduce_phase_nonneg (blockDim s : Z) (a : mem) :
  0 < s -> 2 * s <= blockDim ->
  (forall j, 0 <= j < blockDim -> (0 <= a j)%R) ->
  forall j, 0 <= j < blockDim -> (0 <= reduce_phase blockDim s a j)%R.
Proof.
  intros Hs Hfit Ha j Hj. rewrite reduce_phase_slots by lia.
  destruct (Z.leb_spec 0 j); destruct (Z.ltb_spec j s);
    destruct (Z.ltb_spec j blockDim); cbn [andb]; try lia;
    try (apply Ha; lia).
  pose proof (Ha j ltac:(lia)). pose proof (Ha (j + s) ltac:(lia)). lra.
Qed.

Lemma reduce_steps_nonneg (blockDim : Z) (p : positive) (a : mem) :
  2 * Zpos p <= blockDim ->
  (forall j, 0 <= j < blockDim -> (0 <= a j)%R) ->
  forall j, 0 <= j < blockDim -> (0 <= reduce_steps blockDim p a j)%R.
Proof.
  revert a. induction p as [p IH|p IH|]; intros a Hfit Ha; cbn [reduce_steps].
  - apply IH; [lia|]. apply reduce_phase_nonneg; [lia|lia|exact Ha].
  - apply IH; [lia|]. apply reduce_phase_nonneg; [lia|lia|exact Ha].
  - apply reduce_phase_nonneg; [lia|lia|exact Ha].
Qed.

(** Whatever the block size, a block of non-negative lane sums reduces to
    a non-negative partial sum. *)
Lemma reduce_sum_nonneg (blockDim : Z) (f : Z -> Real) (sdata : mem) :
  0 < blockDim ->
  (forall j, 0 <= j < blockDim -> (0 <= f j)%R) ->
  (0 <= reduce_sum blockDim (map f (range blockDim)) sdata)%R.
Proof.
  intros Hblock Hf. unfold reduce_sum, reduce_shared.
  assert (Hstored : forall j, 0 <= j < blockDim ->
            (0 <= fold_left (fun sd '(ltid, x) => upd sd ltid x)
                    (combine (range blockDim) (map f (range blockDim)))
                    sdata j)%R).
  { intros j Hj. rewrite stored_lane_values by assumption. apply Hf, Hj. }
  pose proof (Z.mul_div_le blockDim 2 ltac:(lia)) as Hhalf.
  destruct (blockDim / 2) as [|p|p] eqn:Ehalf; cbn [reduce_loop].
  - apply Hstored. lia.
  - apply reduce_steps_nonneg; [lia|exact Hstored|lia].
  - apply Hstored. lia.
Qed.

Lemma fold_payoffs_nonneg (payoff : Z -> Real) (l : list Z) (a : Real) :
  (forall i, 0 <= payoff i)%R -> (0 <= a)%R ->
  (0 <= fold_left (fun s i => s + payoff i) l a)%R.
Proof.
  intro Hpayoff. revert a. induction l as [|i l IH]; intros a Ha.
  - exact Ha.
  - cbn [fold_left]. apply IH. pose proof (Hpayoff i). lra.
Qed.

Lemma discounted_mean_nonneg (opt : genericOption) (numSims : Z)
    (F : Z -> Real) (bids : list Z) :
  0 < numSims -> (forall bid, 0 <= F bid)%R ->
  (0 <= discounted_mean opt numSims (map F bids))%R.
Proof.
  intros Hsims HF. unfold discounted_mean, to_real.
  assert (Hsum : forall a, (0 <= a -> 0 <= fold_left Rplus (map F bids) a)%R).
  { induction bids as [|bid bids IH]; intros a Ha; cbn [map fold_left].
    - exact Ha.
    - apply IH. pose proof (HF bid). lra. }
  apply Rmult_le_pos; [|left; apply exp_pos].
  apply Rmult_le_pos; [apply Hsum; lra|].
  left. apply Rinv_0_lt_compat. apply IZR_lt. exact Hsims.
Qed.

Lemma payoffs_nonneg (paths : mem) (opt : genericOption)
    (numSims numTimesteps i : Z) :
  (0 <= plainvanilla_payoff paths opt numSims numTimesteps i
   /\ 0 <= asian_payoff paths opt numSims numTimesteps i
   /\ 0 <= lookback_payoff paths opt numSims numTimesteps i
   /\ 0 <= fst (knockoutin_payoff paths opt numSims numTimesteps i)
   /\ 0 <= snd (knockoutin_payoff paths opt numSims numTimesteps i))%R.
Proof.
  unfold plainvanilla_payoff, asian_payoff, lookback_payoff, knockoutin_payoff,
    rmax.
  destruct (lookback_scan _ _ _ _ _ _) as [finval valmin].
  destruct (knock_scan _ _ _ _ _ _ _) as [finval' killer].
  destruct (numTimesteps =? 0).
  - cbn [fst snd]. repeat split; first [apply Rmax_l | apply Rle_refl].
  - cbn [fst snd]. repeat split; apply Rmax_l.
Qed.

Lemma stored_block_sums_nonneg (opt : genericOption) (numSims gridDim blockDim : Z)
    (F : Z -> Real) (values : mem) :
  0 < blockDim -> 0 < numSims -> (forall bid, 0 <= F bid)%R ->
  (0 <= discounted_mean opt numSims
          (map (fold_left
                  (fun values bid => store_lane0 blockDim values bid (F bid))
                  (range gridDim) values)
             (range gridDim)))%R.
Proof.
  intros Hblock Hsims HF. rewrite kernel_readback by assumption.
  apply discounted_mean_nonneg; assumption.
Qed.

Section PassSigns.

Variable curandState : Type.
Variable curand_init : Z -> Z -> Z -> curandState.
Variable curand_normal : curandState -> Real * curandState.
Variable rt : cuda_runtime.
Variable raw_paths : mem.
Variable raw_rngStates : Z -> curandState.
Variable raw_values : mem.
Variable raw_values2 : mem.
Variable shared : kernel -> Z -> mem.
Variable m_numSims : Z.
Variable m_device : Z.
Variable m_threadBlockSize : Z.
Variable m_seed : Z.

Local Abbreviation run :=
  (PricingEngine_call curandState curand_init curand_normal rt raw_paths
     raw_rngStates raw_values raw_values2 shared m_numSims m_device
     m_threadBlockSize m_seed).

Local Abbreviation grid_x :=
  (launch_grid rt m_numSims m_device m_threadBlockSize).

(** X23: in a pass that returns, launched without wrap-around, none of the
    five values is negative, whatever the block size (power of two or not),
    the option and the variates drawn. *)
Theorem pass_values_are_nonnegative (h h' : host) (u : unit) :
  run h = (Done u, h') ->
  0 < grid_x -> 0 < m_threadBlockSize -> 0 < m_numSims ->
  m_numSims + grid_x * m_threadBlockSize <= 2 ^ 32 ->
  (0 <= valuePlainVanilla (the_option h')
   /\ 0 <= valueAsian (the_option h')
   /\ 0 <= valueKnockout (the_option h')
   /\ 0 <= valueKnockin (the_option h')
   /\ 0 <= valueLookback (the_option h'))%R.
Proof.
  intros Hrun Hgrid Hblock Hsims Hwrap.
  apply run_Done in Hrun. cbn zeta in Hrun.
  destruct Hrun as (paths & pv & asian & ko & ki & lb & Hrun).
  destruct Hrun as (_ & Hpv & Hasian & Hknock & Hlb & Hopt & _).
  unfold computeValuePlainVanilla, computeValueAsian, computeValueLookback
    in Hpv, Hasian, Hlb.
  rewrite single_sum_kernel_run in Hpv, Hasian, Hlb by assumption.
  rewrite knockoutin_kernel_run in Hknock by assumption.
  inversion Hpv as [Epv]. inversion Hasian as [Easian].
  inversion Hknock as [[Eko Eki]]. inversion Hlb as [Elb].
  clear Hpv Hasian Hknock Hlb.
  rewrite Hopt, <- Epv, <- Easian, <- Eko, <- Eki, <- Elb.
  clear Hopt Epv Easian Eko Eki Elb.
  cbn [valuePlainVanilla valueAsian valueKnockout valueKnockin valueLookback
       set_valuePlainVanilla set_valueAsian set_valueKnockout set_valueKnockin
       set_valueLookback].
  set (opt := the_option h) in *.
  set (nT := uint (static_cast_int (tenor opt / dt opt))) in *.
  assert (Hlanes : forall (payoff : Z -> Real) (sdata : Z -> mem) (bid : Z),
            (forall i, 0 <= payoff i)%R ->
            (0 <= reduce_sum m_threadBlockSize
                    (map (lane_total grid_x m_threadBlockSize m_numSims payoff bid)
                       (range m_threadBlockSize))
                    (sdata bid))%R).
  { intros payoff sdata bid Hpayoff. apply reduce_sum_nonneg; [exact Hblock|].
    intros ltid _. unfold lane_total.
    apply fold_payoffs_nonneg; [exact Hpayoff|lra]. }
  repeat split; apply stored_block_sums_nonneg; try assumption; intro bid;
    first [ apply (Hlanes _ (shared _)) | apply (Hlanes _ (fun bid' => _)) ];
    intro i; apply (payoffs_nonneg paths opt m_numSims nT i).
Qed.

End PassSigns.

Lemma pass_values_are_nonnegative_witness :
  exists h',
    sample_pass good_runtime sample_host = (Done tt, h') /\
    (0 <= valuePlainVanilla (the_option h')
     /\ 0 <= valueAsian (the_option h')
     /\ 0 <= valueKnockout (the_option h')
     /\ 0 <= valueKnockin (the_option h')
     /\ 0 <= valueLookback (the_option h'))%R.
Proof.
  destruct sample_pass_returns as [h' Hrun]. exists h'.
  split; [exact Hrun|].
  apply (pass_values_are_nonnegative nat (fun _ _ _ => 0%nat)
           zero_normal good_runtime (fun _ => 0%R) (fun _ => 0%nat)
           (fun _ => 0%R) (fun _ => 0%R) (fun _ _ _ => 0%R)
           4 0 2 1234 sample_host h' tt Hrun).
  - vm_compute. reflexivity.
  - lia.
  - lia.
  - vm_compute. discriminate.
Defined.
